(** * The request engine: a shallow embedding of [vllm/engine/llm_engine.py]

    The engine object is a record of the mutable fields the step loop and
    the admission path touch.  Every method of [LLMEngine] becomes a
    computation in a state-and-exception monad over that record: a Python
    exception leaves the state as it was when it was raised, which is what
    [Raise] keeps.  Sequence groups are shared objects (the scheduler
    queues, the scheduler outputs, the output queue and the multi-step
    cache all point at the same group), so they live in a store and are
    referred to by handle.

    Collaborators whose code is outside the engine module (scheduling
    policy, model executor, output processor, tokenizer, input processor)
    are fields of a record the engine functions take as a parameter. *)

From Stdlib Require Import ZArith String List Lia Bool.
From stdpp Require Import base option list strings.

Open Scope Z_scope.

(** ** Exceptions and results *)

Inductive Exn :=
| ValueError (msg : string)
| IndexError (msg : string)
| AssertionError (msg : string)
| NotImplementedError (msg : string)
| ExecutorError (msg : string).

Inductive result (A : Type) :=
| Ok (a : A)
| Raise (e : Exn).
Arguments Ok {A} a.
Arguments Raise {A} e.

Definition is_ok {A} (r : result A) : bool :=
  match r with Ok _ => true | Raise _ => false end.

(** ** Requests as they arrive *)

Record LoRARequest := { lora_int_id : Z }.
Record LoRAConfig := { max_loras : Z }.
Record PromptAdapterRequest := { prompt_adapter_num_virtual_tokens : Z }.

Definition MultiModalDataDict := list (string * Z).

(** [SingletonPromptInputs]: a plain string, or a dict holding either
    ["prompt_token_ids"] or ["prompt"], with optional multi-modal data. *)
Inductive SingletonPromptInputs :=
| StrPrompt (prompt : string)
| TokensPrompt (prompt_token_ids : list Z) (multi_modal_data : option MultiModalDataDict)
| TextPrompt (prompt : string) (multi_modal_data : option MultiModalDataDict).

Inductive PromptInputs :=
| Singleton (p : SingletonPromptInputs)
| ExplicitEncoderDecoder (encoder_prompt : SingletonPromptInputs)
                         (decoder_prompt : option SingletonPromptInputs).

(** [LLMInputs] and [EncoderDecoderLLMInputs] are one dict type; the encoder
    keys are present only in the second. *)
Record LLMInputs := {
  prompt_token_ids : list Z;
  prompt : option string;
  multi_modal_data : option MultiModalDataDict;
  encoder_prompt_token_ids : option (list Z);
  encoder_prompt : option string }.

Record SamplingParams := {
  n : Z;
  best_of : Z;
  use_beam_search : bool;
  logprobs : option Z;
  prompt_logprobs : option Z;
  max_tokens : option Z;
  stop_token_ids : list Z }.

Record PoolingParams := { additional_data : option Z }.

(** [params] is dynamically typed: anything that is neither of the two
    parameter classes reaches the final [else] of the dispatch. *)
Inductive Params :=
| Sampling (sp : SamplingParams)
| Pooling (pp : PoolingParams)
| OtherParams.

(** ** Sequences and sequence groups *)

Inductive SequenceStatus :=
| WAITING | RUNNING | SWAPPED
| FINISHED_STOPPED | FINISHED_LENGTH_CAPPED | FINISHED_ABORTED | FINISHED_IGNORED.

Definition Logprobs := list (Z * Z).

Record Sequence := {
  seq_id : nat;
  inputs : LLMInputs;
  block_size : Z;
  eos_token_id : option Z;
  seq_lora_request : option LoRARequest;
  seq_prompt_adapter_request : option PromptAdapterRequest;
  from_decoder_prompt : bool;
  output_token_ids : list Z;
  output_logprobs : list Logprobs;
  status : SequenceStatus;
  num_computed_tokens : Z }.

Record SequenceGroup := {
  request_id : string;
  seqs : list Sequence;
  arrival_time : Z;
  sampling_params : option SamplingParams;
  pooling_params : option PoolingParams;
  lora_request : option LoRARequest;
  trace_headers : option (list (string * string));
  prompt_adapter_request : option PromptAdapterRequest;
  encoder_seq : option Sequence;
  embeddings : option (list Z);
  remaining_steps : Z }.

(** A sequence group is a Python object that several structures point at;
    [handle] is its address in the engine's store of groups. *)
Abbreviation handle := nat.

(** Modelled from the spec: the [Sequence] and [SequenceGroup] methods the
    engine calls ([vllm/sequence.py] is not among the sources).  A sequence
    is finished in one of the four terminal statuses; a group is finished
    when every child is; [update_num_computed_tokens] advances the counter
    of every child that is not finished; [append_token_id] extends the
    output stream by one token together with its logprobs. *)
Definition seq_is_finished (s : Sequence) : bool :=
  match status s with
  | FINISHED_STOPPED | FINISHED_LENGTH_CAPPED
  | FINISHED_ABORTED | FINISHED_IGNORED => true
  | _ => false
  end.

Definition is_finished (g : SequenceGroup) : bool :=
  forallb seq_is_finished (seqs g).

Definition set_seqs (g : SequenceGroup) (l : list Sequence) : SequenceGroup :=
  {| request_id := request_id g; seqs := l; arrival_time := arrival_time g;
     sampling_params := sampling_params g; pooling_params := pooling_params g;
     lora_request := lora_request g; trace_headers := trace_headers g;
     prompt_adapter_request := prompt_adapter_request g;
     encoder_seq := encoder_seq g; embeddings := embeddings g;
     remaining_steps := remaining_steps g |}.

Definition set_embeddings (g : SequenceGroup) (e : option (list Z)) : SequenceGroup :=
  {| request_id := request_id g; seqs := seqs g; arrival_time := arrival_time g;
     sampling_params := sampling_params g; pooling_params := pooling_params g;
     lora_request := lora_request g; trace_headers := trace_headers g;
     prompt_adapter_request := prompt_adapter_request g;
     encoder_seq := encoder_seq g; embeddings := e;
     remaining_steps := remaining_steps g |}.

Definition set_remaining_steps (g : SequenceGroup) (r : Z) : SequenceGroup :=
  {| request_id := request_id g; seqs := seqs g; arrival_time := arrival_time g;
     sampling_params := sampling_params g; pooling_params := pooling_params g;
     lora_request := lora_request g; trace_headers := trace_headers g;
     prompt_adapter_request := prompt_adapter_request g;
     encoder_seq := encoder_seq g; embeddings := embeddings g;
     remaining_steps := r |}.

Definition seq_set_status (s : Sequence) (st : SequenceStatus) : Sequence :=
  {| seq_id := seq_id s; inputs := inputs s; block_size := block_size s;
     eos_token_id := eos_token_id s; seq_lora_request := seq_lora_request s;
     seq_prompt_adapter_request := seq_prompt_adapter_request s;
     from_decoder_prompt := from_decoder_prompt s;
     output_token_ids := output_token_ids s;
     output_logprobs := output_logprobs s;
     status := st; num_computed_tokens := num_computed_tokens s |}.

Definition seq_update_num_computed_tokens (k : Z) (s : Sequence) : Sequence :=
  {| seq_id := seq_id s; inputs := inputs s; block_size := block_size s;
     eos_token_id := eos_token_id s; seq_lora_request := seq_lora_request s;
     seq_prompt_adapter_request := seq_prompt_adapter_request s;
     from_decoder_prompt := from_decoder_prompt s;
     output_token_ids := output_token_ids s;
     output_logprobs := output_logprobs s;
     status := status s; num_computed_tokens := num_computed_tokens s + k |}.

Definition append_token_id (tok : Z) (lp : Logprobs) (s : Sequence) : Sequence :=
  {| seq_id := seq_id s; inputs := inputs s; block_size := block_size s;
     eos_token_id := eos_token_id s; seq_lora_request := seq_lora_request s;
     seq_prompt_adapter_request := seq_prompt_adapter_request s;
     from_decoder_prompt := from_decoder_prompt s;
     output_token_ids := output_token_ids s ++ [tok];
     output_logprobs := output_logprobs s ++ [lp];
     status := status s; num_computed_tokens := num_computed_tokens s |}.

Definition update_num_computed_tokens (k : Z) (g : SequenceGroup) : SequenceGroup :=
  set_seqs g
    (map (fun s => if seq_is_finished s then s
                   else seq_update_num_computed_tokens k s) (seqs g)).

(** [Sequence(seq_id, inputs, block_size, eos_token_id, lora_request,
    prompt_adapter_request, from_decoder_prompt)]: a fresh sequence waits,
    with nothing generated and nothing computed. *)
Definition new_Sequence (sid : nat) (i : LLMInputs) (bs : Z) (eos : option Z)
    (lora : option LoRARequest) (pa : option PromptAdapterRequest)
    (dec : bool) : Sequence :=
  {| seq_id := sid; inputs := i; block_size := bs; eos_token_id := eos;
     seq_lora_request := lora; seq_prompt_adapter_request := pa;
     from_decoder_prompt := dec;
     output_token_ids := []; output_logprobs := [];
     status := WAITING; num_computed_tokens := 0 |}.

(** ** What the executor returns *)

Record SequenceOutput := {
  parent_seq_id : nat;
  output_token : Z;
  sample_logprobs : Logprobs }.

(** One group's share of one forward pass: its samples (a
    [CompletionSequenceGroupOutput]) or its embeddings (an
    [EmbeddingSequenceGroupOutput]). *)
Record SequenceGroupOutput := {
  samples : list SequenceOutput;
  out_prompt_logprobs : option (list Logprobs);
  out_embeddings : list Z }.

Record SamplerOutput := {
  outputs : list SequenceGroupOutput;
  sampled_token_ids : option (list Z);
  sampled_token_probs : option (list Z);
  sampled_token_ids_cpu : option (list Z) }.

(** ** What the scheduler returns *)

(** A [SequenceGroupMetadata] shares its multi-step [state] with the group
    it was built from; [md_state] is the handle of that group. *)
Record SequenceGroupMetadata := {
  md_request_id : string;
  md_state : handle;
  is_prompt : bool;
  do_sample : bool;
  md_token_chunk_size : Z }.

Record ScheduledSequenceGroup := {
  seq_group : handle;
  token_chunk_size : Z }.

Record SchedulerOutputs := {
  scheduled_seq_groups : list ScheduledSequenceGroup;
  num_prefill_groups : Z;
  num_batched_tokens : Z;
  blocks_to_swap_in : list (Z * Z);
  blocks_to_swap_out : list (Z * Z);
  blocks_to_copy : list (Z * Z);
  ignored_seq_groups : list handle;
  num_lookahead_slots : Z;
  running_queue_size : Z;
  preempted : Z }.

(** Modelled from the spec: [SchedulerOutputs.is_empty]
    ([vllm/core/scheduler.py] is not among the sources): a decision with no
    group to execute and no block movement to perform. *)
Definition is_empty (so : SchedulerOutputs) : bool :=
  match scheduled_seq_groups so, blocks_to_swap_in so,
        blocks_to_swap_out so, blocks_to_copy so with
  | [], [], [], [] => true
  | _, _, _, _ => false
  end.

(** Modelled from the spec: the queue side of [Scheduler]
    ([vllm/core/scheduler.py] is not among the sources).  A scheduler holds
    the three request queues; a new group joins the tail of [waiting]; the
    unfinished groups are the queued ones; finished groups are dropped from
    [running] and their ids remembered for the next forward pass. *)
Record Scheduler := {
  waiting : list handle;
  running : list handle;
  swapped : list handle;
  _finished_requests_ids : list string }.

Definition add_seq_group (h : handle) (s : Scheduler) : Scheduler :=
  {| waiting := waiting s ++ [h]; running := running s; swapped := swapped s;
     _finished_requests_ids := _finished_requests_ids s |}.

Definition get_num_unfinished_seq_groups (s : Scheduler) : nat :=
  (length (waiting s) + length (running s) + length (swapped s))%nat.

Definition has_unfinished_seqs (s : Scheduler) : bool :=
  negb (Nat.eqb (get_num_unfinished_seq_groups s) 0).

Definition group_finished_at (store : list SequenceGroup) (h : handle) : bool :=
  match store !! h with
  | Some g => is_finished g
  | None => false
  end.

Definition free_finished_seq_groups (store : list SequenceGroup) (s : Scheduler)
  : Scheduler :=
  {| waiting := waiting s;
     running := filter (fun h => group_finished_at store h = false) (running s);
     swapped := swapped s;
     _finished_requests_ids :=
       _finished_requests_ids s ++
       omap (fun h => match store !! h with
                      | Some g => if is_finished g then Some (request_id g) else None
                      | None => None
                      end) (running s) |}.

Definition reset_finished_requests_ids (s : Scheduler) : Scheduler :=
  {| waiting := waiting s; running := running s; swapped := swapped s;
     _finished_requests_ids := [] |}.


(** Modelled from the spec: [RequestOutputFactory.create]
    ([vllm/outputs.py] is not among the sources): the user-visible snapshot
    of a group, with its id, the tokens of each child and whether the
    request has terminated. *)
Record RequestOutput := {
  ro_request_id : string;
  ro_outputs : list (list Z);
  ro_embeddings : option (list Z);
  ro_finished : bool }.

Definition RequestOutputFactory_create (g : SequenceGroup) : RequestOutput :=
  {| ro_request_id := request_id g;
     ro_outputs := map output_token_ids (seqs g);
     ro_embeddings := embeddings g;
     ro_finished := is_finished g |}.

(** ** Configuration and collaborators *)

Record HFConfig := { hf_decoder_start_token_id : option Z }.

Record EngineConfig := {
  pipeline_parallel_size : Z;
  is_multi_step : bool;
  lora_config : option LoRAConfig;
  max_logprobs : Z;
  is_encoder_decoder_model : bool;
  embedding_mode : bool;
  hf_config : option HFConfig;
  cache_block_size : Z;
  step_return_finished_only : bool;
  log_stats : bool;
  tracer : bool }.

Record TokenizerGroup := {
  encode : string -> string -> option LoRARequest -> list Z;
  bos_token_id : option LoRARequest -> option Z;
  tok_eos_token_id : option LoRARequest -> option Z }.

Record ExecuteModelRequest := {
  req_seq_group_metadata_list : list SequenceGroupMetadata;
  req_blocks_to_swap_in : list (Z * Z);
  req_blocks_to_swap_out : list (Z * Z);
  req_blocks_to_copy : list (Z * Z);
  req_num_lookahead_slots : Z;
  req_running_queue_size : Z;
  finished_requests_ids : list string;
  last_sampled_token_ids : option (list Z);
  output_proc_callback_fn : bool }.

(** [Scheduler.schedule()] returns the metadata list, the scheduler outputs
    and the async flag, and leaves the scheduler and the groups it touched
    in a new state. *)
Record ScheduleResult := {
  sr_scheduler : Scheduler;
  sr_groups : list SequenceGroup;
  sr_seq_group_metadata_list : list SequenceGroupMetadata;
  sr_scheduler_outputs : SchedulerOutputs;
  sr_allow_async_output_proc : bool }.

(** The executor either returns the sampler outputs or raises; when it was
    handed the output-processing callback it may call it before that. *)
Record ExecOutcome := {
  invokes_callback : bool;
  returned : result (list SamplerOutput) }.

Record Collaborators := {
  tokenizer : option TokenizerGroup;
  input_processor : LLMInputs -> result LLMInputs;
  update_from_generation_config : SamplingParams -> option Z -> SamplingParams;
  time_time : Z;
  schedule : Scheduler -> list SequenceGroup -> ScheduleResult;
  execute_model : ExecuteModelRequest -> list SequenceGroup -> ExecOutcome;
  process_prompt_logprob :
    SequenceGroup -> list SequenceGroupOutput -> SequenceGroup;
  process_outputs :
    SequenceGroup -> list SequenceGroupOutput -> bool -> SequenceGroup }.

(** ** The engine object *)

Record SchedulerOutputState := {
  seq_group_metadata_list : option (list SequenceGroupMetadata);
  scheduler_outputs : option SchedulerOutputs;
  allow_async_output_proc : bool;
  last_output : option SamplerOutput }.

Definition new_SchedulerOutputState : SchedulerOutputState :=
  {| seq_group_metadata_list := None; scheduler_outputs := None;
     allow_async_output_proc := false; last_output := None |}.

(** Calls that leave the engine, in the order they are made. *)
Inductive Event :=
| EvSchedule
| EvExecuteModel (req : ExecuteModelRequest)
| EvFinishStep (h : handle)
| EvProcessOutputs (h : handle) (is_async : bool)
| EvLogStats
| EvTracing
| EvStopRemoteWorkerLoop.

Definition QueueEntry : Type :=
  list SamplerOutput * list SequenceGroupMetadata * SchedulerOutputs.

Record LLMEngine := {
  seq_counter : nat;
  scheduler : list Scheduler;
  groups : list SequenceGroup;
  cached_scheduler_outputs : list SchedulerOutputState;
  output_queue : list QueueEntry;
  request_outputs : list RequestOutput;
  trace : list Event }.

Definition set_seq_counter (c : nat) (e : LLMEngine) : LLMEngine :=
  {| seq_counter := c; scheduler := scheduler e; groups := groups e;
     cached_scheduler_outputs := cached_scheduler_outputs e;
     output_queue := output_queue e; request_outputs := request_outputs e;
     trace := trace e |}.

Definition set_scheduler (s : list Scheduler) (e : LLMEngine) : LLMEngine :=
  {| seq_counter := seq_counter e; scheduler := s; groups := groups e;
     cached_scheduler_outputs := cached_scheduler_outputs e;
     output_queue := output_queue e; request_outputs := request_outputs e;
     trace := trace e |}.

Definition set_groups (g : list SequenceGroup) (e : LLMEngine) : LLMEngine :=
  {| seq_counter := seq_counter e; scheduler := scheduler e; groups := g;
     cached_scheduler_outputs := cached_scheduler_outputs e;
     output_queue := output_queue e; request_outputs := request_outputs e;
     trace := trace e |}.

Definition set_cached_scheduler_outputs (c : list SchedulerOutputState)
    (e : LLMEngine) : LLMEngine :=
  {| seq_counter := seq_counter e; scheduler := scheduler e; groups := groups e;
     cached_scheduler_outputs := c;
     output_queue := output_queue e; request_outputs := request_outputs e;
     trace := trace e |}.

Definition set_output_queue (q : list QueueEntry) (e : LLMEngine) : LLMEngine :=
  {| seq_counter := seq_counter e; scheduler := scheduler e; groups := groups e;
     cached_scheduler_outputs := cached_scheduler_outputs e;
     output_queue := q; request_outputs := request_outputs e;
     trace := trace e |}.

Definition set_request_outputs (r : list RequestOutput) (e : LLMEngine) : LLMEngine :=
  {| seq_counter := seq_counter e; scheduler := scheduler e; groups := groups e;
     cached_scheduler_outputs := cached_scheduler_outputs e;
     output_queue := output_queue e; request_outputs := r;
     trace := trace e |}.

Definition set_trace (t : list Event) (e : LLMEngine) : LLMEngine :=
  {| seq_counter := seq_counter e; scheduler := scheduler e; groups := groups e;
     cached_scheduler_outputs := cached_scheduler_outputs e;
     output_queue := output_queue e; request_outputs := request_outputs e;
     trace := t |}.

(** ** The monad of engine methods *)

Definition M (A : Type) : Type := LLMEngine -> LLMEngine * result A.

#[global] Instance M_ret : MRet M := fun A a e => (e, Ok a).

#[global] Instance M_bind : MBind M := fun A B f m e =>
  match m e with
  | (e', Ok a) => f a e'
  | (e', Raise x) => (e', Raise x)
  end.

#[global] Typeclasses Opaque M.

Definition raise {A} (x : Exn) : M A := fun e => (e, Raise x).
Definition gets {A} (f : LLMEngine -> A) : M A := fun e => (e, Ok (f e)).
Definition modify (f : LLMEngine -> LLMEngine) : M unit := fun e => (f e, Ok tt).
Definition lift_result {A} (r : result A) : M A := fun e => (e, r).

Definition assert (b : bool) (msg : string) : M unit :=
  if b then mret tt else raise (AssertionError msg).

Definition when (b : bool) (m : M unit) : M unit :=
  if b then m else mret tt.

Definition emit (ev : Event) : M unit :=
  modify (fun e => set_trace (trace e ++ [ev]) e).

(** [for x in l: body(x)], stopping at the first exception. *)
Fixpoint for_each {A} (l : list A) (body : A -> M unit) : M unit :=
  match l with
  | [] => mret tt
  | x :: l' => body x;; for_each l' body
  end.

(** Reading a group through its handle. *)
Definition load_group (h : handle) : M SequenceGroup :=
  g ← gets (fun e => groups e !! h);
  match g with
  | Some g => mret g
  | None => raise (IndexError "dangling sequence group")
  end.

(** A method that mutates the group object in place. *)
Definition mutate_group (h : handle) (f : SequenceGroup -> SequenceGroup)
  : M unit :=
  modify (fun e => set_groups (alter f h (groups e)) e).

(** Python truthiness of an optional int. *)
Definition truthy (o : option Z) : bool :=
  match o with
  | Some z => negb (z =? 0)
  | None => false
  end.

(** [min(costs)] and [costs.index(m)]; [min] of an empty list raises. *)
Fixpoint list_min (l : list nat) : option nat :=
  match l with
  | [] => None
  | x :: l' => match list_min l' with
               | None => Some x
               | Some m => Some (Nat.min x m)
               end
  end.

Fixpoint index_of (m : nat) (l : list nat) : option nat :=
  match l with
  | [] => None
  | x :: l' => if Nat.eqb x m then Some 0%nat
               else S <$> index_of m l'
  end.

(** ** Admission: [add_request] and what it calls *)

Section Engine.

Context (cfg : EngineConfig) (env : Collaborators).

Definition get_tokenizer_group (missing_msg : string) : M TokenizerGroup :=
  match tokenizer env with
  | None => raise (ValueError missing_msg)
  | Some t => mret t
  end.

Definition _get_bos_token_id (lora : option LoRARequest) : option Z :=
  match tokenizer env with
  | None => None
  | Some t => bos_token_id t lora
  end.

Definition _get_eos_token_id (lora : option LoRARequest) : option Z :=
  match tokenizer env with
  | None => None
  | Some t => tok_eos_token_id t lora
  end.

Definition _get_decoder_start_token_id : option Z :=
  if negb (is_encoder_decoder_model cfg) then None
  else match hf_config cfg with
       | None => None
       | Some hf =>
           match hf_decoder_start_token_id hf with
           | None => _get_bos_token_id None
           | Some d => Some d
           end
       end.

Definition _get_default_enc_dec_decoder_prompt : M (list Z) :=
  match _get_bos_token_id None with
  | None => raise (AssertionError "bos_token_id is not None")
  | Some bos => mret [bos]
  end.

Definition _prepare_decoder_input_ids_for_generation
    (decoder_input_ids : option (list Z)) : M (list Z) :=
  match _get_decoder_start_token_id with
  | None => raise (AssertionError "decoder_start_token_id is not None")
  | Some decoder_start_token_id =>
      ids ← match decoder_input_ids with
            | None => _get_default_enc_dec_decoder_prompt
            | Some ids => mret ids
            end;
      match ids with
      | [] => mret (decoder_start_token_id :: ids)
      | t :: _ => if t =? decoder_start_token_id then mret ids
                  else mret (decoder_start_token_id :: ids)
      end
  end.

Definition _tokenize_prompt (p : string) (rid : string)
    (lora : option LoRARequest) : M (list Z) :=
  t ← get_tokenizer_group "prompts must be None if skip_tokenizer_init is True";
  mret (encode t rid p lora).

Definition PromptComponents : Type :=
  option string * list Z * option MultiModalDataDict.

Definition DecoderPromptComponents : Type :=
  option string * option (list Z) * option MultiModalDataDict.

Definition _extract_prompt_components (i : SingletonPromptInputs)
    (rid : string) (lora : option LoRARequest) : M PromptComponents :=
  match i with
  | StrPrompt p =>
      ids ← _tokenize_prompt p rid lora;
      mret (Some p, ids, None)
  | TokensPrompt ids mm => mret (None, ids, mm)
  | TextPrompt p mm =>
      ids ← _tokenize_prompt p rid lora;
      mret (Some p, ids, mm)
  end.

Definition _apply_prompt_adapter (ids : list Z)
    (pa : option PromptAdapterRequest) : list Z :=
  match pa with
  | Some r => replicate (Z.to_nat (prompt_adapter_num_virtual_tokens r)) 0 ++ ids
  | None => ids
  end.

Definition _build_enc_dec_llm_inputs (encoder_comps : PromptComponents)
    (decoder_comps : DecoderPromptComponents) : M LLMInputs :=
  let '(enc_prompt, enc_ids, enc_mm) := encoder_comps in
  let '(dec_prompt, dec_ids, dec_mm) := decoder_comps in
  match enc_mm, dec_mm with
  | None, None =>
      dec_ids' ← _prepare_decoder_input_ids_for_generation dec_ids;
      mret {| prompt_token_ids := dec_ids'; prompt := dec_prompt;
              multi_modal_data := None;
              encoder_prompt_token_ids := Some enc_ids;
              encoder_prompt := enc_prompt |}
  | _, _ => raise (ValueError
              "Multi-modal encoder-decoder models are not supported yet")
  end.

Definition is_explicit_encoder_decoder_prompt (i : PromptInputs) : bool :=
  match i with
  | ExplicitEncoderDecoder _ _ => true
  | Singleton _ => false
  end.

Definition _process_encoder_decoder_prompt (i : PromptInputs) (rid : string)
  : M LLMInputs :=
  match i with
  | ExplicitEncoderDecoder enc dec =>
      encoder_comps ← _extract_prompt_components enc rid None;
      decoder_comps ←
        match dec with
        | None => mret (None, None, None)
        | Some d =>
            '(p, ids, mm) ← _extract_prompt_components d rid None;
            mret (p, Some ids, mm)
        end;
      _build_enc_dec_llm_inputs encoder_comps decoder_comps
  | Singleton s =>
      encoder_comps ← _extract_prompt_components s rid None;
      _build_enc_dec_llm_inputs encoder_comps (None, None, None)
  end.

Definition _build_decoder_only_llm_inputs (prompt_comps : PromptComponents)
    (pa : option PromptAdapterRequest) : LLMInputs :=
  let '(p, ids, mm) := prompt_comps in
  {| prompt_token_ids := _apply_prompt_adapter ids pa; prompt := p;
     multi_modal_data := mm;
     encoder_prompt_token_ids := None; encoder_prompt := None |}.

Definition _process_decoder_only_prompt (i : SingletonPromptInputs)
    (rid : string) (lora : option LoRARequest)
    (pa : option PromptAdapterRequest) : M LLMInputs :=
  prompt_comps ← _extract_prompt_components i rid lora;
  mret (_build_decoder_only_llm_inputs prompt_comps pa).

Definition process_model_inputs (i : PromptInputs) (rid : string)
    (lora : option LoRARequest) (pa : option PromptAdapterRequest)
  : M LLMInputs :=
  model_inputs ←
    (if is_encoder_decoder_model cfg then
       _process_encoder_decoder_prompt i rid
     else
       match i with
       | ExplicitEncoderDecoder _ _ =>
           raise (ValueError
             "Cannot pass encoder-decoder prompt to decoder-only models")
       | Singleton s => _process_decoder_only_prompt s rid lora pa
       end);
  lift_result (input_processor env model_inputs).

(** [inputs.get(prompt_key)]: the encoder prompt for an encoder-decoder
    model, the prompt otherwise; a missing key reads as [None]. *)
Definition checked_prompt (i : LLMInputs) : option (list Z) :=
  if is_encoder_decoder_model cfg then encoder_prompt_token_ids i
  else Some (prompt_token_ids i).

Definition _validate_model_inputs (i : LLMInputs) : M unit :=
  match checked_prompt i with
  | None | Some [] => raise (ValueError "Prompt cannot be empty")
  | Some (_ :: _) => mret tt
  end.

Definition exceeds_max_logprobs (sp : SamplingParams) : bool :=
  (truthy (logprobs sp)
     && match logprobs sp with Some l => l >? max_logprobs cfg | None => false end)
  || (truthy (prompt_logprobs sp)
     && match prompt_logprobs sp with
        | Some l => l >? max_logprobs cfg
        | None => false
        end).

Definition new_SequenceGroup (rid : string) (seq : Sequence) (arrival : Z)
    (sp : option SamplingParams) (pp : option PoolingParams)
    (lora : option LoRARequest) (th : option (list (string * string)))
    (pa : option PromptAdapterRequest) (enc : option Sequence)
  : SequenceGroup :=
  {| request_id := rid; seqs := [seq]; arrival_time := arrival;
     sampling_params := sp; pooling_params := pp; lora_request := lora;
     trace_headers := th; prompt_adapter_request := pa; encoder_seq := enc;
     embeddings := None; remaining_steps := 1 |}.

Definition _create_sequence_group_with_sampling (rid : string) (seq : Sequence)
    (sp : SamplingParams) (arrival : Z) (lora : option LoRARequest)
    (th : option (list (string * string)))
    (pa : option PromptAdapterRequest) (enc : option Sequence)
  : M SequenceGroup :=
  if exceeds_max_logprobs sp then
    raise (ValueError "Cannot request more than max_logprobs logprobs.")
  else
    let sp' := update_from_generation_config env sp (eos_token_id seq) in
    mret (new_SequenceGroup rid seq arrival (Some sp') None lora th pa enc).

Definition _create_sequence_group_with_pooling (rid : string) (seq : Sequence)
    (pp : PoolingParams) (arrival : Z) (lora : option LoRARequest)
    (pa : option PromptAdapterRequest) (enc : option Sequence)
  : M SequenceGroup :=
  mret (new_SequenceGroup rid seq arrival None (Some pp) lora None pa enc).

(** [SequenceGroup(...)] creates a new object: it gets the next free
    address of the store. *)
Definition alloc_group (g : SequenceGroup) : M handle :=
  h ← gets (fun e => length (groups e));
  modify (fun e => set_groups (groups e ++ [g]) e);;
  mret h.

Definition _add_processed_request (rid : string) (processed_inputs : LLMInputs)
    (params : Params) (arrival : Z) (lora : option LoRARequest)
    (pa : option PromptAdapterRequest)
    (th : option (list (string * string))) : M unit :=
  _validate_model_inputs processed_inputs;;
  let bs := cache_block_size cfg in
  sid ← gets seq_counter;
  modify (set_seq_counter (S sid));;
  let eos := _get_eos_token_id lora in
  let seq := new_Sequence sid processed_inputs bs eos lora pa true in
  let enc :=
    match encoder_prompt_token_ids processed_inputs with
    | Some _ => Some (new_Sequence sid processed_inputs bs eos lora pa false)
    | None => None
    end in
  g ← match params with
      | Sampling sp =>
          _create_sequence_group_with_sampling rid seq sp arrival lora th pa enc
      | Pooling pp =>
          _create_sequence_group_with_pooling rid seq pp arrival lora pa enc
      | OtherParams =>
          raise (ValueError
            "Either SamplingParams or PoolingParams must be provided.")
      end;
  h ← alloc_group g;
  costs ← gets (fun e => map get_num_unfinished_seq_groups (scheduler e));
  match list_min costs with
  | None => raise (ValueError "min() arg is an empty sequence")
  | Some m =>
      match index_of m costs with
      | None => raise (ValueError "is not in list")
      | Some k =>
          modify (fun e =>
            set_scheduler (alter (add_seq_group h) k (scheduler e)) e)
      end
  end.

Definition add_request (rid : string) (i : PromptInputs) (params : Params)
    (arrival : option Z) (lora : option LoRARequest)
    (th : option (list (string * string)))
    (pa : option PromptAdapterRequest) : M unit :=
  match lora, lora_config cfg with
  | Some _, None =>
      raise (ValueError "Got lora_request but LoRA is not enabled!")
  | _, _ =>
      let arrival := match arrival with
                     | None => time_time env
                     | Some t => t
                     end in
      processed_inputs ← process_model_inputs i rid lora pa;
      _add_processed_request rid processed_inputs params arrival lora pa th
  end.

(** ** Output processing *)

Definition get_num_unfinished_requests (e : LLMEngine) : nat :=
  foldr Nat.add 0%nat (map get_num_unfinished_seq_groups (scheduler e)).

Definition has_unfinished_requests (e : LLMEngine) : bool :=
  existsb has_unfinished_seqs (scheduler e).

(** [l[i]], raising [IndexError] out of range. *)
Definition index {A} (l : list A) (i : nat) : M A :=
  match l !! i with
  | Some x => mret x
  | None => raise (IndexError "list index out of range")
  end.

(** Modelled from the spec: [create_output_by_sequence_group]
    ([vllm/engine/output_processor/util.py] is not among the sources): the
    outputs of several steps, given as [step][sequence group], organised as
    [sequence group][step]. *)
Definition create_output_by_sequence_group (outs : list SamplerOutput)
    (num_seq_groups : nat) : list (list SequenceGroupOutput) :=
  map (fun i => omap (fun step => outputs step !! i) outs) (seq 0 num_seq_groups).

Definition _process_sequence_group_outputs (h : handle)
    (outs : list SequenceGroupOutput) : M unit :=
  o ← index outs 0;
  mutate_group h (fun g => set_embeddings g (Some (out_embeddings o)));;
  mutate_group h (fun g =>
    set_seqs g (map (fun s => seq_set_status s FINISHED_STOPPED) (seqs g))).

(** [do_log_stats] and [do_tracing] only talk to the loggers and the
    tracer; the statistics themselves are floating-point and not kept. *)
Definition do_log_stats : M unit :=
  when (log_stats cfg) (emit EvLogStats).

Definition do_tracing (so : SchedulerOutputs) : M unit :=
  when (tracer cfg)
    (for_each (scheduled_seq_groups so) (fun ssg =>
       g ← load_group (seq_group ssg);
       when (is_finished g) (emit EvTracing))).

(** The body of the first loop of [_process_model_outputs], for the group
    at position [i]; it returns [true] when the group was already finished
    (the position then joins [finished_before]). *)
Definition process_scheduled_group (is_async : bool)
    (outs : list SamplerOutput)
    (outputs_by_sequence_group : list (list SequenceGroupOutput))
    (so : SchedulerOutputs) (i : nat) (meta : SequenceGroupMetadata)
  : M bool :=
  scheduled_seq_group ← index (scheduled_seq_groups so) i;
  let h := seq_group scheduled_seq_group in
  g ← load_group h;
  if is_finished g then mret true
  else
    output ←
      (if (1 <? length outs)%nat then index outputs_by_sequence_group i
       else
         first ← index outs 0;
         o ← index (outputs first) i;
         mret [o]);
    when (negb is_async)
      (mutate_group h
         (update_num_computed_tokens (token_chunk_size scheduled_seq_group)));;
    (if embedding_mode cfg then
       _process_sequence_group_outputs h output
     else
       mutate_group h (fun g => process_prompt_logprob env g output);;
       when (do_sample meta)
         (mutate_group h (fun g => process_outputs env g output is_async);;
          emit (EvProcessOutputs h is_async)));;
    mret false.

Fixpoint process_scheduled_groups (is_async : bool)
    (outs : list SamplerOutput)
    (outputs_by_sequence_group : list (list SequenceGroupOutput))
    (so : SchedulerOutputs) (i : nat) (metas : list SequenceGroupMetadata)
    (finished_before : list nat) : M (list nat) :=
  match metas with
  | [] => mret finished_before
  | meta :: rest =>
      was_finished ← process_scheduled_group is_async outs
                       outputs_by_sequence_group so i meta;
      process_scheduled_groups is_async outs outputs_by_sequence_group so
        (S i) rest
        (if was_finished : bool then finished_before ++ [i] else finished_before)
  end.

(** The body of the second loop: the output of the group at position [i]. *)
Definition create_scheduled_output (so : SchedulerOutputs)
    (finished_before : list nat) (i : nat) : M unit :=
  scheduled_seq_group ← index (scheduled_seq_groups so) i;
  if bool_decide (i ∈ finished_before) then mret tt
  else
    g ← load_group (seq_group scheduled_seq_group);
    when (if step_return_finished_only cfg then is_finished g else true)
      (modify (fun e =>
         set_request_outputs
           (request_outputs e ++ [RequestOutputFactory_create g]) e)).

Definition create_ignored_output (h : handle) : M unit :=
  g ← load_group h;
  modify (fun e =>
    set_request_outputs (request_outputs e ++ [RequestOutputFactory_create g]) e).

(** What [_process_model_outputs] does with the entry it popped. *)
Definition process_popped_outputs (is_async : bool) (entry : QueueEntry)
  : M unit :=
  let '(outs, metas, so) := entry in
  assert (Nat.eqb (length metas) (length (scheduled_seq_groups so)))
    "len(seq_group_metadata_list) == len(scheduled_seq_groups)";;
  let outputs_by_sequence_group :=
    if (1 <? length outs)%nat
    then create_output_by_sequence_group outs (length metas)
    else [] in
  finished_before ←
    process_scheduled_groups is_async outs outputs_by_sequence_group so
      0%nat metas [];
  modify (fun e =>
    set_scheduler (map (free_finished_seq_groups (groups e)) (scheduler e)) e);;
  for_each (seq 0 (length metas)) (create_scheduled_output so finished_before);;
  for_each (ignored_seq_groups so) create_ignored_output;;
  when is_async (do_log_stats;; do_tracing so).

Definition _process_model_outputs (is_async : bool) (clear_outputs : bool)
  : M unit :=
  when clear_outputs (modify (set_request_outputs []));;
  q ← gets output_queue;
  match q with
  | [] => mret tt
  | entry :: q' =>
      modify (set_output_queue q');;
      process_popped_outputs is_async entry
  end.

(** ** Eager append for the asynchronous path *)

Definition advance_group
    (x : SequenceGroupMetadata * SequenceGroupOutput * ScheduledSequenceGroup)
  : M unit :=
  let '(seq_group_metadata, sequence_group_outputs, scheduled_seq_group) := x in
  let h := seq_group scheduled_seq_group in
  g ← load_group h;
  if is_finished g then mret tt
  else
    mutate_group h
      (update_num_computed_tokens (md_token_chunk_size seq_group_metadata));;
    when (do_sample seq_group_metadata)
      (assert (Nat.eqb (length (samples sequence_group_outputs)) 1)
         "Async output processor expects a single sample";;
       sample ← index (samples sequence_group_outputs) 0;
       g ← load_group h;
       assert (Nat.eqb (length (seqs g)) 1) "len(seq_group.seqs) == 1";;
       mutate_group h (fun g =>
         set_seqs g
           (alter (append_token_id (output_token sample)
                     (sample_logprobs sample)) 0%nat (seqs g)))).

Definition _advance_to_next_step (output : SamplerOutput)
    (metas : list SequenceGroupMetadata)
    (ssgs : list ScheduledSequenceGroup) : M unit :=
  for_each (zip (zip metas (outputs output)) ssgs) advance_group.

(** ** The step loop *)

(** Modelled from the spec: [SequenceGroupMetadata.state.remaining_steps]
    and [SequenceGroupMetadata.finish_step] ([vllm/sequence.py] is not
    among the sources): the counter of sub-steps a batch still has to run,
    which finishing a step lowers by one. *)
Definition md_remaining_steps (md : SequenceGroupMetadata) : M Z :=
  g ← load_group (md_state md);
  mret (remaining_steps g).

Definition finish_step (md : SequenceGroupMetadata) : M unit :=
  _ ← load_group (md_state md);
  mutate_group (md_state md)
    (fun g => set_remaining_steps g (remaining_steps g - 1));;
  emit (EvFinishStep (md_state md)).

Fixpoint map_m {A B} (f : A -> M B) (l : list A) : M (list B) :=
  match l with
  | [] => mret []
  | x :: l' => y ← f x; ys ← map_m f l'; mret (y :: ys)
  end.

Definition _has_remaining_steps
    (metas : option (list SequenceGroupMetadata)) : M bool :=
  if negb (is_multi_step cfg) then mret false
  else
    match metas with
    | None | Some [] => mret false
    | Some (first :: rest) =>
        ref_remaining_steps ← md_remaining_steps first;
        others ← map_m md_remaining_steps rest;
        if existsb (fun r => negb (r =? ref_remaining_steps)) others then
          raise (AssertionError
            "All running sequence groups should have the same remaining steps.")
        else mret (ref_remaining_steps >? 0)
    end.

Definition set_cached (ve : nat) (c : SchedulerOutputState) : M unit :=
  modify (fun e =>
    set_cached_scheduler_outputs (<[ve := c]> (cached_scheduler_outputs e)) e).

Definition _cache_scheduler_outputs_for_multi_step (ve : nat)
    (metas : option (list SequenceGroupMetadata)) (so : SchedulerOutputs)
    (allow_async : bool) : M unit :=
  cs ← gets cached_scheduler_outputs;
  _ ← index cs ve;
  set_cached ve
    {| seq_group_metadata_list := metas; scheduler_outputs := Some so;
       allow_async_output_proc := allow_async; last_output := None |}.

Definition _update_cached_scheduler_output (ve : nat)
    (output : list SamplerOutput) : M unit :=
  if (pipeline_parallel_size cfg >? 1) && negb (Nat.eqb (length output) 0) then
    match last output with
    | None => mret tt
    | Some last_out =>
        assert (bool_decide (is_Some (sampled_token_ids_cpu last_out)))
          "last_output.sampled_token_ids_cpu is not None";;
        assert (negb (bool_decide (is_Some (sampled_token_ids last_out))))
          "last_output.sampled_token_ids is None";;
        assert (negb (bool_decide (is_Some (sampled_token_probs last_out))))
          "last_output.sampled_token_probs is None";;
        cs ← gets cached_scheduler_outputs;
        co ← index cs ve;
        set_cached ve
          {| seq_group_metadata_list := seq_group_metadata_list co;
             scheduler_outputs := scheduler_outputs co;
             allow_async_output_proc := allow_async_output_proc co;
             last_output := Some last_out |}
    end
  else mret tt.

Definition _get_last_sampled_token_ids (ve : nat) : M (option (list Z)) :=
  cs ← gets cached_scheduler_outputs;
  co ← index cs ve;
  match last_output co with
  | Some cached_last_output =>
      if is_multi_step cfg && (pipeline_parallel_size cfg >? 1)
      then mret (sampled_token_ids_cpu cached_last_output)
      else mret None
  | None => mret None
  end.

(** [self.scheduler[0].schedule()]: the policy runs on the first scheduler
    and on the groups, and the call is recorded. *)
Definition scheduler_schedule
  : M (list SequenceGroupMetadata * SchedulerOutputs * bool) :=
  ss ← gets scheduler;
  s ← index ss 0;
  gs ← gets groups;
  let r := schedule env s gs in
  modify (fun e => set_groups (sr_groups r)
                     (set_scheduler (<[0%nat := sr_scheduler r]> (scheduler e)) e));;
  emit EvSchedule;;
  mret (sr_seq_group_metadata_list r, sr_scheduler_outputs r,
        sr_allow_async_output_proc r).

Definition get_and_reset_finished_requests_ids : M (list string) :=
  ss ← gets scheduler;
  s ← index ss 0;
  modify (fun e =>
    set_scheduler (<[0%nat := reset_finished_requests_ids s]> (scheduler e)) e);;
  mret (_finished_requests_ids s).

(** [self.model_executor.execute_model(...)]: the executor may run the
    callback it was given, then returns or raises. *)
Definition model_executor_execute_model (req : ExecuteModelRequest)
  : M (list SamplerOutput) :=
  gs ← gets groups;
  let o := execute_model env req gs in
  emit (EvExecuteModel req);;
  when (output_proc_callback_fn req && invokes_callback o)
    (_process_model_outputs true true);;
  lift_result (returned o).

Definition stop_remote_worker_execution_loop : M unit :=
  emit EvStopRemoteWorkerLoop.

(** One tick, in the four stretches of [step]: choose the batch (schedule
    or reuse the cached decision), run the model, finish the step and hand
    the outputs on, and drain when nothing is left to do. *)
Definition Decision : Type :=
  list SequenceGroupMetadata * SchedulerOutputs * bool.

Definition step_schedule : M Decision :=
  cs ← gets cached_scheduler_outputs;
  cached_outputs ← index cs 0;
  has_remaining ← _has_remaining_steps (seq_group_metadata_list cached_outputs);
  '(metas_opt, so_opt, allow_async) ←
    (if negb has_remaining then
       '(metas, so, allow_async) ← scheduler_schedule;
       q ← gets output_queue;
       when (negb allow_async && negb (Nat.eqb (length q) 0))
         (_process_model_outputs true true);;
       when (is_multi_step cfg && (num_lookahead_slots so >? 0))
         (_cache_scheduler_outputs_for_multi_step 0 (Some metas) so allow_async);;
       mret (Some metas, Some so, allow_async)
     else
       mret (seq_group_metadata_list cached_outputs,
             scheduler_outputs cached_outputs,
             allow_async_output_proc cached_outputs));
  metas ← match metas_opt with
          | Some l => mret l
          | None => raise (AssertionError "seq_group_metadata_list is not None")
          end;
  so ← match so_opt with
       | Some o => mret o
       | None => raise (AssertionError "scheduler_outputs is not None")
       end;
  when (is_multi_step cfg)
    (assert (negb allow_async) "not allow_async_output_proc");;
  mret (metas, so, allow_async).

Definition step_execute (d : Decision) : M (list SamplerOutput) :=
  let '(metas, so, allow_async) := d in
  if negb (is_empty so) then
    finished_ids ← get_and_reset_finished_requests_ids;
    last_ids ← _get_last_sampled_token_ids 0;
    let execute_model_req :=
      {| req_seq_group_metadata_list := metas;
         req_blocks_to_swap_in := blocks_to_swap_in so;
         req_blocks_to_swap_out := blocks_to_swap_out so;
         req_blocks_to_copy := blocks_to_copy so;
         req_num_lookahead_slots := num_lookahead_slots so;
         req_running_queue_size := running_queue_size so;
         finished_requests_ids := finished_ids;
         last_sampled_token_ids := last_ids;
         output_proc_callback_fn := allow_async |} in
    output ← model_executor_execute_model execute_model_req;
    when (is_multi_step cfg) (_update_cached_scheduler_output 0 output);;
    mret output
  else
    q ← gets output_queue;
    when (negb (Nat.eqb (length q) 0))
      (assert (negb (is_multi_step cfg)) "not is_multi_step";;
       _process_model_outputs true true);;
    mret [].

Definition step_finish (d : Decision) (output : list SamplerOutput) : M unit :=
  let '(metas, so, allow_async) := d in
  when (is_multi_step cfg) (for_each metas finish_step);;
  has_remaining ← _has_remaining_steps (Some metas);
  if negb has_remaining then
    when (is_multi_step cfg) (set_cached 0 new_SchedulerOutputState);;
    modify (fun e => set_output_queue (output_queue e ++ [(output, metas, so)]) e);;
    when (negb (Nat.eqb (length output) 0) && allow_async)
      (assert (Nat.eqb (length output) 1)
         "Multi step decoding does not work with async output processing.";;
       first ← index output 0;
       _advance_to_next_step first metas (scheduled_seq_groups so));;
    when (negb allow_async)
      (_process_model_outputs false true;;
       do_log_stats;;
       do_tracing so)
  else
    modify (set_request_outputs []).

Definition step_drain : M unit :=
  unfinished ← gets has_unfinished_requests;
  when (negb unfinished)
    (q ← gets output_queue;
     when (negb (Nat.eqb (length q) 0))
       (assert (negb (is_multi_step cfg)) "not is_multi_step";;
        _process_model_outputs true false);;
     q ← gets output_queue;
     assert (Nat.eqb (length q) 0) "len(self.output_queue) == 0";;
     stop_remote_worker_execution_loop).

Definition step : M (list RequestOutput) :=
  if pipeline_parallel_size cfg >? 1 then
    raise (NotImplementedError
      "Pipeline parallelism is only supported through AsyncLLMEngine as performance will be severely degraded otherwise.")
  else
    d ← step_schedule;
    output ← step_execute d;
    step_finish d output;;
    step_drain;;
    gets request_outputs.

End Engine.

(** ** A small set of collaborators to run the engine on

    A tokenizer that reads character codes, a scheduling policy that admits
    every waiting group and runs every queued one, an executor that samples
    one fixed token per group and calls the callback it is given, and an
    output processor that appends (unless asynchronous) and stops a
    sequence at [max_tokens]. *)

Module Demo.

Definition the_tokenizer : TokenizerGroup :=
  {| encode := fun _ p _ =>
       map (fun a => Z.of_nat (Ascii.nat_of_ascii a)) (list_ascii_of_string p);
     bos_token_id := fun _ => Some 1;
     tok_eos_token_id := fun _ => Some 2 |}.

Definition start_running (s : Sequence) : Sequence :=
  match status s with
  | WAITING => seq_set_status s RUNNING
  | _ => s
  end.

Definition make_running (num_steps : Z) (g : SequenceGroup) : SequenceGroup :=
  set_remaining_steps (set_seqs g (map start_running (seqs g))) num_steps.

Definition in_prefill (g : SequenceGroup) : bool :=
  forallb (fun s => num_computed_tokens s =? 0) (seqs g).

Definition chunk_of (g : SequenceGroup) : Z :=
  if in_prefill g then
    match seqs g with
    | s :: _ => Z.of_nat (length (prompt_token_ids (inputs s)))
    | [] => 0
    end
  else 1.

Definition single_sample (g : SequenceGroup) : bool :=
  match sampling_params g with
  | Some sp => (n sp =? 1) && (best_of sp =? 1) && negb (use_beam_search sp)
  | None => true
  end.

Definition the_schedule (use_async : bool) (num_steps : Z)
    (s : Scheduler) (gs : list SequenceGroup) : ScheduleResult :=
  let run := running s ++ waiting s in
  let gs' := foldr (fun h acc => alter (make_running num_steps) h acc) gs run in
  let live := omap (fun h => (fun g => (h, g)) <$> gs' !! h) run in
  {| sr_scheduler :=
       {| waiting := []; running := run; swapped := swapped s;
          _finished_requests_ids := _finished_requests_ids s |};
     sr_groups := gs';
     sr_seq_group_metadata_list :=
       map (fun '(h, g) =>
              {| md_request_id := request_id g; md_state := h;
                 is_prompt := in_prefill g; do_sample := true;
                 md_token_chunk_size := chunk_of g |}) live;
     sr_scheduler_outputs :=
       {| scheduled_seq_groups :=
            map (fun '(h, g) =>
                   {| seq_group := h; token_chunk_size := chunk_of g |}) live;
          num_prefill_groups :=
            Z.of_nat (length (filter (fun '(_, g) => in_prefill g = true) live));
          num_batched_tokens :=
            foldr Z.add 0 (map (fun '(_, g) => chunk_of g) live);
          blocks_to_swap_in := []; blocks_to_swap_out := [];
          blocks_to_copy := []; ignored_seq_groups := [];
          num_lookahead_slots := num_steps - 1;
          running_queue_size := Z.of_nat (length run);
          preempted := 0 |};
     sr_allow_async_output_proc :=
       use_async && forallb (fun '(_, g) => single_sample g) live |}.

(** The decision [the_schedule] takes on the first scheduler of an engine. *)
Definition the_decision (use_async : bool) (num_steps : Z) (e : LLMEngine)
  : Decision :=
  match scheduler e with
  | s :: _ =>
      let r := the_schedule use_async num_steps s (groups e) in
      (sr_seq_group_metadata_list r, sr_scheduler_outputs r,
       sr_allow_async_output_proc r)
  | [] =>
      ([], sr_scheduler_outputs
             (the_schedule use_async num_steps
                {| waiting := []; running := []; swapped := [];
                   _finished_requests_ids := [] |} []), false)
  end.

Definition the_execute_model (tok : Z) (req : ExecuteModelRequest)
    (gs : list SequenceGroup) : ExecOutcome :=
  {| invokes_callback := true;
     returned :=
       Ok [ {| outputs :=
                 map (fun md =>
                        {| samples := [ {| parent_seq_id := 0%nat;
                                           output_token := tok;
                                           sample_logprobs := [(tok, 0)] |} ];
                           out_prompt_logprobs := None;
                           out_embeddings := [] |})
                     (req_seq_group_metadata_list req);
               sampled_token_ids := None;
               sampled_token_probs := None;
               sampled_token_ids_cpu := None |} ] |}.


Definition stop_check (limit : option Z) (s : Sequence) : Sequence :=
  match limit with
  | Some m =>
      if seq_is_finished s then s
      else if m <=? Z.of_nat (length (output_token_ids s))
           then seq_set_status s FINISHED_LENGTH_CAPPED
           else s
  | None => s
  end.

Definition append_samples (outs : list SequenceGroupOutput) (s : Sequence)
  : Sequence :=
  foldl (fun acc o =>
           match samples o with
           | x :: _ => append_token_id (output_token x) (sample_logprobs x) acc
           | [] => acc
           end) s outs.

Definition the_process_outputs (g : SequenceGroup)
    (outs : list SequenceGroupOutput) (is_async : bool) : SequenceGroup :=
  let limit := match sampling_params g with
               | Some sp => max_tokens sp
               | None => None
               end in
  set_seqs g
    (map (fun s => stop_check limit
                     (if is_async then s else append_samples outs s))
         (seqs g)).

Definition collaborators (use_async : bool) (num_steps : Z)
    (exec : ExecuteModelRequest -> list SequenceGroup -> ExecOutcome)
  : Collaborators :=
  {| tokenizer := Some the_tokenizer;
     input_processor := fun i => Ok i;
     update_from_generation_config := fun sp _ => sp;
     time_time := 0;
     schedule := the_schedule use_async num_steps;
     execute_model := exec;
     process_prompt_logprob := fun g _ => g;
     process_outputs := the_process_outputs |}.

Definition config (pp : Z) (multi_step finished_only : bool) : EngineConfig :=
  {| pipeline_parallel_size := pp;
     is_multi_step := multi_step;
     lora_config := None;
     max_logprobs := 20;
     is_encoder_decoder_model := false;
     embedding_mode := false;
     hf_config := None;
     cache_block_size := 16;
     step_return_finished_only := finished_only;
     log_stats := false;
     tracer := false |}.

(** The engine as [__init__] leaves it, with [p] virtual engines. *)
Definition new_engine (p : nat) : LLMEngine :=
  {| seq_counter := 0;
     scheduler := replicate p {| waiting := []; running := []; swapped := [];
                                 _finished_requests_ids := [] |};
     groups := [];
     cached_scheduler_outputs := replicate p new_SchedulerOutputState;
     output_queue := [];
     request_outputs := [];
     trace := [] |}.

Definition sampling (limit : Z) : Params :=
  Sampling {| n := 1; best_of := 1; use_beam_search := false;
              logprobs := None; prompt_logprobs := None;
              max_tokens := Some limit; stop_token_ids := [] |}.

(** Run a computation for its final state, whatever its outcome. *)
Definition exec {A} (m : M A) (e : LLMEngine) : LLMEngine := fst (m e).

End Demo.

(** * Choosing the executor: [LLMEngine._get_executor_cls]

    The class method reads the distributed executor backend and the device
    type of the engine configuration.  The backend is a class, a name or
    [None]; of a class only what the method asks matters: whether it is a
    subclass of [ExecutorBase] and whether it uses Ray.  The one effect is
    the call of [initialize_ray_cluster]. *)

Module ExecutorChoice.

Inductive Backend :=
| BackendClass (name : string) (is_executor_base : bool) (uses_ray : bool)
| BackendName (name : string)
| BackendNone.

Inductive ExecutorClass :=
| CustomExecutor (name : string)
| NeuronExecutor
| RayTPUExecutor
| TPUExecutor
| CPUExecutor
| OpenVINOExecutor
| RayXPUExecutor
| XPUExecutor
| RayGPUExecutor
| MultiprocessingGPUExecutor
| GPUExecutor.

Inductive Error :=
| TypeError (msg : string)
| AssertionFailed (msg : string).

Record Outcome := {
  ray_cluster_initialized : bool;
  executor_class : Error + ExecutorClass }.

(** [distributed_executor_backend == name] *)
Definition backend_is (b : Backend) (name : string) : bool :=
  match b with
  | BackendName s => String.eqb s name
  | BackendClass _ _ _ | BackendNone => false
  end.

Definition _get_executor_cls (distributed_executor_backend : Backend)
    (device_type : string) (VLLM_USE_RAY_SPMD_WORKER : bool) : Outcome :=
  match distributed_executor_backend with
  | BackendClass name is_executor_base uses_ray =>
      if negb is_executor_base then
        {| ray_cluster_initialized := false;
           executor_class :=
             inl (TypeError
               "distributed_executor_backend must be a subclass of ExecutorBase.") |}
      else
        {| ray_cluster_initialized := uses_ray;
           executor_class := inr (CustomExecutor name) |}
  | _ =>
      if String.eqb device_type "neuron" then
        {| ray_cluster_initialized := false; executor_class := inr NeuronExecutor |}
      else if String.eqb device_type "tpu" then
        if backend_is distributed_executor_backend "ray" then
          {| ray_cluster_initialized := true;
             executor_class := inr RayTPUExecutor |}
        else
          match distributed_executor_backend with
          | BackendNone =>
              {| ray_cluster_initialized := false;
                 executor_class := inr TPUExecutor |}
          | _ =>
              {| ray_cluster_initialized := false;
                 executor_class :=
                   inl (AssertionFailed "distributed_executor_backend is None") |}
          end
      else if String.eqb device_type "cpu" then
        {| ray_cluster_initialized := false; executor_class := inr CPUExecutor |}
      else if String.eqb device_type "openvino" then
        {| ray_cluster_initialized := false;
           executor_class := inr OpenVINOExecutor |}
      else if String.eqb device_type "xpu" then
        if backend_is distributed_executor_backend "ray" then
          {| ray_cluster_initialized := true;
             executor_class := inr RayXPUExecutor |}
        else
          {| ray_cluster_initialized := false;
             executor_class := inr XPUExecutor |}
      else if backend_is distributed_executor_backend "ray" then
        {| ray_cluster_initialized := true; executor_class := inr RayGPUExecutor |}
      else if backend_is distributed_executor_backend "mp" then
        if VLLM_USE_RAY_SPMD_WORKER then
          {| ray_cluster_initialized := false;
             executor_class :=
               inl (AssertionFailed
                 "multiprocessing distributed executor backend does not support VLLM_USE_RAY_SPMD_WORKER=1") |}
        else
          {| ray_cluster_initialized := false;
             executor_class := inr MultiprocessingGPUExecutor |}
      else
        {| ray_cluster_initialized := false; executor_class := inr GPUExecutor |}
  end.

(** The executors that run on a Ray cluster. *)
Definition runs_on_ray (b : Backend) (c : ExecutorClass) : bool :=
  match c with
  | RayTPUExecutor | RayXPUExecutor | RayGPUExecutor => true
  | CustomExecutor _ =>
      match b with
      | BackendClass _ _ uses_ray => uses_ray
      | _ => false
      end
  | _ => false
  end.



End ExecutorChoice.

(** * Validating request outputs: [validate_output], [validate_outputs]
      and [enable_output_validation]

    The three class methods share the class attribute
    [DO_VALIDATE_OUTPUT], which is the state here.  What an object is and
    what [isinstance] answers are left open. *)

Module OutputValidation.

Section Validation.

Variables Object OutputType : Type.
Variable isinstance : Object -> OutputType -> bool.

Inductive Outcome (A : Type) :=
| Returns (a : A)
| TypeError (found : Object) (expected : OutputType).
Arguments Returns {A} a.
Arguments TypeError {A} found expected.

(** A computation over [cls.DO_VALIDATE_OUTPUT]. *)
Definition V (A : Type) : Type := bool -> bool * Outcome A.

Definition and_then {A B} (m : V A) (k : A -> V B) : V B :=
  fun flag =>
    match m flag with
    | (flag', Returns a) => k a flag'
    | (flag', TypeError o t) => (flag', TypeError o t)
    end.

(** [typing.TYPE_CHECKING] is [False] when the program runs. *)
Definition TYPE_CHECKING : bool := false.

Definition validate_output (output : Object) (output_type : OutputType)
  : V Object :=
  fun DO_VALIDATE_OUTPUT =>
    let do_validate := DO_VALIDATE_OUTPUT in
    if (TYPE_CHECKING || do_validate) && negb (isinstance output output_type)
    then (DO_VALIDATE_OUTPUT, TypeError output output_type)
    else (DO_VALIDATE_OUTPUT, Returns output).

(** The loop of [validate_outputs], with [outputs_] as accumulator. *)
Fixpoint check_each (outputs : list Object) (output_type : OutputType)
    (outputs_ : list Object) : Outcome (list Object) :=
  match outputs with
  | [] => Returns outputs_
  | output :: rest =>
      if negb (isinstance output output_type)
      then TypeError output output_type
      else check_each rest output_type (outputs_ ++ [output])
  end.

Definition validate_outputs (outputs : list Object) (output_type : OutputType)
  : V (list Object) :=
  fun DO_VALIDATE_OUTPUT =>
    let do_validate := DO_VALIDATE_OUTPUT in
    if TYPE_CHECKING || do_validate
    then (DO_VALIDATE_OUTPUT, check_each outputs output_type [])
    else (DO_VALIDATE_OUTPUT, Returns outputs).

(** [with LLMEngine.enable_output_validation(): body].  The generator sets
    the flag, yields to the body and clears the flag; an exception of the
    body is raised at the [yield] and leaves the generator there. *)
Definition enable_output_validation {A} (body : V A) : V A :=
  fun _ =>
    match body true with
    | (_, Returns a) => (false, Returns a)
    | (flag, TypeError o t) => (flag, TypeError o t)
    end.

End Validation.

Arguments Returns {Object OutputType A} a.
Arguments TypeError {Object OutputType A} found expected.

End OutputValidation.

(** * The statistics loggers: [add_logger] and [remove_logger]

    [self.stat_loggers] is a dict from names to loggers, in insertion
    order; the attribute exists only on an engine created with
    [log_stats]. *)

Module StatLoggers.

Section Loggers.

Variable StatLogger : Type.

Inductive Error :=
| AttributeError
| KeyError (msg : string).

Definition Dict : Type := list (string * StatLogger).

(** [logger_name in self.stat_loggers] *)
Definition contains (logger_name : string) (d : Dict) : bool :=
  existsb (fun kv => String.eqb (fst kv) logger_name) d.

Definition add_logger (logger_name : string) (logger : StatLogger)
    (stat_loggers : option Dict) : option Dict * (Error + unit) :=
  match stat_loggers with
  | None => (None, inl AttributeError)
  | Some d =>
      if contains logger_name d
      then (Some d, inl (KeyError "Logger with name already exists."))
      else (Some (d ++ [(logger_name, logger)]), inr tt)
  end.

Definition remove_logger (logger_name : string)
    (stat_loggers : option Dict) : option Dict * (Error + unit) :=
  match stat_loggers with
  | None => (None, inl AttributeError)
  | Some d =>
      if negb (contains logger_name d)
      then (Some d, inl (KeyError "Logger with name does not exist."))
      else (Some (List.filter
                    (fun kv => negb (String.eqb (fst kv) logger_name)) d),
            inr tt)
  end.

End Loggers.

Arguments AttributeError : clear implicits.

End StatLoggers.

(** * The attention heads of DBRX: [DbrxAttention.__init__]
      ([vllm/model_executor/models/dbrx.py])

    The integer attributes of the attention layer, in the order the
    constructor computes them.  The layers it builds on the way (the QKV
    and output projections, the rotary embedding) are a parameter that may
    fail; [//] and [%] raise [ZeroDivisionError] on a zero divisor. *)

Module Dbrx.

Inductive Error :=
| ZeroDivisionError
| AssertionFailed
| LayerError (msg : string).

Definition floordiv (a b : Z) : Error + Z :=
  if b =? 0 then inl ZeroDivisionError else inr (a / b).

Definition modulo (a b : Z) : Error + Z :=
  if b =? 0 then inl ZeroDivisionError else inr (a mod b).

Definition check (b : bool) : Error + unit :=
  if b then inr tt else inl AssertionFailed.

Definition bind {A B} (m : Error + A) (k : A -> Error + B) : Error + B :=
  match m with
  | inl e => inl e
  | inr a => k a
  end.

Record AttentionShape := {
  head_dim : Z;
  num_heads : Z;
  num_kv_heads : Z;
  q_size : Z;
  kv_size : Z }.

Section Attention.

(** [QKVParallelLinear(d_model, head_dim, total_num_heads,
    total_num_kv_heads)], [RowParallelLinear(d_model, d_model)] and
    [get_rope(head_dim, ...)]. *)
Variable build_layers : Z -> Z -> Z -> Z -> Error + unit.

Definition DbrxAttention_init (d_model total_num_heads total_num_kv_heads
    tp_world_size : Z) : Error + AttentionShape :=
  bind (floordiv d_model total_num_heads) (fun head_dim =>
  bind (build_layers d_model head_dim total_num_heads total_num_kv_heads)
    (fun _ =>
  bind (modulo total_num_heads tp_world_size) (fun r =>
  bind (check (r =? 0)) (fun _ =>
  bind (floordiv total_num_heads tp_world_size) (fun num_heads =>
  bind (if total_num_kv_heads >=? tp_world_size then
          bind (modulo total_num_kv_heads tp_world_size) (fun r =>
                check (r =? 0))
        else
          bind (modulo tp_world_size total_num_kv_heads) (fun r =>
                check (r =? 0))) (fun _ =>
  bind (floordiv total_num_kv_heads tp_world_size) (fun q =>
  let num_kv_heads := Z.max 1 q in
  inr {| head_dim := head_dim;
         num_heads := num_heads;
         num_kv_heads := num_kv_heads;
         q_size := num_heads * head_dim;
         kv_size := num_kv_heads * head_dim |}))))))).

End Attention.

End Dbrx.

(** ** Vocabulary of the statements *)

(** A relation between the state before and after that a computation
    keeps whatever its outcome. *)
Definition preserves {A} (R : relation LLMEngine) (m : M A) : Prop :=
  forall e e' r, m e = (e', r) -> R e e'.

Definition unchanged : relation LLMEngine := fun e e' => e' = e.

Definition admissible (cfg : EngineConfig) (params : Params) : bool :=
  match params with
  | Sampling sp => negb (exceeds_max_logprobs cfg sp)
  | Pooling _ => true
  | OtherParams => false
  end.

Definition admitted (k : nat) (g : SequenceGroup) (e : LLMEngine) : LLMEngine :=
  set_scheduler (alter (add_seq_group (length (groups e))) k (scheduler e))
    (set_groups (groups e ++ [g]) (set_seq_counter (S (seq_counter e)) e)).


(** The prompt that validation looks at is missing or has no token. *)
Definition prompt_is_empty (cfg : EngineConfig) (pi : LLMInputs) : Prop :=
  checked_prompt cfg pi = None \/ checked_prompt cfg pi = Some [].


(** Observations of the engine that a computation may leave alone. *)
Definition same {B} (obs : LLMEngine -> B) : relation LLMEngine :=
  fun e e' => obs e' = obs e.

Definition per_group {B} (F : SequenceGroup -> B) (e : LLMEngine) : list B :=
  map F (groups e).

Definition events (P : Event -> bool) (e : LLMEngine) : list Event :=
  List.filter P (trace e).


Definition is_execute (ev : Event) : bool :=
  match ev with EvExecuteModel _ => true | _ => false end.

Definition is_finish_step (ev : Event) : bool :=
  match ev with EvFinishStep _ => true | _ => false end.

(** The tokens generated so far, child by child. *)
Definition group_tokens (g : SequenceGroup) : list (list Z) :=
  map output_token_ids (seqs g).



(** Only the group at address [h] may have changed. *)
Definition only_slot (h : nat) : relation LLMEngine :=
  fun e e' => forall h', h' <> h -> groups e' !! h' = groups e !! h'.

(** Every group that was finished is still what it was. *)
Definition finished_kept : relation LLMEngine :=
  fun e e' => forall h g,
    groups e !! h = Some g -> is_finished g = true -> groups e' !! h = Some g.


(** The output queue only lost entries from its head. *)
Definition queue_shrinks : relation LLMEngine :=
  fun e e' => suffix (output_queue e') (output_queue e).

(** What "no sequence state is mutated for that step" lists: no token was
    appended to any sequence, no entry was pushed onto the output queue,
    and [finish_step] was not reached for any group. *)
Definition step_not_taken (e e' : LLMEngine) : Prop :=
  per_group group_tokens e' = per_group group_tokens e
  /\ queue_shrinks e e'
  /\ events is_finish_step e' = events is_finish_step e.



(** What it reports for an ignored group. *)
Definition ignored_output (gs' : list SequenceGroup) (h : handle)
  : option RequestOutput :=
  RequestOutputFactory_create <$> gs' !! h.



(** The sub-steps a batch still has to run: the counter of its first
    group (the groups of a batch carry the same one); an empty batch has
    none. *)
Definition batch_remaining (gs : list SequenceGroup)
    (metas : list SequenceGroupMetadata) : Z :=
  match metas with
  | [] => 0
  | first :: _ => from_option remaining_steps 0 (gs !! md_state first)
  end.



(** ** Engines to evaluate on *)

Module Scenario.

Definition hi : PromptInputs := Singleton (StrPrompt "hi").

(** A synchronous single-step engine and an asynchronous one; both return
    only finished requests from [step]. *)
Definition cfg : EngineConfig := Demo.config 1 false true.
Definition env_sync : Collaborators :=
  Demo.collaborators false 1 (Demo.the_execute_model 7).
Definition env_async : Collaborators :=
  Demo.collaborators true 1 (Demo.the_execute_model 7).


Definition add (rid : string) (limit : Z) : M unit :=
  add_request cfg env_async rid hi (Demo.sampling limit) None None None None.

(** One request, ["A"], admitted and still waiting. *)
Definition one_waiting : LLMEngine := Demo.exec (add "A" 1) (Demo.new_engine 1).

(** Two virtual engines, the first already holding a request. *)
Definition two_engines : LLMEngine := Demo.exec (add "A" 1) (Demo.new_engine 2).

(** The first batch of [one_waiting]: the prefill of ["A"], and what the
    executor samples for it. *)
Definition batch_metas : list SequenceGroupMetadata :=
  [ {| md_request_id := "A"; md_state := 0%nat; is_prompt := true;
       do_sample := true; md_token_chunk_size := 2 |} ].

Definition batch_groups : list ScheduledSequenceGroup :=
  [ {| seq_group := 0%nat; token_chunk_size := 2 |} ].

Definition sampled : SamplerOutput :=
  {| outputs := [ {| samples := [ {| parent_seq_id := 0%nat; output_token := 7;
                                     sample_logprobs := [(7, 0)] |} ];
                     out_prompt_logprobs := None; out_embeddings := [] |} ];
     sampled_token_ids := None; sampled_token_probs := None;
     sampled_token_ids_cpu := None |}.




(** ["A"] scheduled, and the engine after its first tick. *)
Definition scheduled_once : LLMEngine := Demo.exec (step_schedule cfg env_async) one_waiting.

(** The decision of that first tick, and the engine with the batch
    executed and queued for output processing. *)
Definition first_decision : SchedulerOutputs :=
  snd (fst (Demo.the_decision true 1 one_waiting)).

Definition queued_once : LLMEngine :=
  set_output_queue [([sampled], batch_metas, first_decision)] scheduled_once.

(** Two requests, ["A"] for one token and ["B"] for three, and the
    asynchronous engine after two ticks: ["A"] has finished, and the
    decision of the second tick, which scheduled both, is still queued. *)
Definition two_waiting : LLMEngine := Demo.exec (add "B" 3) one_waiting.

Definition after_two_ticks : LLMEngine :=
  Demo.exec (step cfg env_async;; step cfg env_async) two_waiting.

(** The asynchronous engine that has served ["A"]: the request finished in
    the second tick, which returned its output; and the decision the
    scheduler takes then. *)
Definition served : LLMEngine :=
  Demo.exec (step cfg env_async;; step cfg env_async) one_waiting.

Definition idle_decision : SchedulerOutputs :=
  snd (fst (Demo.the_decision true 1 served)).

(** A multi-step engine running two sub-steps per decision: ["A"] asked
    for two tokens, after the first tick (one sub-step left, the decision
    cached) and after the second. *)
Definition cfg_multi : EngineConfig := Demo.config 1 true false.
Definition env_multi : Collaborators :=
  Demo.collaborators false 2 (Demo.the_execute_model 7).

Definition multi_once : LLMEngine :=
  Demo.exec (step cfg_multi env_multi)
    (Demo.exec (add_request cfg_multi env_multi "A" hi (Demo.sampling 2)
                  None None None None)
       (Demo.new_engine 1)).



End Scenario.

(** ** Vocabulary of the further properties *)

(** The prompt that input processing reads first: the prompt itself, or
    the encoder prompt of an explicit encoder/decoder prompt. *)
Definition leading_prompt (i : PromptInputs) : SingletonPromptInputs :=
  match i with
  | Singleton s => s
  | ExplicitEncoderDecoder enc _ => enc
  end.

(** A prompt given as text has to be tokenized. *)
Definition is_text (s : SingletonPromptInputs) : bool :=
  match s with
  | TokensPrompt _ _ => false
  | StrPrompt _ | TextPrompt _ _ => true
  end.

(** The token ids of a prompt, as the tokenizer [t] reads it. *)
Definition prompt_ids (t : TokenizerGroup) (rid : string)
    (s : SingletonPromptInputs) : list Z :=
  match s with
  | TokensPrompt ids _ => ids
  | StrPrompt p | TextPrompt p _ => encode t rid p None
  end.

Definition prompt_text (s : SingletonPromptInputs) : option string :=
  match s with
  | TokensPrompt _ _ => None
  | StrPrompt p | TextPrompt p _ => Some p
  end.

Definition prompt_multi_modal (s : SingletonPromptInputs)
  : option MultiModalDataDict :=
  match s with
  | StrPrompt _ => None
  | TokensPrompt _ mm | TextPrompt _ mm => mm
  end.

(** Only an encoder prompt is given: as a single prompt, or as an explicit
    encoder/decoder prompt whose decoder prompt is [None]. *)
Definition encoder_only (i : PromptInputs) : bool :=
  match i with
  | Singleton _ | ExplicitEncoderDecoder _ None => true
  | ExplicitEncoderDecoder _ (Some _) => false
  end.

(** Some part of the prompt carries multi-modal data. *)
Definition carries_multi_modal (i : PromptInputs) : bool :=
  match i with
  | Singleton s => bool_decide (is_Some (prompt_multi_modal s))
  | ExplicitEncoderDecoder enc dec =>
      bool_decide (is_Some (prompt_multi_modal enc))
      || match dec with
         | Some d => bool_decide (is_Some (prompt_multi_modal d))
         | None => false
         end
  end.

(** The virtual tokens a prompt adapter puts in front of a prompt. *)
Definition virtual_tokens (pa : option PromptAdapterRequest) : list Z :=
  match pa with
  | Some r => replicate (Z.to_nat (prompt_adapter_num_virtual_tokens r)) 0
  | None => []
  end.

(** The sequence [_add_processed_request] creates under sequence id [sid]:
    the decoder sequence, or the encoder sequence of the same request. *)
Definition request_sequence (cfg : EngineConfig) (env : Collaborators)
    (sid : nat) (pi : LLMInputs) (lora : option LoRARequest)
    (pa : option PromptAdapterRequest) (from_decoder : bool) : Sequence :=
  new_Sequence sid pi (cache_block_size cfg) (_get_eos_token_id env lora)
    lora pa from_decoder.

(** Every sequence id in use lies below the sequence counter. *)
Definition seq_ids_below (e : LLMEngine) : Prop :=
  forall g s,
    g ∈ groups e -> s ∈ seqs g \/ encoder_seq g = Some s ->
    (seq_id s < seq_counter e)%nat.

(** What one call of output processing reports for a scheduled group when
    intermediate outputs are returned too: the group as it is after the
    call, unless it was already finished when the call began. *)
Definition reported_this_call (gs gs' : list SequenceGroup)
    (ssg : ScheduledSequenceGroup) : option RequestOutput :=
  g' ← gs' !! seq_group ssg;
  if group_finished_at gs (seq_group ssg) then None
  else Some (RequestOutputFactory_create g').

(** Only the groups at the addresses [hs] may have changed, and no group
    was added or removed. *)
Definition only_slots (hs : list nat) : relation LLMEngine :=
  fun e e' =>
    length (groups e') = length (groups e)
    /\ forall h, h ∉ hs -> groups e' !! h = groups e !! h.

(** The request the engine hands to the executor for a decision. *)
Definition request_of (metas : list SequenceGroupMetadata)
    (so : SchedulerOutputs) (allow_async : bool) (finished_ids : list string)
    (last_ids : option (list Z)) : ExecuteModelRequest :=
  {| req_seq_group_metadata_list := metas;
     req_blocks_to_swap_in := blocks_to_swap_in so;
     req_blocks_to_swap_out := blocks_to_swap_out so;
     req_blocks_to_copy := blocks_to_copy so;
     req_num_lookahead_slots := num_lookahead_slots so;
     req_running_queue_size := running_queue_size so;
     finished_requests_ids := finished_ids;
     last_sampled_token_ids := last_ids;
     output_proc_callback_fn := allow_async |}.

(** The sub-steps the group of a metadata entry still has to run. *)
Definition steps_left (gs : list SequenceGroup) (md : SequenceGroupMetadata)
  : Z :=
  from_option remaining_steps 0 (gs !! md_state md).


(** The outputs that processing hands on for the group at position [i] of
    a batch of [n]: its output of every step when the entry holds several
    steps, and its one output otherwise. *)
Definition outputs_of_position (outs : list SamplerOutput) (n i : nat)
  : option (list SequenceGroupOutput) :=
  if (1 <? length outs)%nat then create_output_by_sequence_group outs n !! i
  else
    first ← outs !! 0%nat;
    o ← outputs first !! i;
    Some [o].

(** ** Further engines to evaluate on *)

Module Examples.

(** An encoder-decoder model whose configuration may name a decoder start
    token. *)
Definition cfg_encdec (start : option Z) : EngineConfig :=
  {| pipeline_parallel_size := 1;
     is_multi_step := false;
     lora_config := None;
     max_logprobs := 20;
     is_encoder_decoder_model := true;
     embedding_mode := false;
     hf_config := Some {| hf_decoder_start_token_id := start |};
     cache_block_size := 16;
     step_return_finished_only := false;
     log_stats := false;
     tracer := false |}.

(** The synchronous collaborators, and the same without a tokenizer. *)
Definition env : Collaborators := Scenario.env_sync.

Definition env_no_tokenizer : Collaborators :=
  {| tokenizer := None;
     input_processor := input_processor env;
     update_from_generation_config := update_from_generation_config env;
     time_time := time_time env;
     schedule := schedule env;
     execute_model := execute_model env;
     process_prompt_logprob := process_prompt_logprob env;
     process_outputs := process_outputs env |}.

(** A decoder-only engine that also returns intermediate outputs. *)
Definition cfg_all : EngineConfig := Demo.config 1 false false.

(** An engine whose queued entry names one group in its metadata list and
    none among its scheduled groups. *)
Definition mismatched : LLMEngine :=
  set_output_queue [([], Scenario.batch_metas, Scenario.idle_decision)]
    (Demo.new_engine 1).

(** The multi-step engine of [Scenario] before its first tick. *)
Definition multi_waiting : LLMEngine :=
  Demo.exec (add_request Scenario.cfg_multi Scenario.env_multi "A" Scenario.hi
               (Demo.sampling 2) None None None None)
    (Demo.new_engine 1).

(** The synchronous engine after the tick that serves ["A"]. *)
Definition served_sync : LLMEngine :=
  Demo.exec (step Scenario.cfg Scenario.env_sync) Scenario.one_waiting.


(** A batch of two groups for which the sampler returned one output. *)
Definition two_scheduled : list ScheduledSequenceGroup :=
  [ {| seq_group := 0%nat; token_chunk_size := 2 |};
    {| seq_group := 1%nat; token_chunk_size := 2 |} ].

Definition two_metas : list SequenceGroupMetadata :=
  [ {| md_request_id := "A"; md_state := 0%nat; is_prompt := true;
       do_sample := true; md_token_chunk_size := 2 |};
    {| md_request_id := "B"; md_state := 1%nat; is_prompt := true;
       do_sample := true; md_token_chunk_size := 2 |} ].

(** An embedding model, and the first batch of [Scenario.one_waiting]
    queued with the embeddings returned for it. *)
Definition cfg_embedding : EngineConfig :=
  {| pipeline_parallel_size := 1;
     is_multi_step := false;
     lora_config := None;
     max_logprobs := 20;
     is_encoder_decoder_model := false;
     embedding_mode := true;
     hf_config := None;
     cache_block_size := 16;
     step_return_finished_only := false;
     log_stats := false;
     tracer := false |}.

Definition embedded : SamplerOutput :=
  {| outputs := [ {| samples := []; out_prompt_logprobs := None;
                     out_embeddings := [3; 4] |} ];
     sampled_token_ids := None; sampled_token_probs := None;
     sampled_token_ids_cpu := None |}.

Definition embedding_queued : LLMEngine :=
  set_output_queue [([embedded], Scenario.batch_metas, Scenario.first_decision)]
    Scenario.scheduled_once.

End Examples.

(** ** The monad, step by step *)

Lemma bind_run {A B} (m : M A) (f : A -> M B) e :
  (m ≫= f) e = match m e with
               | (e1, Ok a) => f a e1
               | (e1, Raise x) => (e1, Raise x)
               end.
Proof. reflexivity. Qed.

Lemma bind_ok {A B} (m : M A) (f : A -> M B) e e1 a :
  m e = (e1, Ok a) -> (m ≫= f) e = f a e1.
Proof. intros H. rewrite bind_run, H. reflexivity. Qed.

Lemma bind_raise {A B} (m : M A) (f : A -> M B) e e1 x :
  m e = (e1, Raise x) -> (m ≫= f) e = (e1, Raise x).
Proof. intros H. rewrite bind_run, H. reflexivity. Qed.

Lemma bind_inv {A B} (m : M A) (f : A -> M B) e e' r :
  (m ≫= f) e = (e', r) ->
  (exists e1 a, m e = (e1, Ok a) /\ f a e1 = (e', r))
  \/ (exists x, m e = (e', Raise x) /\ r = Raise x).
Proof.
  rewrite bind_run. destruct (m e) as [e1 [a|x]]; intros H.
  - left. eauto.
  - right. inversion H; subst. eauto.
Qed.

Lemma bind_inv_ok {A B} (m : M A) (f : A -> M B) e e' b :
  (m ≫= f) e = (e', Ok b) ->
  exists e1 a, m e = (e1, Ok a) /\ f a e1 = (e', Ok b).
Proof.
  intros H. apply bind_inv in H as [H|(x & _ & H)]; [done|discriminate].
Qed.


Section Preserves.
Context (R : relation LLMEngine) `{!PreOrder R}.

Lemma preserves_ret {A} (a : A) : preserves R (mret a).
Proof. intros e e' r H. inversion H; subst. reflexivity. Qed.

Lemma preserves_raise {A} x : preserves R (@raise A x).
Proof. intros e e' r H. inversion H; subst. reflexivity. Qed.

Lemma preserves_gets {A} (f : LLMEngine -> A) : preserves R (gets f).
Proof. intros e e' r H. inversion H; subst. reflexivity. Qed.

Lemma preserves_lift {A} (x : result A) : preserves R (lift_result x).
Proof. intros e e' r H. inversion H; subst. reflexivity. Qed.

Lemma preserves_modify f : (forall e, R e (f e)) -> preserves R (modify f).
Proof. intros Hf e e' r H. inversion H; subst. apply Hf. Qed.

Lemma preserves_bind {A B} (m : M A) (f : A -> M B) :
  preserves R m -> (forall a, preserves R (f a)) -> preserves R (m ≫= f).
Proof.
  intros Hm Hf e e' r H.
  apply bind_inv in H as [(e1 & a & H1 & H2)|(x & H1 & _)].
  - etransitivity; [eapply Hm, H1 | eapply Hf, H2].
  - eapply Hm, H1.
Qed.

Lemma preserves_bind_ret {A B} (a : A) (f : A -> M B) :
  preserves R (f a) -> preserves R (mret a ≫= f).
Proof. intros Hf e e' r H. exact (Hf e e' r H). Qed.

Lemma preserves_assert b msg : preserves R (assert b msg).
Proof. destruct b; [apply preserves_ret | apply preserves_raise]. Qed.

Lemma preserves_when b m : preserves R m -> preserves R (when b m).
Proof. destruct b; [done | intros; apply preserves_ret]. Qed.

Lemma preserves_index {A} (l : list A) i : preserves R (index l i).
Proof. unfold index. destruct (l !! i); [apply preserves_ret | apply preserves_raise]. Qed.

Lemma preserves_load h : preserves R (load_group h).
Proof.
  unfold load_group. apply preserves_bind; [apply preserves_gets|].
  intros [g|]; [apply preserves_ret | apply preserves_raise].
Qed.

Lemma preserves_for_each {A} (l : list A) body :
  (forall x, preserves R (body x)) -> preserves R (for_each l body).
Proof.
  intros Hb. induction l as [|x l IH]; simpl.
  - apply preserves_ret.
  - apply preserves_bind; [apply Hb | intros _; apply IH].
Qed.

Lemma preserves_map_m {A B} (f : A -> M B) l :
  (forall x, preserves R (f x)) -> preserves R (map_m f l).
Proof.
  intros Hf. induction l as [|x l IH]; simpl.
  - apply preserves_ret.
  - apply preserves_bind; [apply Hf | intros y].
    apply preserves_bind; [apply IH | intros ys; apply preserves_ret].
Qed.

End Preserves.


(** ** Facts about [min] and [index] *)

Lemma list_min_None l : list_min l = None -> l = [].
Proof. destruct l as [|x l]; [done|]. simpl. destruct (list_min l); discriminate. Qed.

Lemma list_min_In l m : list_min l = Some m -> In m l.
Proof.
  revert m. induction l as [|x l IH]; intros m; simpl; [discriminate|].
  destruct (list_min l) as [m'|] eqn:E; intros [= <-].
  - destruct (Nat.min_spec x m') as [[_ ->]|[_ ->]]; [by left | right; by apply IH].
  - by left.
Qed.

Lemma list_min_le l m x : list_min l = Some m -> In x l -> (m <= x)%nat.
Proof.
  revert m. induction l as [|y l IH]; intros m; simpl; [discriminate|].
  destruct (list_min l) as [m'|] eqn:E; intros [= <-] [->|Hx].
  - lia.
  - specialize (IH m' eq_refl Hx). lia.
  - lia.
  - apply list_min_None in E. subst. destruct Hx.
Qed.

Lemma index_of_lookup m l k : index_of m l = Some k -> l !! k = Some m.
Proof.
  revert k. induction l as [|x l IH]; intros k; simpl; [discriminate|].
  destruct (Nat.eqb_spec x m) as [->|Hne].
  - intros [= <-]. done.
  - destruct (index_of m l) as [k'|]; simpl; intros [= <-]. simpl. by apply IH.
Qed.

Lemma index_of_In m l : In m l -> exists k, index_of m l = Some k.
Proof.
  induction l as [|x l IH]; simpl; [done|].
  destruct (Nat.eqb_spec x m) as [->|Hne]; [by eexists|].
  intros [?|Hin]; [done|]. destruct (IH Hin) as [k ->]. by eexists.
Qed.

Lemma argmin_exists l : l <> [] ->
  exists m k, list_min l = Some m /\ index_of m l = Some k.
Proof.
  intros Hl. destruct (list_min l) as [m|] eqn:E.
  - destruct (index_of_In m l (list_min_In _ _ E)) as [k Hk]. eauto.
  - by apply list_min_None in E.
Qed.

Ltac run_monad :=
  cbv [mbind M_bind mret M_ret gets modify raise assert when lift_result
       alloc_group emit index load_group mutate_group];
  cbn.



Lemma _add_processed_request_admits cfg env rid pi params arrival lora pa th e t ts :
  checked_prompt cfg pi = Some (t :: ts) ->
  admissible cfg params = true ->
  scheduler e <> [] ->
  exists g k s,
    _add_processed_request cfg env rid pi params arrival lora pa th e
      = (admitted k g e, Ok tt)
    /\ request_id g = rid /\ is_finished g = false
    /\ scheduler e !! k = Some s
    /\ forall j s', scheduler e !! j = Some s' ->
         (get_num_unfinished_seq_groups s <= get_num_unfinished_seq_groups s')%nat.
Proof.
  intros Hp Ha Hs.
  destruct (argmin_exists (map get_num_unfinished_seq_groups (scheduler e)))
    as (m & k & Hm & Hk).
  { destruct (scheduler e); [done|discriminate]. }
  pose proof (index_of_lookup _ _ _ Hk) as Hlk.
  rewrite list_lookup_fmap in Hlk.
  destruct (scheduler e !! k) as [s|] eqn:Es; [|discriminate].
  injection Hlk as Hms.
  assert (Hmin : forall j s', scheduler e !! j = Some s' ->
            (get_num_unfinished_seq_groups s <= get_num_unfinished_seq_groups s')%nat).
  { intros j s' Hj. rewrite Hms. eapply list_min_le; [exact Hm|].
    apply in_map. apply list_elem_of_In. eapply list_elem_of_lookup_2, Hj. }
  unfold _add_processed_request, _validate_model_inputs. rewrite Hp.
  destruct params as [sp|pp|]; simpl in Ha; [| |discriminate].
  - apply negb_true_iff in Ha.
    eexists _, k, s. split; [|split; [|split; [|split]]]; [..|exact Es|exact Hmin].
    + unfold _create_sequence_group_with_sampling. rewrite Ha.
      run_monad. rewrite Hm, Hk. reflexivity.
    + reflexivity.
    + reflexivity.
  - eexists _, k, s. split; [|split; [|split; [|split]]]; [..|exact Es|exact Hmin].
    + run_monad. rewrite Hm, Hk. reflexivity.
    + reflexivity.
    + reflexivity.
Qed.

(** ** Frames *)

#[global] Instance same_preorder {B} (obs : LLMEngine -> B) : PreOrder (same obs).
Proof.
  split; [done|]. intros x y z H1 H2. unfold same in *. congruence.
Qed.

#[global] Instance queue_shrinks_preorder : PreOrder queue_shrinks.
Proof.
  split; [intros x; unfold queue_shrinks; reflexivity|].
  intros x y z H1 H2. unfold queue_shrinks in *. by etransitivity.
Qed.

Lemma map_alter_invariant {A B} (F : A -> B) (f : A -> A) (h : nat) (l : list A) :
  (forall a, F (f a) = F a) -> map F (alter f h l) = map F l.
Proof.
  intros Hf. apply list_eq. intros i. rewrite !list_lookup_fmap.
  destruct (decide (i = h)) as [->|Hne].
  - rewrite list_lookup_alter_eq. destruct (_ !! _) as [a|]; simpl; [|done].
    by rewrite Hf.
  - by rewrite list_lookup_alter_ne.
Qed.

Lemma preserves_mutate_per_group {B} (F : SequenceGroup -> B) h f :
  (forall g, F (f g) = F g) ->
  preserves (same (per_group F)) (mutate_group h f).
Proof.
  intros Hf e e' r H. inversion H; subst. unfold same, per_group.
  by apply map_alter_invariant.
Qed.

Lemma preserves_mutate_other {B} (obs : LLMEngine -> B) h f :
  (forall e gs, obs (set_groups gs e) = obs e) ->
  preserves (same obs) (mutate_group h f).
Proof. intros Ho e e' r H. inversion H; subst. apply Ho. Qed.

Lemma preserves_mutate_queue h f : preserves queue_shrinks (mutate_group h f).
Proof. intros e e' r H. inversion H; subst. unfold queue_shrinks. reflexivity. Qed.

#[global] Instance only_slot_preorder h : PreOrder (only_slot h).
Proof.
  split; [intros x h' _; reflexivity|].
  intros x y z H1 H2 h' Hne. rewrite H2, H1; done.
Qed.

#[global] Instance finished_kept_preorder : PreOrder finished_kept.
Proof.
  split; [intros x h g Hg _; exact Hg|].
  intros x y z H1 H2 h g Hg Hf. eauto.
Qed.

Lemma preserves_mutate_only_slot h f : preserves (only_slot h) (mutate_group h f).
Proof.
  intros e e' r H. inversion H; subst. intros h' Hne. cbn.
  by rewrite list_lookup_alter_ne.
Qed.

Lemma events_emit P t ev e :
  events P (set_trace (t ++ [ev]) e)
  = List.filter P t ++ (if P ev then [ev] else []).
Proof. unfold events. cbn. rewrite List.filter_app. reflexivity. Qed.

Lemma preserves_emit_events P ev :
  P ev = false -> preserves (same (events P)) (emit ev).
Proof.
  intros HP e e' r H. inversion H; subst. unfold same.
  rewrite events_emit, HP. apply app_nil_r.
Qed.

Lemma preserves_emit_other {B} (obs : LLMEngine -> B) ev :
  (forall e t, obs (set_trace t e) = obs e) ->
  preserves (same obs) (emit ev).
Proof. intros Ho e e' r H. inversion H; subst. apply Ho. Qed.

Lemma preserves_emit_queue ev : preserves queue_shrinks (emit ev).
Proof. intros e e' r H. inversion H; subst. unfold queue_shrinks. reflexivity. Qed.

Lemma preserves_process_scheduled_groups (R : relation LLMEngine) `{!PreOrder R}
    cfg env is_async outs obsg so metas :
  (forall i meta,
     preserves R (process_scheduled_group cfg env is_async outs obsg so i meta)) ->
  forall i fb,
    preserves R
      (process_scheduled_groups cfg env is_async outs obsg so i metas fb).
Proof.
  intros Hb. induction metas as [|meta rest IH]; intros i fb; simpl.
  - by apply preserves_ret.
  - apply preserves_bind; [done|apply Hb|]. intros b. apply IH.
Qed.

Create HintDb engine.

#[global] Hint Unfold process_scheduled_group _process_sequence_group_outputs
  create_scheduled_output create_ignored_output do_log_stats do_tracing
  _process_model_outputs process_popped_outputs advance_group _advance_to_next_step
  finish_step md_remaining_steps set_cached _has_remaining_steps
  _cache_scheduler_outputs_for_multi_step _update_cached_scheduler_output
  _get_last_sampled_token_ids get_and_reset_finished_requests_ids
  stop_remote_worker_execution_loop : engine.

Ltac preserves_rule lem := apply lem; try (apply _).

(** One structural step of a frame proof: the rule of the construct at the
    head of the computation. *)
Ltac preserves_head :=
  lazymatch goal with
  | |- preserves _ (@mret M _ _ _) => preserves_rule @preserves_ret
  | |- preserves _ (raise _) => preserves_rule @preserves_raise
  | |- preserves _ (gets _) => preserves_rule @preserves_gets
  | |- preserves _ (lift_result _) => preserves_rule @preserves_lift
  | |- preserves _ (assert _ _) => preserves_rule @preserves_assert
  | |- preserves _ (index _ _) => preserves_rule @preserves_index
  | |- preserves _ (load_group _) => preserves_rule @preserves_load
  | |- preserves ?R (when ?b ?m) =>
      let b' := eval cbv in b in
      lazymatch b' with
      | false => change (preserves R (mret tt)); preserves_rule @preserves_ret
      | _ => preserves_rule @preserves_when
      end
  | |- preserves _ (for_each _ _) => preserves_rule @preserves_for_each; intros
  | |- preserves _ (map_m _ _) => preserves_rule @preserves_map_m; intros
  | |- preserves _ (process_scheduled_groups _ _ _ _ _ _ _ _ _) =>
      preserves_rule @preserves_process_scheduled_groups; intros
  | |- preserves _ (@mbind M _ _ _ _ (@mret M _ _ _)) =>
      preserves_rule @preserves_bind_ret; cbv beta
  | |- preserves _ (@mbind M _ _ _ _ _) =>
      preserves_rule @preserves_bind; [|intros; cbv beta]
  | |- preserves (same (per_group _)) (mutate_group _ _) =>
      apply preserves_mutate_per_group; intros
  | |- preserves queue_shrinks (mutate_group _ _) => apply preserves_mutate_queue
  | |- preserves (only_slot ?h) (mutate_group ?h _) =>
      apply preserves_mutate_only_slot
  | |- preserves queue_shrinks (emit _) => apply preserves_emit_queue
  | |- preserves _ (mutate_group _ _) => unfold mutate_group
  | |- preserves _ (emit _) => unfold emit
  | |- preserves _ (modify _) => preserves_rule @preserves_modify; intros
  | |- preserves _ (match ?x with _ => _ end) => destruct x
  | |- preserves _ _ => progress autounfold with engine
  end.

Ltac preserves_step :=
  first [ assumption
        | match goal with
          | H : context [preserves] |- preserves _ _ => solve [apply H; auto]
          end
        | preserves_head ].

(** What is left after the structural steps: a setter that does not touch
    the observation, or an event the observation filters out. *)
Ltac frame_side :=
  unfold same, queue_shrinks, only_slot, finished_kept; intros;
  first [ reflexivity
        | rewrite events_emit; apply app_nil_r
        | assumption ].

Ltac frame := repeat preserves_step; try frame_side.

Lemma process_model_inputs_pure cfg env i rid lora pa :
  preserves unchanged (process_model_inputs cfg env i rid lora pa).
Proof.
  unfold process_model_inputs, _process_encoder_decoder_prompt, _process_decoder_only_prompt,
    _build_enc_dec_llm_inputs, _extract_prompt_components, _tokenize_prompt, get_tokenizer_group,
    _prepare_decoder_input_ids_for_generation, _get_default_enc_dec_decoder_prompt.
  repeat preserves_step.
Qed.

(** ** Admission *)

Lemma add_request_admits cfg env rid i params arrival lora th pa e e1 pi t ts :
  (lora = None \/ is_Some (lora_config cfg)) ->
  process_model_inputs cfg env i rid lora pa e = (e1, Ok pi) ->
  checked_prompt cfg pi = Some (t :: ts) ->
  admissible cfg params = true ->
  scheduler e <> [] ->
  exists g k s,
    add_request cfg env rid i params arrival lora th pa e
      = (admitted k g e, Ok tt)
    /\ request_id g = rid /\ is_finished g = false
    /\ scheduler e !! k = Some s
    /\ forall j s', scheduler e !! j = Some s' ->
         (get_num_unfinished_seq_groups s <= get_num_unfinished_seq_groups s')%nat.
Proof.
  intros Hl Hp Hc Ha Hs.
  pose proof (process_model_inputs_pure _ _ _ _ _ _ _ _ _ Hp) as He1.
  unfold unchanged in He1. subst e1.
  destruct (_add_processed_request_admits cfg env rid pi params
              (match arrival with None => time_time env | Some t0 => t0 end)
              lora pa th e t ts Hc Ha Hs)
    as (g & k & s & Hrun & Hg).
  exists g, k, s. split; [|exact Hg].
  unfold add_request.
  assert (Hgo : forall X Y : M unit,
            match lora, lora_config cfg with
            | Some _, None => X
            | _, _ => Y
            end = Y).
  { intros X Y. destruct Hl as [->|[c ->]]; [done|by destruct lora]. }
  rewrite Hgo. erewrite bind_ok by exact Hp. exact Hrun.
Qed.

Lemma admitted_scheduler k g e s :
  scheduler e !! k = Some s ->
  scheduler (admitted k g e)
    = <[k := add_seq_group (length (groups e)) s]> (scheduler e).
Proof.
  intros Hs. unfold admitted. cbn.
  apply list_eq. intros j. destruct (decide (j = k)) as [->|Hne].
  - rewrite list_lookup_alter_eq, Hs.
    rewrite list_lookup_insert_eq; [done|]. eapply lookup_lt_Some, Hs.
  - rewrite list_lookup_alter_ne, list_lookup_insert_ne; done.
Qed.

Lemma admitted_group k g e :
  groups (admitted k g e) !! length (groups e) = Some g.
Proof. unfold admitted. cbn. rewrite lookup_app_r, Nat.sub_diag; done. Qed.


(** C9.  A request that passes validation is given to a virtual engine
    whose scheduler has, at that moment, no more unfinished sequence groups
    than any other: [add_request] returns normally, the new group is
    appended to the waiting queue of scheduler [k], and the load of [k] is
    minimal among all schedulers. *)
Theorem add_request_routes_to_least_loaded
    cfg env rid i params arrival lora th pa e e1 pi t ts :
  (lora = None \/ is_Some (lora_config cfg)) ->
  process_model_inputs cfg env i rid lora pa e = (e1, Ok pi) ->
  checked_prompt cfg pi = Some (t :: ts) ->
  admissible cfg params = true ->
  scheduler e <> [] ->
  exists g k s e',
    add_request cfg env rid i params arrival lora th pa e = (e', Ok tt)
    /\ scheduler e !! k = Some s
    /\ scheduler e' = <[k := add_seq_group (length (groups e)) s]> (scheduler e)
    /\ groups e' !! length (groups e) = Some g
    /\ request_id g = rid
    /\ forall j s', scheduler e !! j = Some s' ->
         (get_num_unfinished_seq_groups s <= get_num_unfinished_seq_groups s')%nat.
Proof.
  intros Hl Hp Hc Ha Hs.
  destruct (add_request_admits _ _ _ _ _ arrival _ th _ _ _ _ _ _ Hl Hp Hc Ha Hs)
    as (g & k & s & Hrun & Hrid & _ & Hk & Hmin).
  exists g, k, s, (admitted k g e).
  repeat split; try done.
  - by apply admitted_scheduler.
  - apply admitted_group.
Qed.

Lemma add_request_routes_to_least_loaded_witness :
  exists g k s e',
    Scenario.add "B" 3 Scenario.two_engines = (e', Ok tt)
    /\ scheduler Scenario.two_engines !! k = Some s
    /\ scheduler e'
       = <[k := add_seq_group (length (groups Scenario.two_engines)) s]>
           (scheduler Scenario.two_engines)
    /\ groups e' !! length (groups Scenario.two_engines) = Some g
    /\ request_id g = "B"
    /\ forall j s', scheduler Scenario.two_engines !! j = Some s' ->
         (get_num_unfinished_seq_groups s <= get_num_unfinished_seq_groups s')%nat.
Proof.
  apply (add_request_routes_to_least_loaded Scenario.cfg Scenario.env_async
           "B" Scenario.hi (Demo.sampling 3) None None None None
           Scenario.two_engines Scenario.two_engines
           {| prompt_token_ids := [104; 105]; prompt := Some "hi";
              multi_modal_data := None; encoder_prompt_token_ids := None;
              encoder_prompt := None |} 104 [105]).
  - left. reflexivity.
  - vm_compute. reflexivity.
  - reflexivity.
  - reflexivity.
  - vm_compute. discriminate.
Defined.









(** ** The step loop *)

(** C10.  With more than one pipeline stage, [step] raises
    [NotImplementedError] at once: the engine is left exactly as it was, so
    nothing has been scheduled or executed. *)
Theorem step_refuses_pipeline_parallelism cfg env e :
  1 < pipeline_parallel_size cfg ->
  exists msg, step cfg env e = (e, Raise (NotImplementedError msg)).
Proof.
  intros Hpp. unfold step.
  replace (pipeline_parallel_size cfg >? 1) with true
    by (symmetry; apply Z.gtb_lt; lia).
  eexists. reflexivity.
Qed.

Lemma step_refuses_pipeline_parallelism_witness :
  exists msg,
    step (Demo.config 2 false false) Scenario.env_sync Scenario.two_engines
      = (Scenario.two_engines, Raise (NotImplementedError msg)).
Proof.
  apply (step_refuses_pipeline_parallelism (Demo.config 2 false false)
           Scenario.env_sync Scenario.two_engines).
  reflexivity.
Defined.

(** ** Frames of output processing *)

Section OutputProcessingFrames.
Context (cfg : EngineConfig) (env : Collaborators).


Lemma _process_model_outputs_events P is_async clear :
  (forall h a, P (EvProcessOutputs h a) = false) ->
  P EvLogStats = false -> P EvTracing = false ->
  preserves (same (events P)) (_process_model_outputs cfg env is_async clear).
Proof.
  intros H1 H2 H3.
  frame.
  all: unfold same; intros; rewrite events_emit, ?H1, ?H2, ?H3; apply app_nil_r.
Qed.

(** A per-group observation survives output processing when the methods
    that processing calls on a group leave it alone. *)
Lemma _process_model_outputs_per_group {B} (F : SequenceGroup -> B)
    is_async clear :
  (is_async = false -> forall k g, F (update_num_computed_tokens k g) = F g) ->
  (forall g x, F (set_embeddings g x) = F g) ->
  (forall g, F (set_seqs g (map (fun s => seq_set_status s FINISHED_STOPPED)
                              (seqs g))) = F g) ->
  (forall g o, F (process_prompt_logprob env g o) = F g) ->
  (forall g o, F (process_outputs env g o is_async) = F g) ->
  preserves (same (per_group F)) (_process_model_outputs cfg env is_async clear).
Proof.
  intros H1 H2 H3 H4 H5. destruct is_async; frame; auto.
Qed.

Lemma process_popped_outputs_queue is_async entry :
  preserves (same output_queue) (process_popped_outputs cfg env is_async entry).
Proof. frame. Qed.

Lemma _process_model_outputs_queue is_async clear :
  preserves queue_shrinks (_process_model_outputs cfg env is_async clear).
Proof.
  intros e e' r H. unfold _process_model_outputs in H.
  apply bind_inv in H as [(e1 & [] & H1 & H)|(x & H1 & _)].
  2: { assert (Hq : same output_queue e e').
       { revert H1. apply (preserves_when (same output_queue)). frame. }
       unfold queue_shrinks. rewrite Hq. reflexivity. }
  assert (Hq1 : same output_queue e e1).
  { revert H1. apply (preserves_when (same output_queue)). frame. }
  apply bind_inv in H as [(e2 & q & H2 & H)|(x & H2 & _)]; [|discriminate].
  injection H2 as <- <-.
  unfold queue_shrinks. rewrite <- Hq1.
  destruct (output_queue e1) as [|entry q'] eqn:Eq.
  { injection H as <- _. rewrite Eq. reflexivity. }
  apply bind_inv in H as [(e3 & [] & H3 & H)|(x & H3 & _)]; [|discriminate].
  injection H3 as <-.
  assert (Hq3 : same output_queue (set_output_queue q' e1) e').
  { revert H. apply process_popped_outputs_queue. }
  rewrite Hq3. cbn. apply suffix_cons_r. reflexivity.
Qed.

End OutputProcessingFrames.

(** ** Scheduling *)

Section SchedulingFacts.
Context (cfg : EngineConfig) (env : Collaborators).

Lemma scheduler_schedule_ok e s :
  scheduler e !! 0%nat = Some s ->
  scheduler_schedule env e
  = (set_trace (trace e ++ [EvSchedule])
       (set_groups (sr_groups (schedule env s (groups e)))
          (set_scheduler
             (<[0%nat := sr_scheduler (schedule env s (groups e))]> (scheduler e))
             e)),
     Ok (sr_seq_group_metadata_list (schedule env s (groups e)),
         sr_scheduler_outputs (schedule env s (groups e)),
         sr_allow_async_output_proc (schedule env s (groups e)))).
Proof.
  intros Hs. unfold scheduler_schedule. run_monad. rewrite Hs. reflexivity.
Qed.

Lemma scheduler_schedule_none e :
  scheduler e !! 0%nat = None ->
  exists x, scheduler_schedule env e = (e, Raise x).
Proof.
  intros Hs. unfold scheduler_schedule. run_monad. rewrite Hs. by eexists.
Qed.

Lemma scheduler_schedule_obs {B} (obs : LLMEngine -> B) :
  (forall e s, scheduler e !! 0%nat = Some s ->
     obs (set_trace (trace e ++ [EvSchedule])
            (set_groups (sr_groups (schedule env s (groups e)))
               (set_scheduler
                  (<[0%nat := sr_scheduler (schedule env s (groups e))]>
                     (scheduler e)) e))) = obs e) ->
  preserves (same obs) (scheduler_schedule env).
Proof.
  intros Ho e e' r H. destruct (scheduler e !! 0%nat) as [s|] eqn:Es.
  - rewrite (scheduler_schedule_ok _ _ Es) in H. injection H as <- _.
    by apply Ho.
  - destruct (scheduler_schedule_none _ Es) as [x Hx]. rewrite Hx in H.
    by injection H as <- _.
Qed.

Lemma scheduler_schedule_events P :
  P EvSchedule = false -> preserves (same (events P)) (scheduler_schedule env).
Proof.
  intros HP. apply scheduler_schedule_obs. intros e s _.
  rewrite events_emit, HP. apply app_nil_r.
Qed.

Lemma scheduler_schedule_queue : preserves queue_shrinks (scheduler_schedule env).
Proof.
  intros e e' r H.
  apply (scheduler_schedule_obs output_queue) in H; [|done].
  unfold queue_shrinks. rewrite H. reflexivity.
Qed.


(** Events that neither scheduling nor output processing emit are kept by
    the whole scheduling stretch of [step]. *)
Lemma step_schedule_events P :
  P EvSchedule = false ->
  (forall h a, P (EvProcessOutputs h a) = false) ->
  P EvLogStats = false -> P EvTracing = false ->
  preserves (same (events P)) (step_schedule cfg env).
Proof.
  intros H0 H1 H2 H3.
  pose proof (scheduler_schedule_events P H0) as Hs.
  pose proof (fun a c => _process_model_outputs_events cfg env P a c H1 H2 H3) as Hp.
  unfold step_schedule. frame.
Qed.

Lemma step_schedule_queue : preserves queue_shrinks (step_schedule cfg env).
Proof.
  pose proof scheduler_schedule_queue as Hs.
  pose proof (_process_model_outputs_queue cfg env) as Hp.
  unfold step_schedule. frame.
Qed.

End SchedulingFacts.

#[global] Instance step_not_taken_preorder : PreOrder step_not_taken.
Proof.
  split.
  - intros e. repeat split; reflexivity.
  - intros e1 e2 e3 (A1 & B1 & C1) (A2 & B2 & C2). repeat split.
    + congruence.
    + by transitivity e2.
    + congruence.
Qed.




(** ** Frames of the later stretches of [step] *)

Section StepFrames.
Context (cfg : EngineConfig) (env : Collaborators).

Lemma step_finish_events P d output :
  (forall h, P (EvFinishStep h) = false) ->
  (forall h a, P (EvProcessOutputs h a) = false) ->
  P EvLogStats = false -> P EvTracing = false ->
  preserves (same (events P)) (step_finish cfg env d output).
Proof.
  intros H0 H1 H2 H3.
  pose proof (fun a c => _process_model_outputs_events cfg env P a c H1 H2 H3) as Hp.
  unfold step_finish. destruct d as [[metas so] allow]. frame.
  all: unfold same; intros; rewrite events_emit, ?H0, ?H2, ?H3; apply app_nil_r.
Qed.

Lemma step_drain_events P :
  (forall h a, P (EvProcessOutputs h a) = false) ->
  P EvLogStats = false -> P EvTracing = false ->
  P EvStopRemoteWorkerLoop = false ->
  preserves (same (events P)) (step_drain cfg env).
Proof.
  intros H1 H2 H3 H4.
  pose proof (fun a c => _process_model_outputs_events cfg env P a c H1 H2 H3) as Hp.
  unfold step_drain. frame.
  all: unfold same; intros; rewrite events_emit, ?H4; apply app_nil_r.
Qed.

Lemma step_execute_idle_events P metas so allow :
  is_empty so = true ->
  (forall h a, P (EvProcessOutputs h a) = false) ->
  P EvLogStats = false -> P EvTracing = false ->
  preserves (same (events P)) (step_execute cfg env (metas, so, allow)).
Proof.
  intros He H1 H2 H3.
  pose proof (fun a c => _process_model_outputs_events cfg env P a c H1 H2 H3) as Hp.
  unfold step_execute. rewrite He. cbn [negb]. frame.
Qed.



Lemma _get_last_sampled_token_ids_pure ve :
  preserves unchanged (_get_last_sampled_token_ids cfg ve).
Proof. frame. Qed.

End StepFrames.

(** ** When the executor fails *)

Section ExecutorFailure.
Context (cfg : EngineConfig) (env : Collaborators) (x : Exn).

(** The executor fails on whatever it is given. *)
Hypothesis executor_fails :
  forall req gs, returned (execute_model env req gs) = Raise x.
(** Scheduling appends no token, and neither does the output processor when
    it is told that the tokens were appended already. *)
Hypothesis schedule_keeps_tokens :
  forall s gs, map group_tokens (sr_groups (schedule env s gs)) = map group_tokens gs.
Hypothesis prompt_logprob_keeps_tokens :
  forall g o, group_tokens (process_prompt_logprob env g o) = group_tokens g.
Hypothesis async_processor_keeps_tokens :
  forall g o, group_tokens (process_outputs env g o true) = group_tokens g.




End ExecutorFailure.

Section ExecutorFailureStep.
Context (cfg : EngineConfig) (env : Collaborators) (x : Exn).

Hypothesis executor_fails :
  forall req gs, returned (execute_model env req gs) = Raise x.
Hypothesis schedule_keeps_tokens :
  forall s gs, map group_tokens (sr_groups (schedule env s gs)) = map group_tokens gs.
Hypothesis prompt_logprob_keeps_tokens :
  forall g o, group_tokens (process_prompt_logprob env g o) = group_tokens g.
Hypothesis async_processor_keeps_tokens :
  forall g o, group_tokens (process_outputs env g o true) = group_tokens g.



End ExecutorFailureStep.

(** ** The collaborators of the examples honour the contracts *)





(** ** The eager append *)


Lemma mutate_group_run h f e :
  mutate_group h f e = (set_groups (alter f h (groups e)) e, Ok tt).
Proof. reflexivity. Qed.

Lemma load_group_run h e g :
  groups e !! h = Some g -> load_group h e = (e, Ok g).
Proof. intros H. unfold load_group. run_monad. by rewrite H. Qed.

Lemma load_group_inv h e e' r :
  load_group h e = (e', r) ->
  e' = e /\ (r = Raise (IndexError "dangling sequence group") /\ groups e !! h = None
             \/ exists g, r = Ok g /\ groups e !! h = Some g).
Proof.
  unfold load_group. run_monad. destruct (groups e !! h) as [g|];
    intros [= <- <-]; eauto.
Qed.









(** ** One scheduled group in output processing *)

Section ScheduledGroup.
Context (cfg : EngineConfig) (env : Collaborators).

Lemma index_Some {A} (l : list A) i x : l !! i = Some x -> index l i = mret x.
Proof. intros E. unfold index. by rewrite E. Qed.

Lemma index_None {A} (l : list A) i :
  l !! i = None -> index l i = raise (IndexError "list index out of range").
Proof. intros E. unfold index. by rewrite E. Qed.

Lemma process_scheduled_group_only_slot a outs obsg so i meta ssg :
  scheduled_seq_groups so !! i = Some ssg ->
  preserves (only_slot (seq_group ssg))
    (process_scheduled_group cfg env a outs obsg so i meta).
Proof.
  intros E. unfold process_scheduled_group. rewrite (index_Some _ _ _ E).
  frame.
Qed.

Lemma process_scheduled_group_cases a outs obsg so i meta ssg e e' r :
  scheduled_seq_groups so !! i = Some ssg ->
  process_scheduled_group cfg env a outs obsg so i meta e = (e', r) ->
  (group_finished_at (groups e) (seq_group ssg) = true /\ e' = e /\ r = Ok true)
  \/ (group_finished_at (groups e) (seq_group ssg) = false
      /\ only_slot (seq_group ssg) e e' /\ r <> Ok true).
Proof.
  intros E H.
  pose proof (process_scheduled_group_only_slot a outs obsg so i meta ssg E
                _ _ _ H) as Hslot.
  unfold process_scheduled_group in H. rewrite (index_Some _ _ _ E) in H.
  unfold group_finished_at.
  apply bind_inv in H as [(e1 & ssg' & H1 & H)|(x & H1 & _)]; [|discriminate].
  injection H1 as <- <-.
  apply bind_inv in H as [(e1 & g & H1 & H)|(x & H1 & ->)].
  - apply load_group_inv in H1 as [-> [[? _]|(g' & [= <-] & Hg)]]; [discriminate|].
    rewrite Hg. destruct (is_finished g).
    + left. by injection H as <- <-.
    + right. split; [done|]. split; [done|].
      apply bind_inv in H as [(e2 & o & H2 & H)|(x & H2 & ->)]; [|done].
      apply bind_inv in H as [(e3 & [] & H3 & H)|(x & H3 & ->)]; [|done].
      apply bind_inv in H as [(e4 & [] & H4 & H)|(x & H4 & ->)]; [|done].
      by injection H as _ <-.
  - apply load_group_inv in H1 as [-> [[_ Hg]|(g' & [=] & _)]].
    right. rewrite Hg. done.
Qed.

Lemma process_scheduled_group_missing a outs obsg so i meta e e' r :
  scheduled_seq_groups so !! i = None ->
  process_scheduled_group cfg env a outs obsg so i meta e = (e', r) ->
  e' = e /\ exists x, r = Raise x.
Proof.
  intros E H. unfold process_scheduled_group in H.
  rewrite (index_None _ _ E) in H. injection H as <- <-. eauto.
Qed.



End ScheduledGroup.



Lemma zip3_lookup {A B C} (l1 : list A) (l2 : list B) (l3 : list C) x :
  x ∈ zip (zip l1 l2) l3 ->
  exists i, l1 !! i = Some x.1.1 /\ l2 !! i = Some x.1.2 /\ l3 !! i = Some x.2.
Proof.
  intros Hx. apply list_elem_of_lookup in Hx as [i Hi]. exists i.
  apply lookup_zip_with_Some in Hi as (p & c & -> & Hp & Hc).
  apply lookup_zip_with_Some in Hp as (a & b & -> & Ha & Hb).
  done.
Qed.




(** The batch of the examples is the one the engine builds. *)
Example first_batch_scheduled :
  exists so,
    step_schedule Scenario.cfg Scenario.env_async Scenario.one_waiting
    = (Scenario.scheduled_once, Ok (Scenario.batch_metas, so, true))
    /\ scheduled_seq_groups so = Scenario.batch_groups
    /\ snd (step_execute Scenario.cfg Scenario.env_async
              (Scenario.batch_metas, so, true) Scenario.scheduled_once)
       = Ok [Scenario.sampled].
Proof. eexists. split; [vm_compute; reflexivity|]. split; reflexivity. Qed.

(** ** The assertions of the asynchronous path *)







Section StepShape.
Context (cfg : EngineConfig) (env : Collaborators).

(** A tick that returns has gone through its four stretches. *)
Lemma step_ok_inv e e' outs :
  step cfg env e = (e', Ok outs) ->
  exists d e1 output e2 e3,
    step_schedule cfg env e = (e1, Ok d)
    /\ step_execute cfg env d e1 = (e2, Ok output)
    /\ step_finish cfg env d output e2 = (e3, Ok tt)
    /\ step_drain cfg env e3 = (e', Ok tt)
    /\ outs = request_outputs e'
    /\ pipeline_parallel_size cfg <= 1.
Proof.
  unfold step. intros H.
  destruct (pipeline_parallel_size cfg >? 1) eqn:Hpp; [discriminate|].
  apply bind_inv_ok in H as (e1 & d & H1 & H).
  apply bind_inv_ok in H as (e2 & output & H2 & H).
  apply bind_inv_ok in H as (e3 & [] & H3 & H).
  apply bind_inv_ok in H as (e4 & [] & H4 & H).
  injection H as <- <-.
  exists d, e1, output, e2, e3. repeat split; try done.
  rewrite Z.gtb_ltb in Hpp. apply Z.ltb_ge in Hpp. lia.
Qed.

Lemma step_schedule_allow e e1 metas so :
  step_schedule cfg env e = (e1, Ok (metas, so, true)) ->
  is_multi_step cfg = false.
Proof.
  unfold step_schedule. intros H.
  apply bind_inv_ok in H as (e2 & cs & _ & H).
  apply bind_inv_ok in H as (e3 & cached & _ & H).
  apply bind_inv_ok in H as (e4 & hr & _ & H).
  apply bind_inv_ok in H as (e5 & [[mo soo] allow] & _ & H).
  apply bind_inv_ok in H as (e6 & metas' & _ & H).
  apply bind_inv_ok in H as (e7 & so' & _ & H).
  apply bind_inv_ok in H as (e8 & [] & H8 & H).
  injection H as _ _ _ ->.
  by destruct (is_multi_step cfg).
Qed.

End StepShape.




(** ** Returning only the finished requests *)

Lemma omap_seq_lookup {A B} (l : list A) (f : nat -> option B)
    (F : A -> option B) :
  (forall j x, l !! j = Some x -> f j = F x) ->
  omap f (seq 0 (length l)) = omap F l.
Proof.
  induction l as [|x l IH] using rev_ind; intros Hf; [done|].
  rewrite length_app, Nat.add_1_r, seq_S, !omap_app, IH.
  - cbn. rewrite (Hf (length l) x); [done|].
    rewrite lookup_app_r, Nat.sub_diag; [done|lia].
  - intros j y Hj. apply Hf. by apply lookup_app_l_Some.
Qed.

Section FinishedOnly.
Context (cfg : EngineConfig) (env : Collaborators).

Lemma process_scheduled_groups_finished a outs obsg so :
  NoDup (map seq_group (scheduled_seq_groups so)) ->
  forall metas i fb e e' fb',
    process_scheduled_groups cfg env a outs obsg so i metas fb e = (e', Ok fb') ->
    forall j, j ∈ fb' <->
      j ∈ fb
      \/ ((i <= j < i + length metas)%nat
          /\ exists ssg, scheduled_seq_groups so !! j = Some ssg
               /\ group_finished_at (groups e) (seq_group ssg) = true).
Proof.
  intros Hnd. induction metas as [|meta rest IH]; intros i fb e e' fb' H j.
  - injection H as <- <-. cbn. split; [by left|]. intros [?|[? _]]; [done|lia].
  - cbn [process_scheduled_groups] in H.
    apply bind_inv_ok in H as (e1 & b & H1 & H).
    destruct (scheduled_seq_groups so !! i) as [ssg|] eqn:E.
    2: { by destruct (process_scheduled_group_missing _ _ _ _ _ _ _ _ _ _ _ E H1)
           as [_ [x ?]]. }
    assert (Hlater : forall j' ssg', (i < j')%nat ->
              scheduled_seq_groups so !! j' = Some ssg' ->
              only_slot (seq_group ssg) e e1 ->
              group_finished_at (groups e1) (seq_group ssg')
              = group_finished_at (groups e) (seq_group ssg')).
    { intros j' ssg' Hlt E' Hslot. unfold group_finished_at.
      rewrite Hslot; [done|]. intros Heq.
      assert (i = j'); [|lia].
      apply (NoDup_lookup _ i j' (seq_group ssg) Hnd);
        rewrite list_lookup_fmap; [rewrite E|rewrite E']; cbn; congruence. }
    rewrite (IH _ _ _ _ _ H j). cbn [length].
    destruct (process_scheduled_group_cases _ _ _ _ _ _ _ _ _ _ _ _ E H1)
      as [(Hf & He1 & Hb)|(Hf & Hslot & Hb)].
    + subst e1. injection Hb as ->. rewrite elem_of_app, list_elem_of_singleton. split.
      * intros [[?| ->]|[? ?]]; [by left| |right; split; [lia|done]].
        right. split; [lia|]. eauto.
      * intros [?|[? (ssg' & E' & Hf')]]; [by left; left|].
        destruct (decide (j = i)) as [->|]; [by left; right|].
        right. split; [lia|]. eauto.
    + destruct b; [done|]. split.
      * intros [?|[? (ssg' & E' & Hf')]]; [by left|]. right. split; [lia|].
        exists ssg'. split; [done|]. rewrite <- Hf'. symmetry.
        apply (Hlater j); [lia|done|done].
      * intros [?|[? (ssg' & E' & Hf')]]; [by left|].
        destruct (decide (j = i)) as [->|]; [congruence|].
        right. split; [lia|]. exists ssg'. split; [done|]. rewrite <- Hf'.
        apply (Hlater j); [lia|done|done].
Qed.



Lemma create_ignored_outputs_run l :
  forall e e',
    for_each l create_ignored_output e = (e', Ok tt) ->
    groups e' = groups e
    /\ request_outputs e' = request_outputs e ++ omap (ignored_output (groups e)) l.
Proof.
  induction l as [|h l IH]; intros e e' H.
  - injection H as <-. by rewrite app_nil_r.
  - cbn [for_each] in H. apply bind_inv_ok in H as (e1 & [] & H1 & H).
    unfold create_ignored_output in H1.
    apply bind_inv_ok in H1 as (e2 & g & H2 & H1).
    apply load_group_inv in H2 as [-> [[? _]|(g' & [= <-] & Hg)]]; [discriminate|].
    injection H1 as <-.
    destruct (IH _ _ H) as [Hgs Hr]. rewrite Hgs, Hr. cbn. split; [done|].
    rewrite <- app_assoc. f_equal. unfold ignored_output at 2. by rewrite Hg.
Qed.

Lemma process_scheduled_groups_outputs a outs obsg so i metas fb :
  preserves (same request_outputs)
    (process_scheduled_groups cfg env a outs obsg so i metas fb).
Proof. frame. Qed.

Lemma log_and_trace_frame {B} (obs : LLMEngine -> B) a so :
  (forall e t, obs (set_trace t e) = obs e) ->
  preserves (same obs) (when a (do_log_stats cfg;; do_tracing cfg so)).
Proof.
  intros Hobs. frame. all: unfold same; intros; apply Hobs.
Qed.

End FinishedOnly.




(** ** A tick with nothing to do *)






(** ** Multi-step ticks *)

Lemma batch_remaining_ext gs gs' metas :
  map remaining_steps gs' = map remaining_steps gs ->
  batch_remaining gs' metas = batch_remaining gs metas.
Proof.
  intros H. destruct metas as [|first rest]; [done|]. cbn.
  assert (Hl : map remaining_steps gs' !! md_state first
               = map remaining_steps gs !! md_state first) by (by rewrite H).
  rewrite !list_lookup_fmap in Hl.
  destruct (gs' !! md_state first), (gs !! md_state first); cbn in *; congruence.
Qed.


Section MultiStep.
Context (cfg : EngineConfig) (env : Collaborators).
Hypothesis multi_step : is_multi_step cfg = true.

Lemma md_remaining_steps_pure md : preserves unchanged (md_remaining_steps md).
Proof. frame. Qed.

Lemma _has_remaining_steps_inv mo e e' b :
  _has_remaining_steps cfg mo e = (e', Ok b) ->
  e' = e /\ b = (batch_remaining (groups e) (default [] mo) >? 0).
Proof.
  unfold _has_remaining_steps. rewrite multi_step. cbn [negb].
  destruct mo as [[|first rest]|]; cbn [default batch_remaining].
  1,3: by intros [= <- <-].
  intros H. apply bind_inv_ok in H as (e1 & ref & H1 & H).
  unfold md_remaining_steps in H1.
  apply bind_inv_ok in H1 as (e2 & g & H2 & H1).
  apply load_group_inv in H2 as [-> [[? _]|(g' & [= <-] & Hg)]]; [discriminate|].
  injection H1 as <- <-.
  apply bind_inv_ok in H as (e1 & others & H1 & H).
  apply (preserves_map_m unchanged) in H1; [|apply md_remaining_steps_pure].
  unfold unchanged in H1. subst e1.
  unfold batch_remaining, id. rewrite Hg. cbn.
  destruct (existsb _ others); [discriminate|]. by injection H as <- <-.
Qed.



(** *** What a tick keeps *)

Hypothesis prompt_logprob_keeps_steps :
  forall g o, remaining_steps (process_prompt_logprob env g o) = remaining_steps g.
Hypothesis process_outputs_keeps_steps :
  forall g o a, remaining_steps (process_outputs env g o a) = remaining_steps g.

Lemma processing_keeps_steps a clear :
  preserves (same (per_group remaining_steps))
    (_process_model_outputs cfg env a clear).
Proof. apply _process_model_outputs_per_group; auto. Qed.



Lemma step_execute_keeps_steps d :
  preserves (same (per_group remaining_steps)) (step_execute cfg env d).
Proof.
  pose proof processing_keeps_steps as Hp.
  destruct d as [[metas so] allow].
  unfold step_execute, model_executor_execute_model. frame.
Qed.


Lemma step_drain_keeps_steps :
  preserves (same (per_group remaining_steps)) (step_drain cfg env).
Proof.
  pose proof processing_keeps_steps as Hp.
  unfold step_drain. frame.
Qed.



(** *** Scheduling or reusing *)



(** *** Finishing the step *)




End MultiStep.



(** * Further properties of the engine *)

(** ** Input processing *)

Section InputProcessing.
Context (cfg : EngineConfig) (env : Collaborators).

(** A decoder prompt that has been prepared begins with the decoder start
    token: it is the given prompt when that already began with the token,
    and the prompt with the token put in front otherwise.  Preparing it a
    second time changes nothing, and the engine is left as it was. *)
Theorem decoder_prompt_starts_once ids e e' out :
  _prepare_decoder_input_ids_for_generation cfg env (Some ids) e = (e', Ok out) ->
  e' = e
  /\ exists d,
       _get_decoder_start_token_id cfg env = Some d
       /\ head out = Some d
       /\ (if bool_decide (head ids = Some d) then out = ids else out = d :: ids)
       /\ _prepare_decoder_input_ids_for_generation cfg env (Some out) e
          = (e, Ok out).
Proof.
  unfold _prepare_decoder_input_ids_for_generation.
  destruct (_get_decoder_start_token_id cfg env) as [d|]; [|discriminate].
  run_monad. destruct ids as [|t ids].
  - intros [= <- <-]. split; [done|]. exists d.
    rewrite bool_decide_eq_false_2 by done.
    repeat split. by rewrite Z.eqb_refl.
  - destruct (Z.eqb_spec t d) as [->|Hne]; intros [= <- <-];
      (split; [done|]); exists d.
    + rewrite bool_decide_eq_true_2 by done.
      repeat split. by rewrite Z.eqb_refl.
    + rewrite bool_decide_eq_false_2 by (cbn; congruence).
      repeat split. by rewrite Z.eqb_refl.
Qed.

(** When only an encoder prompt is given to an encoder-decoder model, the
    decoder prompt is the default one: the BOS token, preceded by the
    decoder start token of the model configuration when that names a
    different one.  The encoder prompt is tokenized without a LoRA adapter
    and the engine is left as it was. *)
Theorem encoder_only_prompt_gets_default_decoder i rid hf t bos e :
  is_encoder_decoder_model cfg = true ->
  hf_config cfg = Some hf ->
  tokenizer env = Some t ->
  bos_token_id t None = Some bos ->
  encoder_only i = true ->
  prompt_multi_modal (leading_prompt i) = None ->
  _process_encoder_decoder_prompt cfg env i rid e
  = (e, Ok {| prompt_token_ids :=
                match hf_decoder_start_token_id hf with
                | Some d => if bos =? d then [bos] else [d; bos]
                | None => [bos]
                end;
              prompt := None;
              multi_modal_data := None;
              encoder_prompt_token_ids :=
                Some (prompt_ids t rid (leading_prompt i));
              encoder_prompt := prompt_text (leading_prompt i) |}).
Proof.
  intros Hed Hhf Ht Hbos Honly Hmm.
  assert (Hextract : forall s, prompt_multi_modal s = None ->
            _extract_prompt_components env s rid None e
            = (e, Ok (prompt_text s, prompt_ids t rid s, None))).
  { intros s Hs. unfold _extract_prompt_components, _tokenize_prompt,
      get_tokenizer_group. rewrite Ht.
    destruct s as [p|ids mm|p mm]; cbn in Hs; subst; reflexivity. }
  match goal with
  | |- _ = ?rhs =>
      assert (Hbuild : _build_enc_dec_llm_inputs cfg env
                (prompt_text (leading_prompt i),
                 prompt_ids t rid (leading_prompt i), None)
                (None, None, None) e = rhs)
  end.
  { unfold _build_enc_dec_llm_inputs,
      _prepare_decoder_input_ids_for_generation, _get_decoder_start_token_id,
      _get_default_enc_dec_decoder_prompt, _get_bos_token_id.
    rewrite Hed, Hhf, Ht, Hbos. cbn.
    destruct (hf_decoder_start_token_id hf) as [d|]; run_monad.
    - destruct (bos =? d); reflexivity.
    - rewrite Z.eqb_refl. reflexivity. }
  destruct i as [s|enc [d|]]; [|discriminate|]; cbn in Hmm, Hbuild |- *;
    erewrite bind_ok by (apply Hextract, Hmm).
  - exact Hbuild.
  - erewrite bind_ok by reflexivity. exact Hbuild.
Qed.


Lemma _extract_prompt_components_no_tokenizer s rid lora e :
  tokenizer env = None -> is_text s = true ->
  _extract_prompt_components env s rid lora e
  = (e, Raise (ValueError "prompts must be None if skip_tokenizer_init is True")).
Proof.
  intros Ht Hs. unfold _extract_prompt_components, _tokenize_prompt,
    get_tokenizer_group. rewrite Ht.
  destruct s; [reflexivity|discriminate|reflexivity].
Qed.

Lemma _extract_prompt_components_tokens ids mm rid lora e :
  _extract_prompt_components env (TokensPrompt ids mm) rid lora e
  = (e, Ok (None, ids, mm)).
Proof. reflexivity. Qed.

(** A decoder-only model refuses an explicit encoder/decoder prompt:
    [add_request] raises [ValueError] and the engine is exactly as it
    was. *)
Theorem explicit_prompt_needs_encoder_decoder
    rid enc dec params arrival lora th pa e :
  is_encoder_decoder_model cfg = false ->
  lora = None \/ is_Some (lora_config cfg) ->
  add_request cfg env rid (ExplicitEncoderDecoder enc dec) params arrival
    lora th pa e
  = (e, Raise (ValueError
                 "Cannot pass encoder-decoder prompt to decoder-only models")).
Proof.
  intros Hed Hl.
  assert (Hp : process_model_inputs cfg env (ExplicitEncoderDecoder enc dec)
                 rid lora pa e
               = (e, Raise (ValueError
                    "Cannot pass encoder-decoder prompt to decoder-only models"))).
  { unfold process_model_inputs. by rewrite Hed. }
  unfold add_request.
  destruct lora as [l|]; [destruct Hl as [?|[c Hc]]; [discriminate|rewrite Hc]|];
    cbv beta iota; by apply bind_raise.
Qed.

(** Without a tokenizer ([skip_tokenizer_init]) a prompt given as text
    cannot be admitted: [add_request] raises [ValueError] and the engine is
    exactly as it was.  This holds for a single prompt on either kind of
    model and for the encoder prompt of an encoder-decoder model. *)
Theorem text_prompt_needs_tokenizer rid i params arrival lora th pa e :
  tokenizer env = None ->
  is_text (leading_prompt i) = true ->
  is_encoder_decoder_model cfg = true \/ (exists s, i = Singleton s) ->
  lora = None \/ is_Some (lora_config cfg) ->
  add_request cfg env rid i params arrival lora th pa e
  = (e, Raise (ValueError
                 "prompts must be None if skip_tokenizer_init is True")).
Proof.
  intros Ht Htext Hkind Hl.
  assert (Hp : process_model_inputs cfg env i rid lora pa e
               = (e, Raise (ValueError
                    "prompts must be None if skip_tokenizer_init is True"))).
  { unfold process_model_inputs, _process_encoder_decoder_prompt,
      _process_decoder_only_prompt.
    destruct (is_encoder_decoder_model cfg).
    - destruct i as [s|enc dec]; cbn in Htext;
        apply bind_raise; apply bind_raise;
        by apply _extract_prompt_components_no_tokenizer.
    - destruct Hkind as [?|[s ->]]; [discriminate|]. cbn in Htext.
      apply bind_raise, bind_raise.
      by apply _extract_prompt_components_no_tokenizer. }
  unfold add_request.
  destruct lora as [l|]; [destruct Hl as [?|[c Hc]]; [discriminate|rewrite Hc]|];
    cbv beta iota; by apply bind_raise.
Qed.

(** A prompt given as token ids is never tokenized: on a decoder-only
    model it reaches the input processor as it is, with its multi-modal
    data, and with the virtual tokens of the prompt adapter (zeros, as many
    as the adapter says) in front.  The engine is left as it was. *)
Theorem token_prompt_passes_through ids mm rid lora pa e :
  is_encoder_decoder_model cfg = false ->
  process_model_inputs cfg env (Singleton (TokensPrompt ids mm)) rid lora pa e
  = (e, input_processor env
          {| prompt_token_ids := virtual_tokens pa ++ ids;
             prompt := None;
             multi_modal_data := mm;
             encoder_prompt_token_ids := None;
             encoder_prompt := None |}).
Proof.
  intros Hed. unfold process_model_inputs. rewrite Hed.
  unfold _process_decoder_only_prompt.
  erewrite bind_ok by (erewrite bind_ok by apply _extract_prompt_components_tokens;
                       reflexivity).
  unfold _build_decoder_only_llm_inputs, _apply_prompt_adapter, virtual_tokens.
  by destruct pa.
Qed.

(** An encoder-decoder model refuses multi-modal data, in the encoder
    prompt or in the decoder prompt: processing raises [ValueError] and the
    engine is left as it was. *)
Theorem encoder_decoder_rejects_multi_modal i rid lora pa t e :
  is_encoder_decoder_model cfg = true ->
  tokenizer env = Some t ->
  carries_multi_modal i = true ->
  process_model_inputs cfg env i rid lora pa e
  = (e, Raise (ValueError
                 "Multi-modal encoder-decoder models are not supported yet")).
Proof.
  intros Hed Ht Hmm.
  assert (Hextract : forall s,
            _extract_prompt_components env s rid None e
            = (e, Ok (prompt_text s, prompt_ids t rid s, prompt_multi_modal s))).
  { intros s. unfold _extract_prompt_components, _tokenize_prompt,
      get_tokenizer_group. rewrite Ht. by destruct s. }
  unfold process_model_inputs. rewrite Hed. apply bind_raise.
  unfold _process_encoder_decoder_prompt, _build_enc_dec_llm_inputs.
  destruct i as [s|enc dec]; cbn in Hmm.
  - erewrite bind_ok by apply Hextract.
    apply bool_decide_eq_true in Hmm as [m ->]. reflexivity.
  - erewrite bind_ok by apply Hextract.
    destruct dec as [d|].
    + erewrite bind_ok
        by (erewrite bind_ok by apply Hextract; reflexivity).
      apply orb_true_iff in Hmm as [Hm|Hm];
        apply bool_decide_eq_true in Hm as [m Hm]; rewrite Hm.
      * reflexivity.
      * by destruct (prompt_multi_modal enc).
    + erewrite bind_ok by reflexivity.
      rewrite orb_false_r in Hmm.
      apply bool_decide_eq_true in Hmm as [m ->]. reflexivity.
Qed.

End InputProcessing.

Lemma decoder_prompt_starts_once_witness :
  Demo.new_engine 1 = Demo.new_engine 1
  /\ exists d,
       _get_decoder_start_token_id (Examples.cfg_encdec (Some 0)) Examples.env
       = Some d
       /\ head [0; 5; 6] = Some d
       /\ (if bool_decide (head [5; 6] = Some d)
           then [0; 5; 6] = [5; 6] else [0; 5; 6] = d :: [5; 6])
       /\ _prepare_decoder_input_ids_for_generation
            (Examples.cfg_encdec (Some 0)) Examples.env (Some [0; 5; 6])
            (Demo.new_engine 1)
          = (Demo.new_engine 1, Ok [0; 5; 6]).
Proof.
  apply (decoder_prompt_starts_once (Examples.cfg_encdec (Some 0)) Examples.env
           [5; 6] (Demo.new_engine 1)).
  reflexivity.
Defined.

Lemma encoder_only_prompt_gets_default_decoder_witness :
  _process_encoder_decoder_prompt (Examples.cfg_encdec (Some 0)) Examples.env
    (Singleton (StrPrompt "hi")) "A" (Demo.new_engine 1)
  = (Demo.new_engine 1,
     Ok {| prompt_token_ids :=
             match hf_decoder_start_token_id
                     {| hf_decoder_start_token_id := Some 0 |} with
             | Some d => if 1 =? d then [1] else [d; 1]
             | None => [1]
             end;
           prompt := None;
           multi_modal_data := None;
           encoder_prompt_token_ids :=
             Some (prompt_ids Demo.the_tokenizer "A"
                     (leading_prompt (Singleton (StrPrompt "hi"))));
           encoder_prompt :=
             prompt_text (leading_prompt (Singleton (StrPrompt "hi"))) |}).
Proof.
  apply (encoder_only_prompt_gets_default_decoder
           (Examples.cfg_encdec (Some 0)) Examples.env
           (Singleton (StrPrompt "hi")) "A"
           {| hf_decoder_start_token_id := Some 0 |} Demo.the_tokenizer 1
           (Demo.new_engine 1));
    reflexivity.
Defined.

Lemma explicit_prompt_needs_encoder_decoder_witness :
  add_request Scenario.cfg Examples.env "A"
    (ExplicitEncoderDecoder (StrPrompt "hi") None) (Demo.sampling 1)
    None None None None (Demo.new_engine 1)
  = (Demo.new_engine 1,
     Raise (ValueError
              "Cannot pass encoder-decoder prompt to decoder-only models")).
Proof.
  apply (explicit_prompt_needs_encoder_decoder Scenario.cfg Examples.env).
  - reflexivity.
  - by left.
Defined.

Lemma text_prompt_needs_tokenizer_witness :
  add_request Scenario.cfg Examples.env_no_tokenizer "A" Scenario.hi
    (Demo.sampling 1) None None None None (Demo.new_engine 1)
  = (Demo.new_engine 1,
     Raise (ValueError "prompts must be None if skip_tokenizer_init is True")).
Proof.
  apply (text_prompt_needs_tokenizer Scenario.cfg Examples.env_no_tokenizer).
  - reflexivity.
  - reflexivity.
  - right. by eexists.
  - by left.
Defined.

Lemma token_prompt_passes_through_witness :
  process_model_inputs Scenario.cfg Examples.env_no_tokenizer
    (Singleton (TokensPrompt [5; 6] None)) "A" None
    (Some {| prompt_adapter_num_virtual_tokens := 2 |}) (Demo.new_engine 1)
  = (Demo.new_engine 1,
     input_processor Examples.env_no_tokenizer
       {| prompt_token_ids :=
            virtual_tokens (Some {| prompt_adapter_num_virtual_tokens := 2 |})
            ++ [5; 6];
          prompt := None;
          multi_modal_data := None;
          encoder_prompt_token_ids := None;
          encoder_prompt := None |}).
Proof.
  apply (token_prompt_passes_through Scenario.cfg Examples.env_no_tokenizer).
  reflexivity.
Defined.

Lemma encoder_decoder_rejects_multi_modal_witness :
  process_model_inputs (Examples.cfg_encdec None) Examples.env
    (ExplicitEncoderDecoder (StrPrompt "hi")
       (Some (TokensPrompt [5] (Some [("image"%string, 1)]))))
    "A" None None (Demo.new_engine 1)
  = (Demo.new_engine 1,
     Raise (ValueError
              "Multi-modal encoder-decoder models are not supported yet")).
Proof.
  apply (encoder_decoder_rejects_multi_modal (Examples.cfg_encdec None)
           Examples.env _ _ _ _ Demo.the_tokenizer);
    reflexivity.
Defined.

(** ** Admission *)

Section AdmissionShape.
Context (cfg : EngineConfig) (env : Collaborators).

Lemma _add_processed_request_ok_inv rid pi params arrival lora pa th e e' :
  _add_processed_request cfg env rid pi params arrival lora pa th e = (e', Ok tt) ->
  exists g k s,
    e' = admitted k g e
    /\ scheduler e !! k = Some s
    /\ request_id g = rid
    /\ seqs g = [request_sequence cfg env (seq_counter e) pi lora pa true]
    /\ encoder_seq g
       = match encoder_prompt_token_ids pi with
         | Some _ => Some (request_sequence cfg env (seq_counter e) pi lora pa false)
         | None => None
         end
    /\ arrival_time g = arrival
    /\ lora_request g = lora
    /\ prompt_adapter_request g = pa
    /\ match params with
       | Sampling sp =>
           sampling_params g
           = Some (update_from_generation_config env sp (_get_eos_token_id env lora))
           /\ pooling_params g = None /\ trace_headers g = th
       | Pooling pp =>
           sampling_params g = None /\ pooling_params g = Some pp
           /\ trace_headers g = None
       | OtherParams => False
       end.
Proof.
  unfold _add_processed_request. intros H.
  apply bind_inv_ok in H as (e1 & [] & H1 & H).
  unfold _validate_model_inputs in H1.
  destruct (checked_prompt cfg pi) as [[|t ts]|]; try discriminate.
  injection H1 as <-.
  apply bind_inv_ok in H as (e1 & sid & H1 & H). injection H1 as <- <-.
  apply bind_inv_ok in H as (e1 & [] & H1 & H).
  cbv [modify] in H1. injection H1 as <-.
  apply bind_inv_ok in H as (e2 & g & Hg & H).
  apply bind_inv_ok in H as (e3 & h & Hh & H).
  apply bind_inv_ok in H as (e4 & costs & Hc & H).
  assert (Hbuilt : e2 = set_seq_counter (S (seq_counter e)) e
            /\ request_id g = rid
            /\ seqs g = [request_sequence cfg env (seq_counter e) pi lora pa true]
            /\ encoder_seq g
               = match encoder_prompt_token_ids pi with
                 | Some _ =>
                     Some (request_sequence cfg env (seq_counter e) pi lora pa false)
                 | None => None
                 end
            /\ arrival_time g = arrival
            /\ lora_request g = lora
            /\ prompt_adapter_request g = pa
            /\ match params with
               | Sampling sp =>
                   sampling_params g
                   = Some (update_from_generation_config env sp
                             (_get_eos_token_id env lora))
                   /\ pooling_params g = None /\ trace_headers g = th
               | Pooling pp =>
                   sampling_params g = None /\ pooling_params g = Some pp
                   /\ trace_headers g = None
               | OtherParams => False
               end).
  { destruct params as [sp|pp|]; [| |discriminate].
    - unfold _create_sequence_group_with_sampling in Hg.
      destruct (exceeds_max_logprobs cfg sp); [discriminate|].
      injection Hg as <- <-. by destruct (encoder_prompt_token_ids pi).
    - injection Hg as <- <-. by destruct (encoder_prompt_token_ids pi). }
  destruct Hbuilt as (-> & Hbuilt).
  cbv [alloc_group mbind M_bind gets modify mret M_ret] in Hh.
  injection Hh as <- <-. injection Hc as <- <-. cbn in H.
  destruct (list_min _) as [m|] eqn:Hm; [|discriminate].
  destruct (index_of m _) as [k|] eqn:Hk; [|discriminate].
  cbv [modify] in H. injection H as <-.
  pose proof (index_of_lookup _ _ _ Hk) as Hlk.
  rewrite list_lookup_fmap in Hlk.
  destruct (scheduler e !! k) as [s|] eqn:Es; [|discriminate].
  exists g, k, s. split; [reflexivity|]. split; [done|]. exact Hbuilt.
Qed.

Lemma add_request_ok_inv rid i params arrival lora th pa e e' :
  add_request cfg env rid i params arrival lora th pa e = (e', Ok tt) ->
  exists pi,
    process_model_inputs cfg env i rid lora pa e = (e, Ok pi)
    /\ _add_processed_request cfg env rid pi params
         (default (time_time env) arrival) lora pa th e = (e', Ok tt).
Proof.
  unfold add_request. intros H.
  assert (Hb : (processed_inputs ← process_model_inputs cfg env i rid lora pa;
                _add_processed_request cfg env rid processed_inputs params
                  (default (time_time env) arrival) lora pa th) e = (e', Ok tt)).
  { destruct lora as [l|], (lora_config cfg) as [c|], arrival;
      first [discriminate | exact H]. }
  apply bind_inv_ok in Hb as (e1 & pi & Hp & Hb).
  pose proof (process_model_inputs_pure _ _ _ _ _ _ _ _ _ Hp) as He1.
  unfold unchanged in He1. subst e1. eauto.
Qed.

(** A request that is admitted becomes one new sequence group at the end
    of the store, holding exactly one sequence.  The sequence carries the
    processed inputs and the value the sequence counter had, and the
    counter has moved by one; an encoder sequence exists exactly when the
    inputs have an encoder prompt, and shares that id.  The group records
    the request id, the arrival time (the clock when none was given), the
    LoRA and prompt-adapter requests; the trace headers are kept for a
    sampling request and dropped for a pooling request. *)
Theorem admitted_request_shape rid i params arrival lora th pa e e' :
  add_request cfg env rid i params arrival lora th pa e = (e', Ok tt) ->
  exists pi g,
    process_model_inputs cfg env i rid lora pa e = (e, Ok pi)
    /\ groups e' = groups e ++ [g]
    /\ seq_counter e' = S (seq_counter e)
    /\ request_id g = rid
    /\ seqs g = [request_sequence cfg env (seq_counter e) pi lora pa true]
    /\ encoder_seq g
       = match encoder_prompt_token_ids pi with
         | Some _ => Some (request_sequence cfg env (seq_counter e) pi lora pa false)
         | None => None
         end
    /\ arrival_time g = default (time_time env) arrival
    /\ lora_request g = lora
    /\ prompt_adapter_request g = pa
    /\ match params with
       | Sampling sp =>
           sampling_params g
           = Some (update_from_generation_config env sp (_get_eos_token_id env lora))
           /\ pooling_params g = None /\ trace_headers g = th
       | Pooling pp =>
           sampling_params g = None /\ pooling_params g = Some pp
           /\ trace_headers g = None
       | OtherParams => False
       end.
Proof.
  intros H. apply add_request_ok_inv in H as (pi & Hp & H).
  apply _add_processed_request_ok_inv in H as (g & k & s & -> & _ & Hg).
  exists pi, g. split; [done|]. split; [done|]. split; [done|]. exact Hg.
Qed.

End AdmissionShape.

Section AdmissionOutcomes.
Context (cfg : EngineConfig) (env : Collaborators).

Lemma bind_gets {A B} (f : LLMEngine -> A) (k : A -> M B) e :
  (gets f ≫= k) e = k (f e) e.
Proof. reflexivity. Qed.

Lemma bind_modify {B} (f : LLMEngine -> LLMEngine) (k : unit -> M B) e :
  (modify f ≫= k) e = k tt (f e).
Proof. reflexivity. Qed.

Lemma alloc_group_run g e :
  alloc_group g e = (set_groups (groups e ++ [g]) e, Ok (length (groups e))).
Proof. reflexivity. Qed.

(** Every way [_add_processed_request] can end. *)
Lemma _add_processed_request_cases rid pi params arrival lora pa th e e' r :
  _add_processed_request cfg env rid pi params arrival lora pa th e = (e', r) ->
  (e' = e /\ r = Raise (ValueError "Prompt cannot be empty")
   /\ prompt_is_empty cfg pi)
  \/ (e' = set_seq_counter (S (seq_counter e)) e
      /\ (exists msg, r = Raise (ValueError msg))
      /\ admissible cfg params = false)
  \/ (exists g,
        e' = set_groups (groups e ++ [g]) (set_seq_counter (S (seq_counter e)) e)
        /\ (exists msg, r = Raise (ValueError msg))
        /\ scheduler e = []
        /\ seqs g = [request_sequence cfg env (seq_counter e) pi lora pa true]
        /\ encoder_seq g
           = match encoder_prompt_token_ids pi with
             | Some _ =>
                 Some (request_sequence cfg env (seq_counter e) pi lora pa false)
             | None => None
             end)
  \/ (r = Ok tt).
Proof.
  unfold _add_processed_request. intros H.
  apply bind_inv in H as [(e1 & [] & H1 & H)|(x & H1 & ->)].
  2: { left. unfold _validate_model_inputs, prompt_is_empty in *.
       destruct (checked_prompt cfg pi) as [[|t ts]|];
         [injection H1 as <- <-; auto|discriminate|injection H1 as <- <-; auto]. }
  unfold _validate_model_inputs in H1.
  destruct (checked_prompt cfg pi) as [[|t ts]|]; try discriminate.
  injection H1 as <-. right.
  rewrite bind_gets, bind_modify in H.
  apply bind_inv in H as [(e2 & g & Hg & H)|(x & Hg & ->)].
  2: { left. destruct params as [sp|pp|].
       - unfold _create_sequence_group_with_sampling in Hg. cbn.
         destruct (exceeds_max_logprobs cfg sp); [|discriminate].
         injection Hg as <- <-. eauto.
       - discriminate.
       - injection Hg as <- <-. eauto. }
  assert (Hbuilt : e2 = set_seq_counter (S (seq_counter e)) e
            /\ seqs g = [request_sequence cfg env (seq_counter e) pi lora pa true]
            /\ encoder_seq g
               = match encoder_prompt_token_ids pi with
                 | Some _ =>
                     Some (request_sequence cfg env (seq_counter e) pi lora pa false)
                 | None => None
                 end).
  { destruct params as [sp|pp|]; [| |discriminate].
    - unfold _create_sequence_group_with_sampling in Hg.
      destruct (exceeds_max_logprobs cfg sp); [discriminate|].
      injection Hg as <- <-. by destruct (encoder_prompt_token_ids pi).
    - injection Hg as <- <-. by destruct (encoder_prompt_token_ids pi). }
  destruct Hbuilt as (-> & Hseqs & Henc).
  right.
  erewrite bind_ok in H by apply alloc_group_run.
  rewrite bind_gets in H. cbn in H.
  destruct (list_min _) as [m|] eqn:Hm.
  - destruct (index_of m _) as [k|] eqn:Hk.
    + right. cbv [modify] in H. by injection H as _ <-.
    + destruct (index_of_In m _ (list_min_In _ _ Hm)) as [k' Hk'].
      congruence.
  - left. apply list_min_None in Hm. injection H as <- <-.
    exists g. split; [done|]. split; [eauto|].
    split; [by destruct (scheduler e)|done].
Qed.

(** A request refused for its prompt leaves the engine exactly as it was.
    A request refused for its parameters (logprobs deeper than
    [max_logprobs], or parameters that are neither sampling nor pooling
    parameters) has already drawn its sequence id: the engine is as it was
    except that the sequence counter is one higher. *)
Theorem refused_request_effects rid i params arrival lora th pa e pi :
  lora = None \/ is_Some (lora_config cfg) ->
  process_model_inputs cfg env i rid lora pa e = (e, Ok pi) ->
  (prompt_is_empty cfg pi ->
   add_request cfg env rid i params arrival lora th pa e
   = (e, Raise (ValueError "Prompt cannot be empty")))
  /\ (~ prompt_is_empty cfg pi -> admissible cfg params = false ->
      exists msg,
        add_request cfg env rid i params arrival lora th pa e
        = (set_seq_counter (S (seq_counter e)) e, Raise (ValueError msg))).
Proof.
  intros Hl Hp.
  assert (Hadd : add_request cfg env rid i params arrival lora th pa e
                 = _add_processed_request cfg env rid pi params
                     (default (time_time env) arrival) lora pa th e).
  { unfold add_request.
    destruct lora as [l|];
      [destruct Hl as [?|[c Hc]]; [discriminate|rewrite Hc]|];
      cbv beta iota zeta; erewrite bind_ok by exact Hp; by destruct arrival. }
  rewrite Hadd.
  destruct (_add_processed_request cfg env rid pi params
              (default (time_time env) arrival) lora pa th e) as [e' r] eqn:H.
  pose proof H as Hcases. apply _add_processed_request_cases in Hcases.
  split.
  - intros Hempty. unfold _add_processed_request, _validate_model_inputs in H.
    destruct Hempty as [Hn|Hn]; rewrite Hn in H; by injection H as <- <-.
  - intros Hne Hadm.
    unfold _add_processed_request, _validate_model_inputs in H.
    destruct (checked_prompt cfg pi) as [[|t ts]|] eqn:Hc;
      [exfalso; apply Hne; by right| |exfalso; apply Hne; by left].
    destruct params as [sp|pp|]; cbn in Hadm; [|discriminate|].
    + apply negb_false_iff in Hadm.
      unfold _create_sequence_group_with_sampling in H. rewrite Hadm in H.
      injection H as <- <-. eauto.
    + injection H as <- <-. eauto.
Qed.

Lemma fresh_after_append e g pi lora pa :
  seq_ids_below e ->
  seqs g = [request_sequence cfg env (seq_counter e) pi lora pa true] ->
  encoder_seq g
  = match encoder_prompt_token_ids pi with
    | Some _ => Some (request_sequence cfg env (seq_counter e) pi lora pa false)
    | None => None
    end ->
  seq_ids_below
    (set_groups (groups e ++ [g]) (set_seq_counter (S (seq_counter e)) e))
  /\ (seq_counter e
      <= seq_counter (set_groups (groups e ++ [g])
                        (set_seq_counter (S (seq_counter e)) e)))%nat.
Proof.
  intros Hinv Hseqs Henc. split; [|cbn; lia].
  intros g' s' Hg' Hs'. cbn in Hg' |- *.
  apply elem_of_app in Hg' as [Hg'|Hg'].
  - specialize (Hinv g' s' Hg' Hs'). lia.
  - apply list_elem_of_singleton in Hg' as ->. rewrite Hseqs, Henc in Hs'.
    destruct Hs' as [Hs'|Hs'].
    + apply list_elem_of_singleton in Hs' as ->. cbn. lia.
    + destruct (encoder_prompt_token_ids pi); [|discriminate].
      injection Hs' as <-. cbn. lia.
Qed.

(** Sequence ids are never reused: if every sequence id in the store lies
    below the counter, the same holds after [add_request], however it
    ends, and the counter never moves back. *)
Theorem add_request_keeps_seq_ids_fresh rid i params arrival lora th pa e e' r :
  seq_ids_below e ->
  add_request cfg env rid i params arrival lora th pa e = (e', r) ->
  seq_ids_below e' /\ (seq_counter e <= seq_counter e')%nat.
Proof.
  intros Hinv H.
  assert (Hstep : e' = e
            \/ exists pi arr, _add_processed_request cfg env rid pi params arr
                                lora pa th e = (e', r)).
  { unfold add_request in H.
    assert (Hb : (e' = e)
              \/ (processed_inputs ← process_model_inputs cfg env i rid lora pa;
                  _add_processed_request cfg env rid processed_inputs params
                    (default (time_time env) arrival) lora pa th) e = (e', r)).
    { destruct lora as [l|], (lora_config cfg) as [c|], arrival;
        first [right; exact H | left; by injection H as <- _]. }
    destruct Hb as [?|Hb]; [by left|].
    apply bind_inv in Hb as [(e1 & pi & Hp & Hb)|(x & Hp & _)].
    - pose proof (process_model_inputs_pure _ _ _ _ _ _ _ _ _ Hp) as He1.
      unfold unchanged in He1. subst e1. eauto.
    - pose proof (process_model_inputs_pure _ _ _ _ _ _ _ _ _ Hp) as He1.
      by left. }
  destruct Hstep as [->|(pi & arr & Hadd)]; [done|].
  destruct r as [[]|x].
  - apply _add_processed_request_ok_inv in Hadd
      as (g & k & s & -> & _ & _ & Hseqs & Henc & _).
    destruct (fresh_after_append e g pi lora pa Hinv Hseqs Henc) as [Hf Hle].
    split; [|exact Hle]. intros g' s'. apply Hf.
  - apply _add_processed_request_cases in Hadd
      as [(-> & _)|[(-> & _)|[(g & -> & _ & _ & Hseqs & Henc)|?]]];
      [done| | |discriminate].
    + split; [|cbn; lia]. intros g' s' Hg' Hs'. cbn in Hg' |- *.
      specialize (Hinv g' s' Hg' Hs'). lia.
    + by apply (fresh_after_append e g pi lora pa).
Qed.

End AdmissionOutcomes.

Lemma sum_alter_succ {A} (f : A -> nat) (g : A -> A) (l : list A) : forall k s,
  l !! k = Some s -> (forall x, f (g x) = S (f x)) ->
  foldr Nat.add 0%nat (map f (alter g k l)) = S (foldr Nat.add 0%nat (map f l)).
Proof.
  induction l as [|x l IH]; intros k s Hk Hg; [done|].
  destruct k as [|k]; cbn in *.
  - by rewrite Hg.
  - rewrite (IH k s Hk Hg). lia.
Qed.

Lemma existsb_alter_true {A} (p : A -> bool) (g : A -> A) (l : list A) : forall k s,
  l !! k = Some s -> (forall x, p (g x) = true) ->
  existsb p (alter g k l) = true.
Proof.
  induction l as [|x l IH]; intros k s Hk Hg; [done|].
  destruct k as [|k]; cbn in *.
  - by rewrite Hg.
  - rewrite (IH k s Hk Hg). apply orb_true_r.
Qed.

(** An admitted request counts as unfinished at once: after a successful
    [add_request] the number of unfinished requests is one higher and
    [has_unfinished_requests] holds. *)
Theorem admitted_request_is_counted
    cfg env rid i params arrival lora th pa e e' :
  add_request cfg env rid i params arrival lora th pa e = (e', Ok tt) ->
  get_num_unfinished_requests e' = S (get_num_unfinished_requests e)
  /\ has_unfinished_requests e' = true.
Proof.
  intros H. apply add_request_ok_inv in H as (pi & _ & H).
  apply _add_processed_request_ok_inv in H as (g & k & s & -> & Hk & _).
  unfold get_num_unfinished_requests, has_unfinished_requests, admitted. cbn.
  split.
  - apply (sum_alter_succ _ _ _ k s Hk). intros [w r sw ids].
    unfold get_num_unfinished_seq_groups, add_seq_group. cbn.
    rewrite length_app. cbn. lia.
  - apply (existsb_alter_true _ _ _ k s Hk). intros [w r sw ids].
    unfold has_unfinished_seqs, get_num_unfinished_seq_groups, add_seq_group.
    cbn. rewrite length_app. cbn.
    apply negb_true_iff, Nat.eqb_neq. lia.
Qed.

Lemma admitted_request_shape_witness :
  exists pi g,
    process_model_inputs Scenario.cfg Scenario.env_async Scenario.hi "A" None None
      (Demo.new_engine 1)
    = (Demo.new_engine 1, Ok pi)
    /\ groups Scenario.one_waiting = groups (Demo.new_engine 1) ++ [g]
    /\ seq_counter Scenario.one_waiting = S (seq_counter (Demo.new_engine 1))
    /\ request_id g = "A"%string
    /\ seqs g = [request_sequence Scenario.cfg Scenario.env_async
                   (seq_counter (Demo.new_engine 1)) pi None None true]
    /\ encoder_seq g
       = match encoder_prompt_token_ids pi with
         | Some _ =>
             Some (request_sequence Scenario.cfg Scenario.env_async
                     (seq_counter (Demo.new_engine 1)) pi None None false)
         | None => None
         end
    /\ arrival_time g = default (time_time Scenario.env_async) None
    /\ lora_request g = None
    /\ prompt_adapter_request g = None
    /\ match Demo.sampling 1 with
       | Sampling sp =>
           sampling_params g
           = Some (update_from_generation_config Scenario.env_async sp
                     (_get_eos_token_id Scenario.env_async None))
           /\ pooling_params g = None /\ trace_headers g = None
       | Pooling pp =>
           sampling_params g = None /\ pooling_params g = Some pp
           /\ trace_headers g = None
       | OtherParams => False
       end.
Proof.
  apply (admitted_request_shape Scenario.cfg Scenario.env_async "A" Scenario.hi
           (Demo.sampling 1) None None None None (Demo.new_engine 1)
           Scenario.one_waiting).
  vm_compute. reflexivity.
Defined.

Lemma refused_request_effects_witness :
  (prompt_is_empty Scenario.cfg
     {| prompt_token_ids := [104; 105]; prompt := Some "hi"%string;
        multi_modal_data := None; encoder_prompt_token_ids := None;
        encoder_prompt := None |} ->
   add_request Scenario.cfg Scenario.env_async "A" Scenario.hi OtherParams
     None None None None (Demo.new_engine 1)
   = (Demo.new_engine 1, Raise (ValueError "Prompt cannot be empty")))
  /\ (~ prompt_is_empty Scenario.cfg
          {| prompt_token_ids := [104; 105]; prompt := Some "hi"%string;
             multi_modal_data := None; encoder_prompt_token_ids := None;
             encoder_prompt := None |} ->
      admissible Scenario.cfg OtherParams = false ->
      exists msg,
        add_request Scenario.cfg Scenario.env_async "A" Scenario.hi OtherParams
          None None None None (Demo.new_engine 1)
        = (set_seq_counter (S (seq_counter (Demo.new_engine 1)))
             (Demo.new_engine 1),
           Raise (ValueError msg))).
Proof.
  apply (refused_request_effects Scenario.cfg Scenario.env_async "A" Scenario.hi
           OtherParams None None None None (Demo.new_engine 1)).
  - by left.
  - vm_compute. reflexivity.
Defined.

Lemma add_request_keeps_seq_ids_fresh_witness :
  seq_ids_below Scenario.two_waiting
  /\ (seq_counter Scenario.one_waiting <= seq_counter Scenario.two_waiting)%nat.
Proof.
  apply (add_request_keeps_seq_ids_fresh Scenario.cfg Scenario.env_async "B"
           Scenario.hi (Demo.sampling 3) None None None None
           Scenario.one_waiting Scenario.two_waiting (Ok tt)).
  - intros g s Hg Hs. vm_compute in Hg.
    apply list_elem_of_singleton in Hg as ->.
    destruct Hs as [Hs|Hs]; [|discriminate].
    vm_compute in Hs. apply list_elem_of_singleton in Hs as ->.
    vm_compute. lia.
  - vm_compute. reflexivity.
Defined.

Lemma admitted_request_is_counted_witness :
  get_num_unfinished_requests Scenario.one_waiting
  = S (get_num_unfinished_requests (Demo.new_engine 1))
  /\ has_unfinished_requests Scenario.one_waiting = true.
Proof.
  apply (admitted_request_is_counted Scenario.cfg Scenario.env_async "A"
           Scenario.hi (Demo.sampling 1) None None None None
           (Demo.new_engine 1) Scenario.one_waiting).
  vm_compute. reflexivity.
Defined.

(** ** Output processing *)

Section OutputProcessing.
Context (cfg : EngineConfig) (env : Collaborators).

Lemma _process_model_outputs_popped is_async clear e entry q :
  output_queue e = entry :: q ->
  _process_model_outputs cfg env is_async clear e
  = process_popped_outputs cfg env is_async entry
      (set_output_queue q (if clear then set_request_outputs [] e else e)).
Proof.
  intros Hq. unfold _process_model_outputs.
  destruct clear; cbn [when].
  - rewrite bind_modify, bind_gets. cbn. rewrite Hq. by rewrite bind_modify.
  - erewrite bind_ok by reflexivity. rewrite bind_gets.
    rewrite Hq. by rewrite bind_modify.
Qed.

(** Output processing takes exactly one entry off the queue, and the entry
    is gone however processing ends: when an assertion or a lookup fails
    half-way the entry is not put back. *)
Theorem queue_entry_consumed is_async clear e entry q e' r :
  output_queue e = entry :: q ->
  _process_model_outputs cfg env is_async clear e = (e', r) ->
  output_queue e' = q.
Proof.
  intros Hq H.
  rewrite (_process_model_outputs_popped _ _ _ _ _ Hq) in H.
  apply process_popped_outputs_queue in H. unfold same in H.
  rewrite H. reflexivity.
Qed.

(** An entry whose metadata list and scheduled groups differ in length
    fails the sanity check: [AssertionError] is raised before any group is
    looked at; the entry has been taken off the queue and the list of
    outputs cleared (when asked to), and nothing else has changed. *)
Theorem mismatched_entry_asserts is_async clear e outs metas so q :
  output_queue e = (outs, metas, so) :: q ->
  length metas <> length (scheduled_seq_groups so) ->
  _process_model_outputs cfg env is_async clear e
  = (set_output_queue q (if clear then set_request_outputs [] e else e),
     Raise (AssertionError
              "len(seq_group_metadata_list) == len(scheduled_seq_groups)")).
Proof.
  intros Hq Hlen. unfold _process_model_outputs.
  apply Nat.eqb_neq in Hlen.
  destruct clear; cbn [when].
  - rewrite bind_modify, bind_gets. cbn. rewrite Hq, bind_modify.
    unfold process_popped_outputs. rewrite Hlen. reflexivity.
  - erewrite bind_ok by reflexivity. rewrite bind_gets, Hq, bind_modify.
    unfold process_popped_outputs. rewrite Hlen. reflexivity.
Qed.

End OutputProcessing.

Section AllOutputs.
Context (cfg : EngineConfig) (env : Collaborators).
Hypothesis returns_all : step_return_finished_only cfg = false.

Lemma create_scheduled_outputs_all so fb l : forall e e',
  for_each l (create_scheduled_output cfg so fb) e = (e', Ok tt) ->
  groups e' = groups e
  /\ request_outputs e'
     = request_outputs e
       ++ omap (fun j =>
                  ssg ← scheduled_seq_groups so !! j;
                  if bool_decide (j ∈ fb) then None
                  else RequestOutputFactory_create <$> groups e !! seq_group ssg)
            l.
Proof.
  induction l as [|j l IH]; intros e e' H.
  - injection H as <-. by rewrite app_nil_r.
  - cbn [for_each] in H. apply bind_inv_ok in H as (e1 & [] & H1 & H).
    destruct (IH _ _ H) as [Hg Hr]. rewrite Hg, Hr. clear IH H Hg Hr.
    unfold create_scheduled_output in H1.
    apply bind_inv_ok in H1 as (e2 & ssg & H2 & H1).
    unfold index in H2.
    destruct (scheduled_seq_groups so !! j) as [ssg'|] eqn:Ej; [|discriminate].
    injection H2 as <- <-. simpl. rewrite Ej. simpl.
    destruct (bool_decide (j ∈ fb)).
    { injection H1 as <-. done. }
    apply bind_inv_ok in H1 as (e2 & g & H2 & H1).
    apply load_group_inv in H2 as [-> [[? _]|(g' & [= <-] & Hg)]]; [discriminate|].
    rewrite returns_all in H1. cbv [when modify] in H1. injection H1 as <-.
    cbn. rewrite Hg. cbn. split; [done|]. by rewrite <- app_assoc.
Qed.

(** When intermediate outputs are returned too
    ([step_return_finished_only] off), one call of output processing leaves
    in [request_outputs], after what was there (nothing when the list was
    cleared), one output for every scheduled group that was not already
    finished when the call began, in the order of the decision, and then
    one output for every ignored group. *)
Theorem all_outputs_reported is_async clear e e' outs metas so q :
  output_queue e = (outs, metas, so) :: q ->
  NoDup (map seq_group (scheduled_seq_groups so)) ->
  _process_model_outputs cfg env is_async clear e = (e', Ok tt) ->
  request_outputs e'
  = (if clear then [] else request_outputs e)
    ++ omap (reported_this_call (groups e) (groups e')) (scheduled_seq_groups so)
    ++ omap (ignored_output (groups e')) (ignored_seq_groups so).
Proof.
  intros Hq Hnd H. unfold _process_model_outputs in H.
  apply bind_inv_ok in H as (e0 & [] & H0 & H).
  assert (He0 : groups e0 = groups e /\ output_queue e0 = output_queue e
                /\ request_outputs e0 = if clear then [] else request_outputs e).
  { destruct clear; by injection H0 as <-. }
  destruct He0 as (Hg0 & Hq0 & Hr0).
  rewrite bind_gets, Hq0, Hq, bind_modify in H.
  unfold process_popped_outputs in H.
  apply bind_inv_ok in H as (e2 & [] & Ha & H).
  unfold assert in Ha.
  destruct (Nat.eqb_spec (length metas) (length (scheduled_seq_groups so)))
    as [Hlen|]; [|discriminate].
  injection Ha as <-.
  apply bind_inv_ok in H as (e2 & fb & Hloop & H).
  rewrite bind_modify in H.
  apply bind_inv_ok in H as (e4 & [] & Hsecond & H).
  apply bind_inv_ok in H as (e5 & [] & Hthird & H).
  pose proof (process_scheduled_groups_outputs _ _ _ _ _ _ _ _ _ _ _ _ Hloop)
    as Hr2.
  pose proof (process_scheduled_groups_finished _ _ _ _ _ _ Hnd _ _ _ _ _ _ Hloop)
    as Hfb.
  destruct (create_scheduled_outputs_all _ _ _ _ _ Hsecond) as [Hg4 Hr4].
  destruct (create_ignored_outputs_run _ _ _ Hthird) as [Hg5 Hr5].
  pose proof (log_and_trace_frame cfg groups is_async so
                (fun _ _ => eq_refl) _ _ _ H) as Hg6.
  pose proof (log_and_trace_frame cfg request_outputs is_async so
                (fun _ _ => eq_refl) _ _ _ H) as Hr6.
  unfold same in *. cbn in Hr2, Hg4, Hr4, Hfb.
  rewrite Hr6, Hr5, Hr4, Hr2, Hr0, Hg6, Hg5, Hg4, <- app_assoc.
  do 2 f_equal. rewrite Hlen. apply omap_seq_lookup.
  intros j ssg Hj. unfold reported_this_call.
  rewrite Hj. cbn.
  assert (Hin : j ∈ fb <-> group_finished_at (groups e) (seq_group ssg) = true).
  { rewrite Hfb, Hg0. split.
    - intros [Hnil|[_ (ssg' & Hj' & Hf)]]; [by apply elem_of_nil in Hnil|].
      congruence.
    - intros Hf. right. split; [|eauto].
      apply lookup_lt_Some in Hj. lia. }
  destruct (group_finished_at (groups e) (seq_group ssg)).
  - rewrite bool_decide_eq_true_2 by (by apply Hin).
    by destruct (groups e2 !! seq_group ssg).
  - rewrite bool_decide_eq_false_2; [done|].
    intros Hc. by apply Hin in Hc.
Qed.

End AllOutputs.

#[global] Instance only_slots_preorder hs : PreOrder (only_slots hs).
Proof.
  split; [by split|].
  intros x y z [L1 H1] [L2 H2]. split; [congruence|].
  intros h Hh. rewrite H2, H1; done.
Qed.

Lemma preserves_only_slots_of_groups {A} hs (m : M A) :
  preserves (same groups) m -> preserves (only_slots hs) m.
Proof.
  intros Hm e e' r H. apply Hm in H. unfold same in H.
  split; by rewrite H.
Qed.

Section Untouched.
Context (cfg : EngineConfig) (env : Collaborators).

Lemma process_scheduled_group_length a outs obsg so i meta :
  preserves (same (fun e => length (groups e)))
    (process_scheduled_group cfg env a outs obsg so i meta).
Proof.
  unfold process_scheduled_group. frame.
  all: unfold same; intros; cbn; by rewrite length_alter.
Qed.

Lemma process_scheduled_group_only_slots a outs obsg so i meta :
  preserves (only_slots (map seq_group (scheduled_seq_groups so)))
    (process_scheduled_group cfg env a outs obsg so i meta).
Proof.
  intros e e' r H. split.
  - by apply process_scheduled_group_length in H.
  - intros h Hh. destruct (scheduled_seq_groups so !! i) as [ssg|] eqn:E.
    + apply (process_scheduled_group_only_slot _ _ _ _ _ _ _ _ _ E) in H.
      apply H. intros ->. apply Hh.
      apply list_elem_of_fmap. exists ssg. split; [done|].
      by eapply list_elem_of_lookup_2.
    + by destruct (process_scheduled_group_missing _ _ _ _ _ _ _ _ _ _ _ E H)
        as [-> _].
Qed.

Lemma process_popped_outputs_only_scheduled a outs metas so :
  preserves (only_slots (map seq_group (scheduled_seq_groups so)))
    (process_popped_outputs cfg env a (outs, metas, so)).
Proof.
  unfold process_popped_outputs.
  apply preserves_bind; [apply _|frame|]. intros _.
  apply preserves_bind; [apply _| |].
  - apply preserves_process_scheduled_groups; [apply _|].
    intros. apply process_scheduled_group_only_slots.
  - intros fb. apply preserves_only_slots_of_groups. frame.
Qed.

(** Output processing touches no group but those scheduled in the entry it
    processes: every other group of the store is exactly as it was,
    however processing ends, and the store has neither gained nor lost a
    group. *)
Theorem unscheduled_groups_untouched is_async clear e outs metas so q e' r :
  output_queue e = (outs, metas, so) :: q ->
  _process_model_outputs cfg env is_async clear e = (e', r) ->
  length (groups e') = length (groups e)
  /\ forall h,
       h ∉ map seq_group (scheduled_seq_groups so) ->
       groups e' !! h = groups e !! h.
Proof.
  intros Hq H. unfold _process_model_outputs in H.
  assert (H' : process_popped_outputs cfg env is_async (outs, metas, so)
                 (set_output_queue q
                    (if clear then set_request_outputs [] e else e)) = (e', r)).
  { destruct clear; cbn [when] in H.
    - rewrite bind_modify, bind_gets in H. cbn in H. rewrite Hq in H.
      by rewrite bind_modify in H.
    - erewrite bind_ok in H by reflexivity. rewrite bind_gets in H.
      rewrite Hq in H. by rewrite bind_modify in H. }
  apply process_popped_outputs_only_scheduled in H'.
  destruct H' as [Hl Hs]. by destruct clear.
Qed.

End Untouched.

Lemma queue_entry_consumed_witness :
  output_queue
    (Demo.exec (_process_model_outputs Scenario.cfg Scenario.env_sync false true)
       Scenario.queued_once)
  = [].
Proof.
  apply (queue_entry_consumed Scenario.cfg Scenario.env_sync false true
           Scenario.queued_once
           ([Scenario.sampled], Scenario.batch_metas, Scenario.first_decision)
           [] _ (Ok tt)).
  - reflexivity.
  - vm_compute. reflexivity.
Defined.

Lemma mismatched_entry_asserts_witness :
  _process_model_outputs Scenario.cfg Scenario.env_sync false true
    Examples.mismatched
  = (set_output_queue []
       (if true then set_request_outputs [] Examples.mismatched
        else Examples.mismatched),
     Raise (AssertionError
              "len(seq_group_metadata_list) == len(scheduled_seq_groups)")).
Proof.
  apply (mismatched_entry_asserts Scenario.cfg Scenario.env_sync false true
           Examples.mismatched [] Scenario.batch_metas Scenario.idle_decision []).
  - reflexivity.
  - vm_compute. lia.
Defined.

Lemma all_outputs_reported_witness :
  request_outputs
    (Demo.exec (_process_model_outputs Examples.cfg_all Scenario.env_async true true)
       Scenario.after_two_ticks)
  = (if true then [] else request_outputs Scenario.after_two_ticks)
    ++ omap (reported_this_call (groups Scenario.after_two_ticks)
               (groups (Demo.exec (_process_model_outputs Examples.cfg_all
                                     Scenario.env_async true true)
                          Scenario.after_two_ticks)))
         [ {| seq_group := 0%nat; token_chunk_size := 1 |};
           {| seq_group := 1%nat; token_chunk_size := 1 |} ]
    ++ omap (ignored_output
               (groups (Demo.exec (_process_model_outputs Examples.cfg_all
                                     Scenario.env_async true true)
                          Scenario.after_two_ticks)))
         [].
Proof.
  eapply (all_outputs_reported Examples.cfg_all Scenario.env_async eq_refl
            true true Scenario.after_two_ticks _ _ _
            {| scheduled_seq_groups :=
                 [ {| seq_group := 0%nat; token_chunk_size := 1 |};
                   {| seq_group := 1%nat; token_chunk_size := 1 |} ];
               num_prefill_groups := 0; num_batched_tokens := 2;
               blocks_to_swap_in := []; blocks_to_swap_out := [];
               blocks_to_copy := []; ignored_seq_groups := [];
               num_lookahead_slots := 0; running_queue_size := 2;
               preempted := 0 |} []).
  - vm_compute. reflexivity.
  - vm_compute. apply NoDup_cons. split; [|apply NoDup_singleton].
    intros H. apply list_elem_of_singleton in H. discriminate H.
  - vm_compute. reflexivity.
Defined.

Lemma unscheduled_groups_untouched_witness :
  length (groups (Demo.exec (_process_model_outputs Scenario.cfg
                               Scenario.env_sync false true)
                    (set_groups (groups Scenario.two_waiting) Scenario.queued_once)))
  = length (groups (set_groups (groups Scenario.two_waiting) Scenario.queued_once))
  /\ forall h,
       h ∉ map seq_group (scheduled_seq_groups Scenario.first_decision) ->
       groups (Demo.exec (_process_model_outputs Scenario.cfg
                            Scenario.env_sync false true)
                 (set_groups (groups Scenario.two_waiting) Scenario.queued_once))
         !! h
       = groups (set_groups (groups Scenario.two_waiting) Scenario.queued_once)
           !! h.
Proof.
  apply (unscheduled_groups_untouched Scenario.cfg Scenario.env_sync false true
           (set_groups (groups Scenario.two_waiting) Scenario.queued_once)
           [Scenario.sampled] Scenario.batch_metas Scenario.first_decision []
           _ (Ok tt)).
  - reflexivity.
  - vm_compute. reflexivity.
Defined.

(** ** The step loop *)

Section StepLoop.
Context (cfg : EngineConfig) (env : Collaborators).

(** When [step] returns and no request is left unfinished, the output
    queue has been drained and the last thing the engine did was to stop
    the execution loop of the remote workers. *)
Theorem idle_after_step_is_drained e e' outs :
  step cfg env e = (e', Ok outs) ->
  has_unfinished_requests e' = false ->
  output_queue e' = [] /\ last (trace e') = Some EvStopRemoteWorkerLoop.
Proof.
  intros H Hidle.
  apply step_ok_inv in H as (d & e1 & output & e2 & e3 & _ & _ & _ & H & _ & _).
  unfold step_drain in H. rewrite bind_gets in H.
  destruct (has_unfinished_requests e3) eqn:Hu; cbn [negb when] in H.
  { injection H as <-. congruence. }
  apply bind_inv_ok in H as (e4 & q & H4 & H). injection H4 as <- <-.
  apply bind_inv_ok in H as (e4 & [] & _ & H).
  rewrite bind_gets in H.
  apply bind_inv_ok in H as (e5 & [] & H5 & H).
  unfold assert in H5.
  destruct (output_queue e4) as [|entry q] eqn:Hq; [|discriminate].
  injection H5 as <-.
  cbv [stop_remote_worker_execution_loop emit modify] in H.
  injection H as <-. cbn. split; [done|]. apply last_snoc.
Qed.

Lemma step_execute_queue d : preserves queue_shrinks (step_execute cfg env d).
Proof.
  pose proof (_process_model_outputs_queue cfg env) as Hp.
  destruct d as [[metas so] allow].
  unfold step_execute, model_executor_execute_model. frame.
  all: unfold queue_shrinks; intros; reflexivity.
Qed.

Lemma step_drain_queue : preserves queue_shrinks (step_drain cfg env).
Proof.
  pose proof (_process_model_outputs_queue cfg env) as Hp.
  unfold step_drain. frame.
  all: unfold queue_shrinks; intros; reflexivity.
Qed.

Lemma queue_shrinks_empty e e' :
  queue_shrinks e e' -> output_queue e = [] -> output_queue e' = [].
Proof.
  unfold queue_shrinks. intros H Hq. rewrite Hq in H.
  by apply suffix_nil_inv in H.
Qed.

Lemma for_each_finish_step_queue metas :
  preserves (same output_queue) (for_each metas finish_step).
Proof. frame. Qed.

Lemma _has_remaining_steps_pure mo :
  preserves unchanged (_has_remaining_steps cfg mo).
Proof.
  unfold _has_remaining_steps, md_remaining_steps. frame.
Qed.

(** Operated synchronously the engine never leaves anything in the output
    queue: when the queue is empty before a tick whose decision does not
    allow asynchronous output processing, it is empty when [step]
    returns. *)
Theorem synchronous_step_leaves_queue_empty e e' outs e1 metas so :
  output_queue e = [] ->
  step_schedule cfg env e = (e1, Ok (metas, so, false)) ->
  step cfg env e = (e', Ok outs) ->
  output_queue e' = [].
Proof.
  intros Hq Hsched H.
  apply step_ok_inv in H
    as (d & e1' & output & e2 & e3 & H1 & H2 & H3 & H4 & _ & _).
  rewrite Hsched in H1. injection H1 as <- <-.
  pose proof (queue_shrinks_empty _ _ (step_schedule_queue _ _ _ _ _ Hsched) Hq)
    as Hq1.
  pose proof (queue_shrinks_empty _ _ (step_execute_queue _ _ _ _ H2) Hq1)
    as Hq2.
  apply (queue_shrinks_empty _ _ (step_drain_queue _ _ _ H4)).
  clear Hsched H2 H4 Hq Hq1.
  unfold step_finish in H3.
  apply bind_inv_ok in H3 as (ea & [] & Ha & H3).
  assert (Hqa : output_queue ea = []).
  { destruct (is_multi_step cfg); cbn [when] in Ha.
    - apply for_each_finish_step_queue in Ha. unfold same in Ha. congruence.
    - by injection Ha as <-. }
  apply bind_inv_ok in H3 as (eb & b & Hb & H3).
  apply _has_remaining_steps_pure in Hb. unfold unchanged in Hb. subst eb.
  destruct b; cbn [negb] in H3.
  { cbv [modify] in H3. by injection H3 as <-. }
  apply bind_inv_ok in H3 as (ec & [] & Hc & H3).
  assert (Hqc : output_queue ec = []).
  { destruct (is_multi_step cfg); cbn [when] in Hc; by injection Hc as <-. }
  rewrite bind_modify in H3. rewrite andb_false_r in H3. cbn [when negb] in H3.
  erewrite bind_ok in H3 by reflexivity.
  apply bind_inv_ok in H3 as (ed & [] & Hd & H3).
  rewrite (_process_model_outputs_popped _ _ _ _ _ (output, metas, so) [])
    in Hd by (cbn; by rewrite Hqc).
  apply process_popped_outputs_queue in Hd. unfold same in Hd. cbn in Hd.
  revert H3.
  match goal with
  | |- ?m ?a = (?b, ?r) -> _ =>
      intros H3; assert (Hs : same output_queue a b);
        [revert H3; cut (preserves (same output_queue) m);
           [intros Hx; apply Hx|frame]|]
  end.
  unfold same in Hs. congruence.
Qed.

End StepLoop.

Section ExecutorCalls.
Context (cfg : EngineConfig) (env : Collaborators).

Lemma _get_last_sampled_token_ids_single_stage e e' r :
  pipeline_parallel_size cfg <= 1 ->
  _get_last_sampled_token_ids cfg 0 e = (e', Ok r) -> r = None.
Proof.
  intros Hpp. unfold _get_last_sampled_token_ids.
  replace (pipeline_parallel_size cfg >? 1) with false
    by (symmetry; rewrite Z.gtb_ltb; apply Z.ltb_ge; lia).
  rewrite andb_false_r, bind_gets. intros H.
  apply bind_inv_ok in H as (e1 & co & _ & H).
  destruct (last_output co); by injection H as _ <-.
Qed.

(** A tick that returns runs the model exactly once when the decision has
    something to execute and not at all when the decision is empty.  The
    request handed to the executor carries the metadata list and the block
    operations of the decision, the ids of the requests that finished since
    the last forward pass, no cached token ids, and the output-processing
    callback exactly when the decision allows asynchronous processing. *)
Theorem executor_runs_once_per_decision e e' outs :
  step cfg env e = (e', Ok outs) ->
  exists e1 metas so allow,
    step_schedule cfg env e = (e1, Ok (metas, so, allow))
    /\ if is_empty so then events is_execute e' = events is_execute e
       else exists s,
              scheduler e1 !! 0%nat = Some s
              /\ events is_execute e'
                 = events is_execute e
                   ++ [EvExecuteModel
                         (request_of metas so allow (_finished_requests_ids s)
                            None)].
Proof.
  intros H.
  apply step_ok_inv in H
    as ([[metas so] allow] & e1 & output & e2 & e3 & H1 & H2 & H3 & H4 & _ & Hpp).
  exists e1, metas, so, allow. split; [done|].
  pose proof (step_schedule_events cfg env is_execute eq_refl
                (fun _ _ => eq_refl) eq_refl eq_refl _ _ _ H1) as E1.
  pose proof (step_finish_events cfg env is_execute _ _ (fun _ => eq_refl)
                (fun _ _ => eq_refl) eq_refl eq_refl _ _ _ H3) as E3.
  pose proof (step_drain_events cfg env is_execute (fun _ _ => eq_refl)
                eq_refl eq_refl eq_refl _ _ _ H4) as E4.
  unfold same in *. rewrite E4, E3, <- E1. clear E1 E3 E4 H1 H3 H4.
  destruct (is_empty so) eqn:Hso.
  { revert H2. by apply step_execute_idle_events. }
  unfold step_execute in H2. rewrite Hso in H2. cbn [negb] in H2.
  apply bind_inv_ok in H2 as (ea & ids & Ha & H2).
  unfold get_and_reset_finished_requests_ids in Ha. rewrite bind_gets in Ha.
  apply bind_inv_ok in Ha as (ea' & s & Hs & Ha).
  unfold index in Hs.
  destruct (scheduler e1 !! 0%nat) as [s'|] eqn:Es; [|discriminate].
  injection Hs as <- ->. rewrite bind_modify in Ha. injection Ha as <- <-.
  exists s. split; [done|].
  apply bind_inv_ok in H2 as (eb & last & Hb & H2).
  pose proof (_get_last_sampled_token_ids_single_stage _ _ _ Hpp Hb) as ->.
  apply _get_last_sampled_token_ids_pure in Hb. unfold unchanged in Hb. subst eb.
  apply bind_inv_ok in H2 as (ec & out & Hc & H2).
  fold (request_of metas so allow (_finished_requests_ids s) None) in Hc.
  assert (E2 : events is_execute e2 = events is_execute ec).
  { apply bind_inv_ok in H2 as (ed & [] & Hd & H2). injection H2 as <- _.
    revert Hd.
    match goal with
    | |- ?m ?a = (?b, ?r) -> _ =>
        cut (preserves (same (events is_execute)) m); [intros Hx; apply Hx|frame]
    end. }
  rewrite E2. clear E2 H2.
  unfold model_executor_execute_model in Hc.
  rewrite bind_gets in Hc. cbv [emit] in Hc. rewrite bind_modify in Hc.
  apply bind_inv_ok in Hc as (ed & [] & Hd & Hc).
  assert (Hl : ec = ed).
  { destruct (returned _); by injection Hc as <- _. }
  subst ed.
  assert (E : same (events is_execute)
                (set_trace
                   (trace
                      (set_scheduler
                         (<[0%nat:=reset_finished_requests_ids s]> (scheduler e1))
                         e1)
                    ++ [EvExecuteModel
                          (request_of metas so allow (_finished_requests_ids s)
                             None)])
                   (set_scheduler
                      (<[0%nat:=reset_finished_requests_ids s]> (scheduler e1))
                      e1)) ec).
  { revert Hd. apply (preserves_when (same (events is_execute))).
    by apply _process_model_outputs_events. }
  unfold same in E. rewrite E, events_emit. reflexivity.
Qed.

End ExecutorCalls.

Section MultiStepEdges.
Context (cfg : EngineConfig) (env : Collaborators).
Hypothesis multi_step : is_multi_step cfg = true.

(** Multi-step decoding does not work with asynchronous output
    processing: when the scheduler hands a multi-step engine a decision
    that allows it, [step] raises [AssertionError] before the model is
    run, and nothing has been pushed onto or taken off the output queue. *)
Theorem multi_step_refuses_async_decision e c s :
  pipeline_parallel_size cfg <= 1 ->
  cached_scheduler_outputs e !! 0%nat = Some c ->
  _has_remaining_steps cfg (seq_group_metadata_list c) e = (e, Ok false) ->
  scheduler e !! 0%nat = Some s ->
  sr_allow_async_output_proc (schedule env s (groups e)) = true ->
  exists e',
    step cfg env e = (e', Raise (AssertionError "not allow_async_output_proc"))
    /\ events is_execute e' = events is_execute e
    /\ output_queue e' = output_queue e.
Proof.
  intros Hpp Hc Hrem Hs Hallow.
  unfold step.
  replace (pipeline_parallel_size cfg >? 1) with false
    by (symmetry; rewrite Z.gtb_ltb; apply Z.ltb_ge; lia).
  assert (Hsched : exists e',
            step_schedule cfg env e
            = (e', Raise (AssertionError "not allow_async_output_proc"))
            /\ events is_execute e' = events is_execute e
            /\ output_queue e' = output_queue e).
  { unfold step_schedule, scheduler_schedule,
      _cache_scheduler_outputs_for_multi_step, set_cached.
    run_monad. rewrite Hc. cbn. rewrite Hrem. cbn. rewrite Hs. cbn.
    rewrite Hallow, multi_step. cbn.
    destruct (num_lookahead_slots _ >? 0); cbn; rewrite ?Hc; cbn;
      (eexists; split; [reflexivity|split; [|reflexivity]]);
      unfold events; cbn; rewrite List.filter_app; cbn; apply app_nil_r. }
  destruct Hsched as (e' & Hsched & He & Hq).
  exists e'. split; [by apply bind_raise|done].
Qed.

End MultiStepEdges.

Section MultiStepSubSteps.
Context (cfg : EngineConfig) (env : Collaborators).
Hypothesis multi_step : is_multi_step cfg = true.
Hypothesis prompt_logprob_keeps_steps :
  forall g o, remaining_steps (process_prompt_logprob env g o) = remaining_steps g.
Hypothesis process_outputs_keeps_steps :
  forall g o a, remaining_steps (process_outputs env g o a) = remaining_steps g.

Lemma step_execute_multi_queue metas so e e' out :
  step_execute cfg env (metas, so, false) e = (e', Ok out) ->
  output_queue e' = output_queue e.
Proof.
  unfold step_execute. destruct (is_empty so); cbn [negb].
  - rewrite bind_gets. destruct (output_queue e) as [|entry q] eqn:Hq.
    + run_monad. intros H. injection H as <- _. done.
    + cbn [length Nat.eqb negb when]. rewrite multi_step. discriminate.
  - intros H.
    match type of H with
    | ?m ?a = (?b, ?r) =>
        assert (Hs : same output_queue a b);
          [revert H; cut (preserves (same output_queue) m);
             [intros Hx; apply Hx|
              unfold model_executor_execute_model; frame]|]
    end.
    exact Hs.
Qed.

(** The sub-steps of a multi-step batch return nothing: when a tick of a
    multi-step engine ends with sub-steps of its batch still to run,
    [step] returns the empty list and has pushed nothing onto the output
    queue.  The output processor is taken not to touch the counters of
    sub-steps. *)
Theorem multi_step_sub_step_returns_nothing e e' outs e1 metas so allow :
  step_schedule cfg env e = (e1, Ok (metas, so, allow)) ->
  step cfg env e = (e', Ok outs) ->
  0 < batch_remaining (groups e') metas ->
  outs = [] /\ output_queue e' = output_queue e1.
Proof.
  intros Hsched H Hrem.
  apply step_ok_inv in H
    as (d & e1' & output & e2 & e3 & H1 & H2 & H3 & H4 & -> & _).
  rewrite Hsched in H1. injection H1 as <- <-.
  assert (allow = false) as ->.
  { destruct allow; [|done].
    apply step_schedule_allow in Hsched. congruence. }
  apply step_execute_multi_queue in H2 as <-.
  pose proof (step_drain_keeps_steps cfg env prompt_logprob_keeps_steps
                process_outputs_keeps_steps _ _ _ H4) as Hk4.
  unfold same in Hk4.
  rewrite (batch_remaining_ext _ _ metas Hk4) in Hrem.
  unfold step_finish in H3. rewrite multi_step in H3. cbn [when] in H3.
  apply bind_inv_ok in H3 as (ea & [] & Ha & H3).
  apply for_each_finish_step_queue in Ha as <-.
  apply bind_inv_ok in H3 as (eb & b & Hb & H3).
  apply (_has_remaining_steps_inv cfg multi_step) in Hb as [-> ->].
  cbn [from_option] in H3. unfold id in H3.
  destruct (batch_remaining (groups ea) metas >? 0) eqn:Hb; cbn [negb] in H3.
  - cbv [modify] in H3. injection H3 as <-.
    unfold step_drain in H4. rewrite bind_gets in H4.
    destruct (has_unfinished_requests _); cbn [negb when] in H4.
    { injection H4 as <-. done. }
    rewrite bind_gets in H4. cbn [output_queue set_request_outputs] in H4.
    destruct (output_queue ea) as [|entry q] eqn:Hq.
    + revert H4. run_monad. rewrite Hq. cbn. intros H4.
      injection H4 as <-. done.
    + cbn [length Nat.eqb negb when] in H4. rewrite multi_step in H4.
      discriminate.
  - exfalso.
    apply bind_inv_ok in H3 as (ec & [] & Hc & H3).
    cbv [set_cached modify] in Hc. injection Hc as <-.
    rewrite bind_modify, andb_false_r in H3. cbn [when negb] in H3.
    erewrite bind_ok in H3 by reflexivity.
    assert (Hk3 : per_group remaining_steps e3 = per_group remaining_steps ea).
    { pose proof (processing_keeps_steps cfg env prompt_logprob_keeps_steps
                    process_outputs_keeps_steps) as Hps.
      revert H3.
      match goal with
      | |- ?m ?a = (?b, ?r) -> _ =>
          intros H3;
          assert (Hs : same (per_group remaining_steps) a b);
            [revert H3; cut (preserves (same (per_group remaining_steps)) m);
               [intros Hx; apply Hx|frame]|]
      end.
      exact Hs. }
    rewrite (batch_remaining_ext _ _ metas Hk3) in Hrem.
    rewrite Z.gtb_ltb in Hb. apply Z.ltb_ge in Hb. lia.
Qed.

End MultiStepSubSteps.

Lemma idle_after_step_is_drained_witness :
  output_queue Examples.served_sync = []
  /\ last (trace Examples.served_sync) = Some EvStopRemoteWorkerLoop.
Proof.
  eapply (idle_after_step_is_drained Scenario.cfg Scenario.env_sync
            Scenario.one_waiting Examples.served_sync).
  - vm_compute. reflexivity.
  - vm_compute. reflexivity.
Defined.

Lemma synchronous_step_leaves_queue_empty_witness :
  output_queue Examples.served_sync = [].
Proof.
  eapply (synchronous_step_leaves_queue_empty Scenario.cfg Scenario.env_sync
            Scenario.one_waiting Examples.served_sync).
  - vm_compute. reflexivity.
  - vm_compute. reflexivity.
  - vm_compute. reflexivity.
Defined.

Lemma executor_runs_once_per_decision_witness :
  exists e1 metas so allow,
    step_schedule Scenario.cfg Scenario.env_sync Scenario.one_waiting
    = (e1, Ok (metas, so, allow))
    /\ if is_empty so
       then events is_execute Examples.served_sync
            = events is_execute Scenario.one_waiting
       else exists s,
              scheduler e1 !! 0%nat = Some s
              /\ events is_execute Examples.served_sync
                 = events is_execute Scenario.one_waiting
                   ++ [EvExecuteModel
                         (request_of metas so allow (_finished_requests_ids s)
                            None)].
Proof.
  eapply (executor_runs_once_per_decision Scenario.cfg Scenario.env_sync
            Scenario.one_waiting Examples.served_sync).
  vm_compute. reflexivity.
Defined.

Lemma multi_step_refuses_async_decision_witness :
  exists e',
    step Scenario.cfg_multi Scenario.env_async Scenario.one_waiting
    = (e', Raise (AssertionError "not allow_async_output_proc"))
    /\ events is_execute e' = events is_execute Scenario.one_waiting
    /\ output_queue e' = output_queue Scenario.one_waiting.
Proof.
  apply (multi_step_refuses_async_decision Scenario.cfg_multi Scenario.env_async
           eq_refl Scenario.one_waiting new_SchedulerOutputState
           {| waiting := [0%nat]; running := []; swapped := [];
              _finished_requests_ids := [] |}).
  - vm_compute. discriminate.
  - reflexivity.
  - reflexivity.
  - reflexivity.
  - vm_compute. reflexivity.
Defined.

Lemma multi_step_sub_step_returns_nothing_witness :
  [] = @nil RequestOutput
  /\ output_queue Scenario.multi_once
     = output_queue
         (Demo.exec (step_schedule Scenario.cfg_multi Scenario.env_multi)
            Examples.multi_waiting).
Proof.
  eapply (multi_step_sub_step_returns_nothing Scenario.cfg_multi
            Scenario.env_multi eq_refl (fun _ _ => eq_refl)
            (fun _ _ _ => eq_refl) Examples.multi_waiting Scenario.multi_once []).
  - vm_compute. reflexivity.
  - vm_compute. reflexivity.
  - vm_compute. reflexivity.
Defined.

(** ** The multi-step cache *)

Section MultiStepCache.
Context (cfg : EngineConfig) (env : Collaborators).

Lemma map_m_md_remaining_steps metas e :
  (forall md, md ∈ metas -> is_Some (groups e !! md_state md)) ->
  map_m md_remaining_steps metas e = (e, Ok (map (steps_left (groups e)) metas)).
Proof.
  induction metas as [|md rest IH]; intros Hall; [reflexivity|].
  cbn [map_m map].
  destruct (Hall md) as [g Hg]; [by left|].
  assert (Hmd : md_remaining_steps md e = (e, Ok (steps_left (groups e) md))).
  { unfold md_remaining_steps, steps_left.
    erewrite bind_ok by (by apply load_group_run). by rewrite Hg. }
  erewrite bind_ok by exact Hmd.
  erewrite bind_ok by (apply IH; intros; apply Hall; by right).
  reflexivity.
Qed.

(** In multi-step mode, on a batch whose groups are all in the store,
    [_has_remaining_steps] raises [AssertionError] exactly when some group
    of the batch has another number of sub-steps left than the first;
    otherwise it tells whether the first has any left.  It never changes
    the engine. *)
Theorem has_remaining_steps_checks_uniformity first rest e :
  is_multi_step cfg = true ->
  (forall md, md ∈ first :: rest -> is_Some (groups e !! md_state md)) ->
  _has_remaining_steps cfg (Some (first :: rest)) e
  = (e, if forallb (fun md => steps_left (groups e) md
                              =? steps_left (groups e) first) rest
        then Ok (steps_left (groups e) first >? 0)
        else Raise (AssertionError
               "All running sequence groups should have the same remaining steps.")).
Proof.
  intros Hms Hall. unfold _has_remaining_steps. rewrite Hms. cbn [negb].
  destruct (Hall first) as [g Hg]; [by left|].
  assert (Hmd : md_remaining_steps first e
                = (e, Ok (steps_left (groups e) first))).
  { unfold md_remaining_steps, steps_left.
    erewrite bind_ok by (by apply load_group_run). by rewrite Hg. }
  erewrite bind_ok by exact Hmd.
  erewrite bind_ok
    by (apply map_m_md_remaining_steps; intros; apply Hall; by right).
  assert (Hex : existsb (fun r => negb (r =? steps_left (groups e) first))
                  (map (steps_left (groups e)) rest)
                = negb (forallb (fun md => steps_left (groups e) md
                                           =? steps_left (groups e) first) rest)).
  { induction rest as [|md rest IH]; [done|]. cbn.
    rewrite IH, negb_andb; [done|]. intros; apply Hall.
    rewrite !elem_of_cons in *. tauto. }
  rewrite Hex. by destruct (forallb _ rest).
Qed.

(** Without multi-step there are never steps remaining, whatever the list
    holds. *)
Lemma has_remaining_steps_single_step mo e :
  is_multi_step cfg = false ->
  _has_remaining_steps cfg mo e = (e, Ok false).
Proof. intros Hms. unfold _has_remaining_steps. by rewrite Hms. Qed.


End MultiStepCache.

(** ** The eager append, position by position *)

Lemma advance_group_only_slot md out ssg :
  preserves (only_slot (seq_group ssg)) (advance_group (md, out, ssg)).
Proof. unfold advance_group. frame. Qed.

Lemma advance_group_length x :
  preserves (same (fun e => length (groups e))) (advance_group x).
Proof.
  destruct x as [[md out] ssg]. unfold advance_group. frame.
  all: unfold same; intros; cbn; by rewrite length_alter.
Qed.

Lemma for_each_advance_only l : forall e e' r,
  for_each l advance_group e = (e', r) ->
  length (groups e') = length (groups e)
  /\ forall h, (forall x, x ∈ l -> seq_group x.2 <> h) ->
       groups e' !! h = groups e !! h.
Proof.
  induction l as [|[[md out] ssg] l IH]; intros e e' r H.
  - injection H as <- _. done.
  - cbn [for_each] in H.
    apply bind_inv in H as [(e1 & [] & H1 & H)|(x & H1 & _)].
    + destruct (IH _ _ _ H) as [Hl Hs].
      pose proof (advance_group_length _ _ _ _ H1) as Hl1.
      pose proof (advance_group_only_slot _ _ _ _ _ _ H1) as Hs1.
      unfold same in Hl1. split; [congruence|].
      intros h Hh. rewrite Hs, Hs1; [done| |].
      * intros ->. by apply (Hh (md, out, ssg)); [left|].
      * intros x Hx. apply Hh. by right.
    + pose proof (advance_group_length _ _ _ _ H1) as Hl1.
      pose proof (advance_group_only_slot _ _ _ _ _ _ H1) as Hs1.
      split; [done|]. intros h Hh. apply Hs1.
      intros ->. by apply (Hh (md, out, ssg)); [left|].
Qed.

(** [_advance_to_next_step] walks the metadata list, the outputs and the
    scheduled groups in step and stops with the shortest: a group is left
    exactly as it was unless it is scheduled at a position that has both a
    metadata entry and an output.  This holds however the call ends, and
    the store neither gains nor loses a group. *)
Theorem advance_stops_with_shortest_list o metas ssgs e e' r :
  _advance_to_next_step o metas ssgs e = (e', r) ->
  length (groups e') = length (groups e)
  /\ forall h,
       (forall i ssg,
          ssgs !! i = Some ssg ->
          (i < length metas)%nat -> (i < length (outputs o))%nat ->
          seq_group ssg <> h) ->
       groups e' !! h = groups e !! h.
Proof.
  unfold _advance_to_next_step. intros H.
  destruct (for_each_advance_only _ _ _ _ H) as [Hl Hs].
  split; [done|]. intros h Hh. apply Hs.
  intros x Hx. apply zip3_lookup in Hx as (i & Hm & Ho & Hg).
  apply (Hh i); [done|by eapply lookup_lt_Some..].
Qed.

Lemma has_remaining_steps_checks_uniformity_witness :
  _has_remaining_steps Scenario.cfg_multi (Some Examples.two_metas)
    (set_groups (groups Scenario.multi_once ++ groups Scenario.one_waiting)
       Scenario.multi_once)
  = (set_groups (groups Scenario.multi_once ++ groups Scenario.one_waiting)
       Scenario.multi_once,
     if forallb
          (fun md =>
             steps_left (groups Scenario.multi_once ++ groups Scenario.one_waiting) md
             =? steps_left
                  (groups Scenario.multi_once ++ groups Scenario.one_waiting)
                  {| md_request_id := "A"; md_state := 0%nat; is_prompt := true;
                     do_sample := true; md_token_chunk_size := 2 |})
          [ {| md_request_id := "B"; md_state := 1%nat; is_prompt := true;
               do_sample := true; md_token_chunk_size := 2 |} ]
     then Ok (steps_left
                (groups Scenario.multi_once ++ groups Scenario.one_waiting)
                {| md_request_id := "A"; md_state := 0%nat; is_prompt := true;
                   do_sample := true; md_token_chunk_size := 2 |} >? 0)
     else Raise (AssertionError
            "All running sequence groups should have the same remaining steps.")).
Proof.
  apply (has_remaining_steps_checks_uniformity Scenario.cfg_multi
           {| md_request_id := "A"; md_state := 0%nat; is_prompt := true;
              do_sample := true; md_token_chunk_size := 2 |}
           [ {| md_request_id := "B"; md_state := 1%nat; is_prompt := true;
                do_sample := true; md_token_chunk_size := 2 |} ]).
  - reflexivity.
  - intros md Hmd. apply elem_of_cons in Hmd as [->|Hmd];
      [|apply list_elem_of_singleton in Hmd as ->]; vm_compute; eauto.
Defined.


Lemma advance_stops_with_shortest_list_witness :
  length (groups (Demo.exec (_advance_to_next_step Scenario.sampled
                               Examples.two_metas Examples.two_scheduled)
                    Scenario.two_waiting))
  = length (groups Scenario.two_waiting)
  /\ forall h,
       (forall i ssg,
          Examples.two_scheduled !! i = Some ssg ->
          (i < length Examples.two_metas)%nat ->
          (i < length (outputs Scenario.sampled))%nat ->
          seq_group ssg <> h) ->
       groups (Demo.exec (_advance_to_next_step Scenario.sampled
                            Examples.two_metas Examples.two_scheduled)
                 Scenario.two_waiting) !! h
       = groups Scenario.two_waiting !! h.
Proof.
  apply (advance_stops_with_shortest_list Scenario.sampled Examples.two_metas
           Examples.two_scheduled Scenario.two_waiting _ (Ok tt)).
  vm_compute. reflexivity.
Defined.

(** ** Choosing the executor *)

Module ExecutorChoiceFacts.
Import ExecutorChoice.

(** The Ray cluster is initialized exactly when the executor that is
    chosen runs on Ray (one of the three Ray executors, or a custom class
    that says it uses Ray); it is never initialized when the choice
    fails. *)
Theorem ray_initialized_iff_needed b device spmd :
  ray_cluster_initialized (_get_executor_cls b device spmd)
  = match executor_class (_get_executor_cls b device spmd) with
    | inr c => runs_on_ray b c
    | inl _ => false
    end.
Proof.
  unfold _get_executor_cls, backend_is.
  destruct b as [name is_eb ur|s|].
  - by destruct is_eb.
  - destruct (String.eqb device "neuron"); [reflexivity|].
    destruct (String.eqb device "tpu");
      [destruct (String.eqb s "ray"); reflexivity|].
    destruct (String.eqb device "cpu"); [reflexivity|].
    destruct (String.eqb device "openvino"); [reflexivity|].
    destruct (String.eqb device "xpu");
      [destruct (String.eqb s "ray"); reflexivity|].
    destruct (String.eqb s "ray"); [reflexivity|].
    destruct (String.eqb s "mp"); [destruct spmd|]; reflexivity.
  - destruct (String.eqb device "neuron"); [reflexivity|].
    destruct (String.eqb device "tpu"); [reflexivity|].
    destruct (String.eqb device "cpu"); [reflexivity|].
    destruct (String.eqb device "openvino"); [reflexivity|].
    destruct (String.eqb device "xpu"); reflexivity.
Qed.


End ExecutorChoiceFacts.

(** ** Validating request outputs *)

Module OutputValidationFacts.
Import OutputValidation.

Section Facts.
Context {Object OutputType : Type} (isinstance : Object -> OutputType -> bool).

Lemma check_each_spec outputs ty : forall acc,
  check_each _ _ isinstance outputs ty acc
  = match List.find (fun o => negb (isinstance o ty)) outputs with
    | Some bad => TypeError bad ty
    | None => Returns (acc ++ outputs)
    end.
Proof.
  induction outputs as [|o rest IH]; intros acc; cbn.
  - by rewrite app_nil_r.
  - destruct (isinstance o ty); cbn; [|done].
    by rewrite IH, <- app_assoc.
Qed.

(** [validate_outputs] never touches the validation flag.  With
    validation enabled it returns the outputs as a list when every one of
    them is an instance of the expected type, and otherwise raises
    [TypeError] for the first that is not; with validation disabled it
    returns whatever it is given. *)
Theorem validate_outputs_finds_first_intruder outputs ty flag :
  validate_outputs _ _ isinstance outputs ty flag
  = (flag,
     match (if flag then List.find (fun o => negb (isinstance o ty)) outputs
            else None) with
     | Some bad => TypeError bad ty
     | None => Returns outputs
     end).
Proof.
  unfold validate_outputs. destruct flag; cbn; [|done].
  by rewrite check_each_spec.
Qed.

(** [enable_output_validation] is not exception-safe: a block whose
    validation fails leaves validation enabled, while a block that returns
    leaves it disabled. *)
Theorem validation_stays_on_after_failure output ty flag :
  enable_output_validation _ _ (validate_output _ _ isinstance output ty) flag
  = if isinstance output ty
    then (false, Returns output)
    else (true, TypeError output ty).
Proof.
  unfold enable_output_validation, validate_output. cbn.
  by destruct (isinstance output ty).
Qed.

(** [enable_output_validation] does not nest: when an inner block has
    returned, the rest of the outer block runs with validation disabled,
    so that an output of any type passes. *)
Theorem nested_validation_switches_off {A} (inner : V Object OutputType A)
    output ty flag flag' a :
  inner true = (flag', Returns a) ->
  enable_output_validation _ _
    (and_then _ _ (enable_output_validation _ _ inner)
       (fun _ => validate_output _ _ isinstance output ty)) flag
  = (false, Returns output).
Proof.
  intros Hinner.
  unfold enable_output_validation, and_then, validate_output.
  rewrite Hinner. reflexivity.
Qed.

End Facts.

Lemma nested_validation_switches_off_witness :
  enable_output_validation _ _
    (and_then _ _
       (enable_output_validation _ _
          (validate_output nat nat Nat.eqb 1%nat 1%nat))
       (fun _ => validate_output nat nat Nat.eqb 2%nat 1%nat)) false
  = (false, Returns 2%nat).
Proof.
  apply (nested_validation_switches_off Nat.eqb
           (validate_output nat nat Nat.eqb 1%nat 1%nat) 2%nat 1%nat false
           true 1%nat).
  reflexivity.
Defined.

End OutputValidationFacts.

(** ** The statistics loggers *)

Module StatLoggersFacts.
Import StatLoggers.

Section Facts.
Context {StatLogger : Type}.

Lemma filter_absent name (d : Dict StatLogger) :
  contains _ name d = false ->
  List.filter (fun kv => negb (String.eqb (fst kv) name)) d = d.
Proof.
  induction d as [|[k v] d IH]; [done|]. cbn.
  intros [Hk Hd]%orb_false_iff. rewrite Hk. cbn. by rewrite IH.
Qed.

Lemma contains_app name (d1 d2 : Dict StatLogger) :
  contains _ name (d1 ++ d2) = contains _ name d1 || contains _ name d2.
Proof. unfold contains. apply existsb_app. Qed.

(** Adding a logger under a new name and removing it again gives back the
    loggers as they were, in the same order; in between the name is taken,
    so that adding it a second time raises [KeyError] and changes
    nothing. *)
Theorem logger_added_then_removed name logger (d : Dict StatLogger) :
  contains _ name d = false ->
  exists d',
    add_logger _ name logger (Some d) = (Some d', inr tt)
    /\ (exists msg, add_logger _ name logger (Some d')
                    = (Some d', inl (KeyError msg)))
    /\ remove_logger _ name (Some d') = (Some d, inr tt)
    /\ exists msg, remove_logger _ name (Some d) = (Some d, inl (KeyError msg)).
Proof.
  intros Hfresh. exists (d ++ [(name, logger)]).
  assert (Hin : contains _ name (d ++ [(name, logger)]) = true).
  { rewrite contains_app. cbn. rewrite String.eqb_refl. apply orb_true_r. }
  unfold add_logger, remove_logger. rewrite Hfresh, Hin. cbn.
  split; [done|]. split; [eauto|]. split; [|eauto].
  rewrite List.filter_app, (filter_absent _ _ Hfresh). cbn.
  rewrite String.eqb_refl. cbn. by rewrite app_nil_r.
Qed.

End Facts.

Lemma logger_added_then_removed_witness :
  exists d',
    add_logger nat "audit" 3%nat (Some [("logging"%string, 1%nat)])
    = (Some d', inr tt)
    /\ (exists msg, add_logger nat "audit" 3%nat (Some d')
                    = (Some d', inl (KeyError msg)))
    /\ remove_logger nat "audit" (Some d')
       = (Some [("logging"%string, 1%nat)], inr tt)
    /\ exists msg,
         remove_logger nat "audit" (Some [("logging"%string, 1%nat)])
         = (Some [("logging"%string, 1%nat)], inl (KeyError msg)).
Proof.
  apply (logger_added_then_removed "audit" 3%nat [("logging"%string, 1%nat)]).
  reflexivity.
Defined.

End StatLoggersFacts.

(** ** The attention heads of DBRX *)

Module DbrxFacts.
Import Dbrx.

Lemma bind_inr {A B} (m : Error + A) (k : A -> Error + B) b :
  bind m k = inr b -> exists a, m = inr a /\ k a = inr b.
Proof. destruct m as [e|a]; [discriminate|eauto]. Qed.

Lemma floordiv_inr a b q : floordiv a b = inr q -> b <> 0 /\ q = a / b.
Proof.
  unfold floordiv. destruct (Z.eqb_spec b 0); [discriminate|].
  intros [= <-]. done.
Qed.

Lemma divides_inr a b :
  bind (modulo a b) (fun r => check (r =? 0)) = inr tt ->
  b <> 0 /\ a mod b = 0.
Proof.
  unfold modulo, check. destruct (Z.eqb_spec b 0); [discriminate|]. cbn.
  destruct (Z.eqb_spec (a mod b) 0); [done|discriminate].
Qed.

(** When the constructor goes through on [tp] ranks, the query heads are
    shared out exactly: every rank has [total_num_heads / tp] of them and
    nothing is left over.  The key-value heads are shared out exactly when
    there are at least as many as ranks; when there are fewer, every rank
    holds one, the number of ranks being a multiple of the number of
    heads.  The sizes of the query and key-value slices are the head
    counts times the head dimension. *)
Theorem attention_heads_partition build_layers d_model heads kv_heads tp shape :
  0 < tp ->
  DbrxAttention_init build_layers d_model heads kv_heads tp = inr shape ->
  head_dim shape = d_model / heads
  /\ num_heads shape * tp = heads
  /\ 1 <= num_kv_heads shape
  /\ (tp <= kv_heads -> num_kv_heads shape * tp = kv_heads)
  /\ (kv_heads < tp -> num_kv_heads shape = 1 /\ tp mod kv_heads = 0)
  /\ q_size shape = num_heads shape * head_dim shape
  /\ kv_size shape = num_kv_heads shape * head_dim shape.
Proof.
  intros Htp H. unfold DbrxAttention_init in H.
  apply bind_inr in H as (hd & Hhd & H). apply floordiv_inr in Hhd as [_ ->].
  apply bind_inr in H as ([] & _ & H).
  apply bind_inr in H as (r & Hr & H).
  apply bind_inr in H as ([] & Hr0 & H).
  assert (Hheads : heads mod tp = 0).
  { unfold modulo in Hr. destruct (tp =? 0); [discriminate|].
    injection Hr as <-. unfold check in Hr0.
    by destruct (Z.eqb_spec (heads mod tp) 0). }
  apply bind_inr in H as (nh & Hnh & H). apply floordiv_inr in Hnh as [_ ->].
  apply bind_inr in H as ([] & Hkv & H).
  apply bind_inr in H as (q & Hq & H). apply floordiv_inr in Hq as [_ ->].
  injection H as <-. cbn.
  split; [done|]. split.
  { apply Z.div_exact in Hheads; lia. }
  split; [lia|].
  destruct (Z.geb_spec kv_heads tp) as [Hge|Hlt].
  - apply divides_inr in Hkv as [_ Hkv].
    split; [|split; [lia|done]].
    intros _. apply Z.div_exact in Hkv; [|lia].
    assert (1 <= kv_heads / tp) by (apply Z.div_le_lower_bound; lia).
    rewrite Z.max_r by lia. lia.
  - apply divides_inr in Hkv as [Hne Hkv].
    split; [lia|]. split; [|done]. intros _. split; [|done].
    assert (kv_heads / tp <= 0); [|lia].
    destruct (Z.le_gt_cases 0 kv_heads).
    + rewrite Z.div_small; lia.
    + assert (kv_heads / tp < 0) by (apply Z.div_lt_upper_bound; lia). lia.
Qed.

Lemma attention_heads_partition_witness :
  head_dim {| head_dim := 128; num_heads := 12; num_kv_heads := 2;
              q_size := 1536; kv_size := 256 |} = 6144 / 48
  /\ num_heads {| head_dim := 128; num_heads := 12; num_kv_heads := 2;
                  q_size := 1536; kv_size := 256 |} * 4 = 48
  /\ 1 <= num_kv_heads {| head_dim := 128; num_heads := 12; num_kv_heads := 2;
                          q_size := 1536; kv_size := 256 |}
  /\ (4 <= 8 ->
      num_kv_heads {| head_dim := 128; num_heads := 12; num_kv_heads := 2;
                      q_size := 1536; kv_size := 256 |} * 4 = 8)
  /\ (8 < 4 ->
      num_kv_heads {| head_dim := 128; num_heads := 12; num_kv_heads := 2;
                      q_size := 1536; kv_size := 256 |} = 1
      /\ 4 mod 8 = 0)
  /\ q_size {| head_dim := 128; num_heads := 12; num_kv_heads := 2;
               q_size := 1536; kv_size := 256 |}
     = num_heads {| head_dim := 128; num_heads := 12; num_kv_heads := 2;
                    q_size := 1536; kv_size := 256 |}
       * head_dim {| head_dim := 128; num_heads := 12; num_kv_heads := 2;
                     q_size := 1536; kv_size := 256 |}
  /\ kv_size {| head_dim := 128; num_heads := 12; num_kv_heads := 2;
                q_size := 1536; kv_size := 256 |}
     = num_kv_heads {| head_dim := 128; num_heads := 12; num_kv_heads := 2;
                       q_size := 1536; kv_size := 256 |}
       * head_dim {| head_dim := 128; num_heads := 12; num_kv_heads := 2;
                     q_size := 1536; kv_size := 256 |}.
Proof.
  apply (attention_heads_partition (fun _ _ _ _ => inr tt) 6144 48 8 4).
  - lia.
  - vm_compute. reflexivity.
Defined.

End DbrxFacts.

(** ** Embedding models *)

Section Embedding.
Context (cfg : EngineConfig) (env : Collaborators).
Hypothesis embeds : embedding_mode cfg = true.

Lemma index_inv_ok {A} (l : list A) i (e e' : LLMEngine) x :
  index l i e = (e', Ok x) -> e' = e /\ l !! i = Some x.
Proof.
  unfold index. destruct (l !! i) as [y|]; cbv [mret M_ret raise];
    intros [= <- <-]; done.
Qed.

Lemma is_finished_stopped g x :
  is_finished
    (set_seqs (set_embeddings g x)
       (map (fun s => seq_set_status s FINISHED_STOPPED)
          (seqs (set_embeddings g x)))) = true.
Proof.
  unfold is_finished. cbn. induction (seqs g) as [|s l IH]; [done|]. cbn.
  exact IH.
Qed.

Lemma embed_scheduled_group a outs n so i meta ssg e e' b :
  scheduled_seq_groups so !! i = Some ssg ->
  process_scheduled_group cfg env a outs
    (if (1 <? length outs)%nat then create_output_by_sequence_group outs n
     else []) so i meta e = (e', Ok b) ->
  exists g',
    groups e' !! seq_group ssg = Some g'
    /\ is_finished g' = true
    /\ (group_finished_at (groups e) (seq_group ssg) = false ->
        exists o os,
          outputs_of_position outs n i = Some (o :: os)
          /\ embeddings g' = Some (out_embeddings o)).
Proof.
  intros E H. unfold process_scheduled_group in H.
  rewrite (index_Some _ _ _ E) in H.
  erewrite bind_ok in H by reflexivity.
  apply bind_inv_ok in H as (e1 & g & H1 & H).
  apply load_group_inv in H1 as [-> [[? _]|(g0 & [= <-] & Hg)]]; [discriminate|].
  unfold group_finished_at. rewrite Hg.
  destruct (is_finished g) eqn:Hfin.
  { injection H as <- _. exists g. by rewrite Hg. }
  apply bind_inv_ok in H as (e1 & output & Hout & H).
  assert (Hpos : e1 = e /\ outputs_of_position outs n i = Some output).
  { unfold outputs_of_position.
    destruct (1 <? length outs)%nat.
    - by apply index_inv_ok in Hout as [-> ->].
    - apply bind_inv_ok in Hout as (e2 & first & H2 & Hout).
      apply index_inv_ok in H2 as [-> ->].
      apply bind_inv_ok in Hout as (e2 & o & H2 & Hout).
      apply index_inv_ok in H2 as [-> H2]. cbn. rewrite H2. cbn.
      cbv [mret M_ret] in Hout. by injection Hout as <- <-. }
  destruct Hpos as [-> Hpos].
  apply bind_inv_ok in H as (e1 & [] & H1 & H).
  assert (Hg1 : exists g1, groups e1 !! seq_group ssg = Some g1).
  { destruct a; cbn [negb when] in H1.
    - injection H1 as <-. eauto.
    - rewrite mutate_group_run in H1. injection H1 as <-. cbn.
      rewrite list_lookup_alter_eq, Hg. eauto. }
  destruct Hg1 as [g1 Hg1].
  rewrite embeds in H.
  apply bind_inv_ok in H as (e2 & [] & H2 & H). injection H as <- _.
  unfold _process_sequence_group_outputs in H2.
  apply bind_inv_ok in H2 as (e3 & o & H3 & H2).
  apply index_inv_ok in H3 as [-> H3].
  destruct output as [|o' os]; [discriminate|]. injection H3 as ->.
  erewrite bind_ok in H2 by apply mutate_group_run.
  rewrite mutate_group_run in H2. injection H2 as <-. cbn.
  rewrite !list_lookup_alter_eq, Hg1. cbn.
  eexists. split; [reflexivity|]. split; [apply is_finished_stopped|].
  intros _. exists o, os. done.
Qed.

Lemma process_scheduled_groups_keep_slot a outs obsg so h : forall metas i fb e e' r,
  (forall j ssg, (i <= j)%nat -> scheduled_seq_groups so !! j = Some ssg ->
                 seq_group ssg <> h) ->
  process_scheduled_groups cfg env a outs obsg so i metas fb e = (e', r) ->
  groups e' !! h = groups e !! h.
Proof.
  induction metas as [|meta rest IH]; intros i fb e e' r Hh H.
  - by injection H as <- _.
  - cbn [process_scheduled_groups] in H.
    assert (Hone : forall e1 r1,
              process_scheduled_group cfg env a outs obsg so i meta e = (e1, r1) ->
              groups e1 !! h = groups e !! h).
    { intros e1 r1 H1.
      destruct (scheduled_seq_groups so !! i) as [ssg|] eqn:E.
      - apply (process_scheduled_group_only_slot _ _ _ _ _ _ _ _ _ E) in H1.
        apply H1. intros ->. by apply (Hh i ssg).
      - by destruct (process_scheduled_group_missing _ _ _ _ _ _ _ _ _ _ _ E H1)
          as [-> _]. }
    apply bind_inv in H as [(e1 & b & H1 & H)|(x & H1 & _)].
    + assert (Hh' : forall j ssg, (S i <= j)%nat ->
                  scheduled_seq_groups so !! j = Some ssg -> seq_group ssg <> h).
      { intros j ssg Hj. apply Hh. lia. }
      rewrite (IH _ _ _ _ _ Hh' H). by eapply Hone.
    + by eapply Hone.
Qed.

Lemma embed_scheduled_groups a outs n so :
  NoDup (map seq_group (scheduled_seq_groups so)) ->
  forall metas i fb e e' fb',
    process_scheduled_groups cfg env a outs
      (if (1 <? length outs)%nat then create_output_by_sequence_group outs n
       else []) so i metas fb e = (e', Ok fb') ->
    forall j ssg,
      (i <= j < i + length metas)%nat ->
      scheduled_seq_groups so !! j = Some ssg ->
      exists g',
        groups e' !! seq_group ssg = Some g'
        /\ is_finished g' = true
        /\ (group_finished_at (groups e) (seq_group ssg) = false ->
            exists o os,
              outputs_of_position outs n j = Some (o :: os)
              /\ embeddings g' = Some (out_embeddings o)).
Proof.
  intros Hnd. induction metas as [|meta rest IH]; intros i fb e e' fb' H j ssg Hj Ej.
  { cbn in Hj. lia. }
  cbn [process_scheduled_groups] in H.
  apply bind_inv_ok in H as (e1 & b & H1 & H).
  assert (Hdiff : forall j1 j2 s1 s2,
            scheduled_seq_groups so !! j1 = Some s1 ->
            scheduled_seq_groups so !! j2 = Some s2 ->
            j1 <> j2 -> seq_group s1 <> seq_group s2).
  { intros j1 j2 s1 s2 E1 E2 Hne Heq. apply Hne.
    apply (NoDup_lookup _ j1 j2 (seq_group s1) Hnd);
      rewrite list_lookup_fmap; [rewrite E1|rewrite E2]; cbn; congruence. }
  destruct (decide (j = i)) as [->|Hne].
  - destruct (embed_scheduled_group _ _ _ _ _ _ _ _ _ _ Ej H1)
      as (g' & Hg' & Hfin & Hemb).
    exists g'. split; [|done].
    rewrite <- Hg'.
    eapply process_scheduled_groups_keep_slot; [|exact H].
    intros j' ssg' Hj' E'. apply (Hdiff j' i ssg' ssg E' Ej). lia.
  - cbn [length] in Hj.
    assert (Hj' : (S i <= j < S i + length rest)%nat) by lia.
    destruct (IH _ _ _ _ _ H j ssg Hj' Ej) as (g' & Hg' & Hfin & Hemb).
    exists g'. split; [done|]. split; [done|].
    intros Hnot. apply Hemb. rewrite <- Hnot. unfold group_finished_at.
    destruct (scheduled_seq_groups so !! i) as [ssgi|] eqn:Ei.
    + apply (process_scheduled_group_only_slot _ _ _ _ _ _ _ _ _ Ei) in H1.
      rewrite H1; [done|]. apply (Hdiff j i ssg ssgi Ej Ei Hne).
    + by destruct (process_scheduled_group_missing _ _ _ _ _ _ _ _ _ _ _ Ei H1)
        as [_ [? ?]].
Qed.

(** An embedding model finishes every request in one pass: after output
    processing every group scheduled in the processed entry is finished,
    and a group that was not finished before carries the embeddings of the
    first output handed on for its position. *)
Theorem embedding_requests_finish_at_once
    is_async clear e e' outs metas so q i ssg :
  output_queue e = (outs, metas, so) :: q ->
  NoDup (map seq_group (scheduled_seq_groups so)) ->
  _process_model_outputs cfg env is_async clear e = (e', Ok tt) ->
  scheduled_seq_groups so !! i = Some ssg ->
  exists g',
    groups e' !! seq_group ssg = Some g'
    /\ is_finished g' = true
    /\ (group_finished_at (groups e) (seq_group ssg) = false ->
        exists o os,
          outputs_of_position outs (length metas) i = Some (o :: os)
          /\ embeddings g' = Some (out_embeddings o)).
Proof.
  intros Hq Hnd H Ei. unfold _process_model_outputs in H.
  apply bind_inv_ok in H as (e0 & [] & H0 & H).
  assert (He0 : groups e0 = groups e /\ output_queue e0 = output_queue e).
  { destruct clear; by injection H0 as <-. }
  destruct He0 as (Hg0 & Hq0).
  rewrite bind_gets, Hq0, Hq, bind_modify in H.
  unfold process_popped_outputs in H.
  apply bind_inv_ok in H as (e2 & [] & Ha & H).
  unfold assert in Ha.
  destruct (Nat.eqb_spec (length metas) (length (scheduled_seq_groups so)))
    as [Hlen|]; [|discriminate].
  injection Ha as <-.
  apply bind_inv_ok in H as (e2 & fb & Hloop & H).
  assert (Hrest : groups e' = groups e2).
  { revert H.
    match goal with
    | |- ?m ?a = (?b, ?r) -> _ =>
        intros H; assert (Hs : same groups a b);
          [revert H; cut (preserves (same groups) m);
             [intros Hx; apply Hx|frame]|]
    end.
    exact Hs. }
  rewrite Hrest.
  destruct (embed_scheduled_groups _ _ _ _ Hnd _ _ _ _ _ _ Hloop i ssg)
    as (g' & Hg' & Hfin & Hemb); [|done|].
  { apply lookup_lt_Some in Ei. lia. }
  exists g'. split; [done|]. split; [done|].
  intros Hnot. apply Hemb. cbn. by rewrite Hg0.
Qed.

End Embedding.

Lemma embedding_requests_finish_at_once_witness :
  exists g',
    groups (Demo.exec (_process_model_outputs Examples.cfg_embedding
                         Examples.env false true) Examples.embedding_queued)
      !! 0%nat = Some g'
    /\ is_finished g' = true
    /\ (group_finished_at (groups Examples.embedding_queued) 0%nat = false ->
        exists o os,
          outputs_of_position [Examples.embedded] 1 0
          = Some (o :: os)
          /\ embeddings g' = Some (out_embeddings o)).
Proof.
  apply (embedding_requests_finish_at_once Examples.cfg_embedding Examples.env
           eq_refl false true Examples.embedding_queued _
           [Examples.embedded] Scenario.batch_metas Scenario.first_decision []
           0%nat {| seq_group := 0%nat; token_chunk_size := 2 |}).
  - reflexivity.
  - vm_compute. apply NoDup_singleton.
  - vm_compute. reflexivity.
  - vm_compute. reflexivity.
Defined.
